(** * smolmsg: the message codec and its identifier scheme

    A shallow embedding of the Go sources of rsms/smolmsg (package main of
    the smsg program): the identifier codec ([EncodeId], [IdString],
    [UpdateIdFromTime]), the hashing and counting reader
    ([HashingCountingReader]), the address normaliser and the streaming
    section parser ([ParseReader]), together with the parts of the Go
    standard library the parser runs on (bufio.Reader, io.ReadFull,
    strconv.ParseUint, bytes.TrimSpace, crypto/sha256). *)

From Stdlib Require Import ZArith List Ascii String Bool Lia Arith.
Import ListNotations.
Abbreviation length := List.length (only parsing).
Local Open Scope Z_scope.

Set Implicit Arguments.

(* ================================================================== *)
(** ** Bytes and machine integers *)

Abbreviation byte := ascii (only parsing).
Abbreviation bytes := (list ascii) (only parsing).

(** A Go string or byte-slice literal. *)
Definition B (s : string) : bytes := list_ascii_of_string s.

Definition byte_val (b : byte) : Z := Z.of_N (N_of_ascii b).

(** Go's conversion [byte(x)]: the low eight bits. *)
Definition byte_of (z : Z) : byte := ascii_of_N (Z.to_N (z mod 256)).

Definition zero_byte : byte := ascii_of_N 0.
Definition NL : byte := ascii_of_N 10.
Definition CR : byte := ascii_of_N 13.
Definition SP : byte := ascii_of_N 32.

Definition uint32 (z : Z) : Z := z mod 2 ^ 32.
Definition uint64 (z : Z) : Z := z mod 2 ^ 64.
(** Go's [int] is 64 bits wide on the platforms smsg builds for. *)
Definition int (z : Z) : Z := (z + 2 ^ 63) mod 2 ^ 64 - 2 ^ 63.

Definition len {A} (l : list A) : Z := Z.of_nat (length l).

Definition bytes_eqb (a b : bytes) : bool :=
  if list_eq_dec ascii_dec a b then true else false.

(** The outcome of running Go code that may panic; loops whose number of
    iterations the code does not bound take fuel. *)
Inductive run (A : Type) : Type :=
| Done (a : A)
| Panic
| OutOfFuel.
Arguments Done {A} a.
Arguments Panic {A}.
Arguments OutOfFuel {A}.

Definition run_bind {A C} (x : run A) (k : A -> run C) : run C :=
  match x with
  | Done a => k a
  | Panic => Panic
  | OutOfFuel => OutOfFuel
  end.

Declare Scope run_scope.
Delimit Scope run_scope with run.
Notation "'do' x <- c ; k" := (run_bind c (fun x => k))
  (at level 10, x pattern, c at level 100, k at level 200) : run_scope.

(* ================================================================== *)
(** ** Constants of the message format *)

Definition FIELD_SUBJECT : Z := 0.
Definition FIELD_FROM : Z := 1.
Definition FIELD_TO : Z := 2.
Definition FIELD_TIME : Z := 3.
Definition FIELD_BODY : Z := 4.
Definition FIELD_FILE : Z := 5.

Definition MAX_BODY_SIZE : Z := 8 * 1024 * 1024.

Definition idEpochBase : Z := 1600000000.

Definition base62Characters : bytes :=
  B "0123456789ABCDEFGHIJKLMNOPQRSTUVWXYZabcdefghijklmnopqrstuvwxyz".

(** The table built by [init]. *)
Definition fieldtab : list (bytes * Z) :=
  [ (B "subject", FIELD_SUBJECT);
    (B "from", FIELD_FROM);
    (B "to", FIELD_TO);
    (B "time", FIELD_TIME);
    (B "body", FIELD_BODY);
    (B "file", FIELD_FILE) ].

Fixpoint map_lookup (tab : list (bytes * Z)) (key : bytes) : option Z :=
  match tab with
  | [] => None
  | (k, v) :: tab' => if bytes_eqb k key then Some v else map_lookup tab' key
  end.

(* ================================================================== *)
(** ** ilog2 and the read buffer size (util.go, ParseReader) *)

(** math/bits.LeadingZeros64. *)
Definition LeadingZeros64 (n : Z) : Z :=
  if n =? 0 then 64 else 63 - Z.log2 n.

Definition ilog2 (n : Z) : Z :=
  if n <=? 1 then 1 else (64 - LeadingZeros64 n) - 1.

(** The first four statements of [ParseReader]. *)
Definition bufsize_of (srcsize : Z) : Z :=
  let bufsize := int (srcsize + 1) in
  let bufsize := if bufsize >? 4096 then 4096 else bufsize in
  int (Z.shiftl 1 (ilog2 (uint64 bufsize))).

(** The size hint as the specification words it: the hint rounded down to
    the nearest power of two, capped at 4096. *)
Definition spec_bufsize (hint : Z) : Z := Z.min (2 ^ Z.log2 hint) 4096.

(* ================================================================== *)
(** ** Time, errors *)

(** A [time.Time], as far as the codec looks at it: the Unix seconds. *)
Record Time := mkTime { Unix : Z }.

(** The zero [time.Time] of a fresh [Message]: January 1, year 1. *)
Definition zeroTime : Time := mkTime (-62135596800).

(** Errors.  [Errorf] keeps the format string and the arguments of an
    [errorf] call; the other constructors are the sentinel errors of io,
    bufio and strconv, and [ErrOther] any other error of a byte source. *)
Inductive error : Type :=
| EOF
| ErrUnexpectedEOF
| ErrNoProgress
| ErrBufferFull
| ErrNegativeCount
| ErrSyntax
| ErrRange
| ErrOther (msg : string)
| Errorf (format : string) (args : list arg)
with arg : Type :=
| ArgBytes (b : bytes)
| ArgInt (z : Z)
| ArgTime (t : Time)
| ArgErr (e : error).

Definition is_EOF (e : error) : bool :=
  match e with EOF => true | _ => false end.

(* ================================================================== *)
(** ** Slices *)

(** [bytes.IndexByte]: the index of the first [c], or -1. *)
Fixpoint IndexByte (s : bytes) (c : byte) : Z :=
  match s with
  | [] => -1
  | x :: s' =>
      if Ascii.eqb x c then 0
      else let i := IndexByte s' c in if i =? -1 then -1 else i + 1
  end.

Definition HasPrefix (s prefix : bytes) : bool :=
  bytes_eqb (firstn (length prefix) s) prefix.

(** [s[i:]] and [s[:i]] for an index known to be in range. *)
Definition slice_from (s : bytes) (i : Z) : bytes := skipn (Z.to_nat i) s.
Definition slice_to (s : bytes) (i : Z) : bytes := firstn (Z.to_nat i) s.

(** [s[i:]] where the index may be out of range. *)
Definition slice_from_checked (s : bytes) (i : Z) : run bytes :=
  if (0 <=? i) && (i <=? len s) then Done (slice_from s i) else Panic.

(** [s[i] = c]. *)
Fixpoint set_index (s : bytes) (i : nat) (c : byte) : run bytes :=
  match s, i with
  | [], _ => Panic
  | _ :: s', O => Done (c :: s')
  | x :: s', S i' =>
      match set_index s' i' c with
      | Done r => Done (x :: r)
      | other => other
      end
  end.

(* ================================================================== *)
(** ** The identifier codec (smolmsg.go) *)

Definition id_byte (id : bytes) (i : nat) : Z := byte_val (nth i id zero_byte).

(** [uint32(id[i])<<24 | uint32(id[i+1])<<16 | uint32(id[i+2])<<8 | uint32(id[i+3])] *)
Definition id_word (id : bytes) (i : nat) : Z :=
  Z.lor (Z.lor (Z.lor (uint32 (Z.shiftl (id_byte id i) 24))
                      (uint32 (Z.shiftl (id_byte id (i + 1)) 16)))
               (uint32 (Z.shiftl (id_byte id (i + 2)) 8)))
        (id_byte id (i + 3)).

Definition IdTimestamp (id : bytes) : Z := id_word id 0.

Definition IdTime (id : bytes) : Time := mkTime (IdTimestamp id + idEpochBase).

Definition srcBase : Z := 4294967296.
Definition dstBase : Z := 62.

(** The inner loop of [EncodeId]: one long division of the words of [bp]
    by 62, most significant word first. *)
Fixpoint divide_words (bp quotient : list Z) (remainder : Z) : list Z * Z :=
  match bp with
  | [] => (quotient, remainder)
  | c :: bp' =>
      let value := uint64 (uint64 c + uint64 (uint64 remainder * srcBase)) in
      let digit := value / dstBase in
      let remainder' := value mod dstBase in
      if negb (length quotient =? 0)%nat || negb (digit =? 0)
      then divide_words bp' (quotient ++ [uint32 digit]) remainder'
      else divide_words bp' quotient remainder'
  end.

(** The outer loop of [EncodeId].  [n] only decreases and [dst[n]] panics
    below zero, so the loop runs at most [n] times. *)
Fixpoint encode_loop (n : nat) (bp : list Z) (dst : bytes) : run (nat * bytes) :=
  match bp with
  | [] => Done (n, dst)
  | _ :: _ =>
      let '(quotient, remainder) := divide_words bp [] 0 in
      match n with
      | O => Panic
      | S n' =>
          match set_index dst n' (nth (Z.to_nat remainder) base62Characters zero_byte) with
          | Done dst' => encode_loop n' quotient dst'
          | Panic => Panic
          | OutOfFuel => OutOfFuel
          end
      end
  end.

Definition EncodeId (id : bytes) (dst : bytes) : run bytes :=
  let parts := [id_word id 0; id_word id 4; id_word id 8;
                id_word id 12; id_word id 16; id_word id 20] in
  match encode_loop (length dst) parts dst with
  | Done (n, dst1) =>
      match n with
      | O => Panic
      | S n1 =>
          match set_index dst1 n1 "0"%char with
          | Done dst2 =>
              match n1 with
              | O => Panic
              | S n2 => Done (skipn n2 dst2)
              end
          | other => other
          end
      end
  | Panic => Panic
  | OutOfFuel => OutOfFuel
  end.

Definition IdString (id : bytes) : run bytes :=
  EncodeId id (repeat zero_byte 50).

(** The value the specification encodes: the 24 bytes read as one
    big-endian number. *)
Definition be_value (bs : bytes) : Z :=
  fold_left (fun acc b => acc * 256 + byte_val b) bs 0.

(** The base-62 digits of [v], least significant first, then most
    significant first; thirty-three digits reach past 2^192. *)
Fixpoint base62_rev (k : nat) (v : Z) : bytes :=
  match k with
  | O => []
  | S k' =>
      nth (Z.to_nat (v mod 62)) base62Characters zero_byte
        :: (if v / 62 =? 0 then [] else base62_rev k' (v / 62))
  end.

Definition base62 (v : Z) : bytes := rev (base62_rev 33 v).

(** What the specification asks [EncodeId] to return. *)
Definition spec_EncodeId (id : bytes) : bytes := "0"%char :: base62 (be_value id).


(* ================================================================== *)
(** ** strconv.ParseUint and bytes.TrimSpace *)

Definition maxUint64 : Z := 2 ^ 64 - 1.

(** The digit loop of [strconv.ParseUint] for base 10.  A letter is a
    digit of some larger base and an error here, like any other byte. *)
Fixpoint parse_digits (cs : bytes) (n maxVal : Z) : Z * option error :=
  match cs with
  | [] => (n, None)
  | c :: cs' =>
      if (48 <=? byte_val c) && (byte_val c <=? 57) then
        let d := byte_val c - 48 in
        if n >=? maxUint64 / 10 + 1 then (maxVal, Some ErrRange)
        else
          let n10 := uint64 (n * 10) in
          let n1 := uint64 (n10 + d) in
          if (n1 <? n10) || (n1 >? maxVal) then (maxVal, Some ErrRange)
          else parse_digits cs' n1 maxVal
      else (0, Some ErrSyntax)
  end.

(** [strconv.ParseUint(s, 10, bitSize)] *)
Definition ParseUint (s : bytes) (bitSize : Z) : Z * option error :=
  match s with
  | [] => (0, Some ErrSyntax)
  | _ => parse_digits s 0 (uint64 (uint64 (Z.shiftl 1 bitSize) - 1))
  end.

(** The parts of the Go libraries that the codec calls and whose tables
    (Unicode normalisation, case mapping, white space, calendar) are not
    repeated here. *)
Class GoLib : Type := {
  (** [norm.NFC.String] *)
  NFC_String : bytes -> bytes;
  (** [strings.ToLower] *)
  strings_ToLower : bytes -> bytes;
  (** [time.Parse(layout, value)] *)
  time_Parse : string -> bytes -> Time + error;
  (** [bytes.TrimFunc(s, unicode.IsSpace)], the slow path of
      [bytes.TrimSpace] taken at the first byte that is not ASCII *)
  TrimFunc_IsSpace : bytes -> bytes
}.

(** The table [asciiSpace] of package bytes: tab, line feed, vertical tab,
    form feed, carriage return, space. *)
Definition asciiSpace (c : byte) : bool :=
  let v := byte_val c in
  (v =? 9) || (v =? 10) || (v =? 11) || (v =? 12) || (v =? 13) || (v =? 32).

Inductive scan : Type :=
| Fallback (rest : bytes)
| Stopped (rest : bytes).

(** One of the two scanning loops of [bytes.TrimSpace]. *)
Fixpoint scan_space (s : bytes) : scan :=
  match s with
  | [] => Stopped []
  | c :: s' =>
      if 128 <=? byte_val c then Fallback s
      else if asciiSpace c then scan_space s'
      else Stopped s
  end.

Definition TrimSpace `{GoLib} (s : bytes) : bytes :=
  match scan_space s with
  | Fallback r => TrimFunc_IsSpace r
  | Stopped r =>
      match scan_space (rev r) with
      | Fallback rr => TrimFunc_IsSpace (rev rr)
      | Stopped rr => rev rr
      end
  end.

(* ================================================================== *)
(** ** crypto/sha256 *)

Module SHA256.

(** The constants of FIPS 180-4: the first 32 bits of the fractional
    parts of the cube roots (for [K]) and of the square roots (for [init])
    of the first primes. *)
Definition is_prime (n : Z) : bool :=
  (2 <=? n) && forallb (fun d => negb (n mod Z.of_nat d =? 0)) (seq 2 (Z.to_nat n - 2)).

Definition primes (count : nat) : list Z :=
  firstn count (filter is_prime (map Z.of_nat (seq 2 400))).

(** The integer cube root, one bit at a time from bit [bits - 1] down. *)
Fixpoint cube_root (bits : nat) (n r : Z) : Z :=
  match bits with
  | O => r
  | S bits' =>
      let r' := r + 2 ^ Z.of_nat bits' in
      cube_root bits' n (if r' * r' * r' <=? n then r' else r)
  end.

Definition K : list Z :=
  Eval vm_compute in map (fun q => uint32 (cube_root 40 (q * 2 ^ 96) 0)) (primes 64).

Definition init : list Z :=
  Eval vm_compute in map (fun q => uint32 (Z.sqrt (q * 2 ^ 64))) (primes 8).

Definition rotr (x n : Z) : Z :=
  Z.lor (Z.shiftr x n) (uint32 (Z.shiftl x (32 - n))).

Definition add32 (a b : Z) : Z := uint32 (a + b).

Definition sigma0 x := Z.lxor (Z.lxor (rotr x 7) (rotr x 18)) (Z.shiftr x 3).
Definition sigma1 x := Z.lxor (Z.lxor (rotr x 17) (rotr x 19)) (Z.shiftr x 10).
Definition Sigma0 x := Z.lxor (Z.lxor (rotr x 2) (rotr x 13)) (rotr x 22).
Definition Sigma1 x := Z.lxor (Z.lxor (rotr x 6) (rotr x 11)) (rotr x 25).
Definition Ch x y z := Z.lxor (Z.land x y) (Z.land (Z.lxor x 0xffffffff) z).
Definition Maj x y z := Z.lxor (Z.lxor (Z.land x y) (Z.land x z)) (Z.land y z).

(** Big-endian words of a block of bytes. *)
Fixpoint words_of (bs : list Z) : list Z :=
  match bs with
  | a :: b :: c :: d :: bs' =>
      (a * 16777216 + b * 65536 + c * 256 + d) :: words_of bs'
  | _ => []
  end.

(** The message schedule, most recent word first. *)
Fixpoint schedule (n : nat) (w : list Z) : list Z :=
  match n with
  | O => w
  | S n' =>
      let w2 := nth 1 w 0 in
      let w7 := nth 6 w 0 in
      let w15 := nth 14 w 0 in
      let w16 := nth 15 w 0 in
      schedule n' (add32 (add32 (sigma1 w2) w7) (add32 (sigma0 w15) w16) :: w)
  end.

Definition round (st : list Z) (kw : Z * Z) : list Z :=
  match st with
  | [a; b; c; d; e; f; g; h] =>
      let t1 := add32 (add32 (add32 (add32 h (Sigma1 e)) (Ch e f g)) (fst kw)) (snd kw) in
      let t2 := add32 (Sigma0 a) (Maj a b c) in
      [add32 t1 t2; a; b; c; add32 d t1; e; f; g]
  | _ => st
  end.

Definition block (st : list Z) (blk : list Z) : list Z :=
  let w := rev (schedule 48 (rev (words_of blk))) in
  let st' := fold_left round (combine K w) st in
  map (fun p => add32 (fst p) (snd p)) (combine st st').

Fixpoint blocks (n : nat) (st : list Z) (bs : list Z) : list Z :=
  match n with
  | O => st
  | S n' => blocks n' (block st (firstn 64 bs)) (skipn 64 bs)
  end.

Definition be_bytes (k : nat) (v : Z) : list Z :=
  map (fun i => Z.shiftr v (8 * Z.of_nat (k - 1 - i)) mod 256) (seq 0 k).

Definition pad (msg : list Z) : list Z :=
  let l := Z.of_nat (length msg) in
  let zeros := Z.to_nat ((55 - l) mod 64) in
  msg ++ [0x80] ++ repeat 0 zeros ++ be_bytes 8 (uint64 (l * 8)).

(** [h.Sum(nil)] of a digest the bytes [msg] were written to. *)
Definition Sum (msg : bytes) : bytes :=
  let p := pad (map byte_val msg) in
  let st := blocks (length p / 64) init p in
  map byte_of (flat_map (be_bytes 4) st).

End SHA256.

(* ================================================================== *)
(** ** io.Reader and the hashing, counting reader (util.go) *)

(** An [io.Reader] with state [Src]: [Read s L] is a call with a slice of
    length [L]; it answers the bytes stored in [p[:n]], the error, and the
    next state.  The contract [0 <= n <= len(p)] is part of the interface. *)
Class Reader (Src : Type) : Type := {
  Read : Src -> nat -> bytes * option error * Src;
  Read_bound : forall s L, (length (fst (fst (Read s L))) <= L)%nat
}.

Record HashingCountingReader (Src : Type) : Type := mkHCR {
  inner : Src;          (* the embedded io.Reader *)
  nread : Z;
  hash : bytes        (* the bytes written to the SHA-256 state so far *)
}.

Definition MakeSHA256HashingCountingReader {Src} (r : Src) : HashingCountingReader Src :=
  {| inner := r; nread := 0; hash := [] |}.

Definition HCR_Read {Src} `{Reader Src} (r : HashingCountingReader Src) (L : nat)
  : bytes * option error * HashingCountingReader Src :=
  let '(p_n, err, s') := Read (inner r) L in
  match err with
  | None =>
      (p_n, err, {| inner := s'; nread := int (nread r + len p_n); hash := hash r ++ p_n |})
  | Some _ =>
      (p_n, err, {| inner := s'; nread := nread r; hash := hash r |})
  end.

(* ================================================================== *)
(** ** bufio.Reader over the hashing reader, and io.ReadFull

    The buffer is kept as its unread part [b.buf[b.r:b.w]]; [fill] slides
    that part to the start of the buffer before it reads, so the room left
    is the capacity less the unread bytes.  The reader holds the address
    of the [HashingCountingReader], which therefore lives inside it. *)

Record bufioReader (Src : Type) : Type := mkBufio {
  rd : HashingCountingReader Src;
  bufcap : nat;          (* len(b.buf) *)
  pend : bytes;          (* b.buf[b.r:b.w] *)
  berr : option error    (* b.err *)
}.

Section Bufio.
Context {Src : Type} `{Reader Src}.

Definition Buffered (b : bufioReader Src) : Z := len (pend b).

Definition NewReaderSize (r : HashingCountingReader Src) (size : Z) : bufioReader Src :=
  {| rd := r; bufcap := Z.to_nat (if size <? 16 then 16 else size);
     pend := []; berr := None |}.

Definition set_pend (b : bufioReader Src) (p : bytes) : bufioReader Src :=
  {| rd := rd b; bufcap := bufcap b; pend := p; berr := berr b |}.

Definition set_berr (b : bufioReader Src) (e : option error) : bufioReader Src :=
  {| rd := rd b; bufcap := bufcap b; pend := pend b; berr := e |}.

(** The reading loop of [fill], [i] attempts left. *)
Fixpoint fill_loop (i : nat) (b : bufioReader Src) : bufioReader Src :=
  match i with
  | O => set_berr b (Some ErrNoProgress)
  | S i' =>
      let '(p_n, err, r') := HCR_Read (rd b) (bufcap b - length (pend b)) in
      let b' := {| rd := r'; bufcap := bufcap b; pend := pend b ++ p_n; berr := berr b |} in
      match err with
      | Some e => set_berr b' (Some e)
      | None => if 0 <? len p_n then b' else fill_loop i' b'
      end
  end.

Definition fill (b : bufioReader Src) : run (bufioReader Src) :=
  if (bufcap b <=? length (pend b))%nat then Panic   (* tried to fill full buffer *)
  else Done (fill_loop 100 b).

(** The loop of [ReadSlice]; [s] is the search start index. *)
Fixpoint ReadSlice_loop (fuel : nat) (b : bufioReader Src) (delim : byte) (s : nat)
  : run (bytes * option error * bufioReader Src) :=
  match fuel with
  | O => OutOfFuel
  | S fuel' =>
      let i := IndexByte (skipn s (pend b)) delim in
      if 0 <=? i then
        let i := i + Z.of_nat s in
        Done (slice_to (pend b) (i + 1), None, set_pend b (slice_from (pend b) (i + 1)))
      else
        match berr b with
        | Some e => Done (pend b, Some e, set_berr (set_pend b []) None)
        | None =>
            if Z.of_nat (bufcap b) <=? Buffered b then
              Done (pend b, Some ErrBufferFull, set_pend b [])
            else
              match fill b with
              | Done b' => ReadSlice_loop fuel' b' delim (length (pend b))
              | Panic => Panic
              | OutOfFuel => OutOfFuel
              end
        end
  end.

Definition ReadSlice (fuel : nat) (b : bufioReader Src) (delim : byte) :=
  ReadSlice_loop fuel b delim 0.

Definition is_ErrBufferFull (e : option error) : bool :=
  match e with Some ErrBufferFull => true | _ => false end.

Definition last_byte (s : bytes) : byte := last s zero_byte.

(** [ReadLine] answers the line, [isPrefix], the error. *)
Definition ReadLine (fuel : nat) (b : bufioReader Src)
  : run (bytes * bool * option error * bufioReader Src) :=
  match ReadSlice fuel b NL with
  | Done (line, err, b1) =>
      if is_ErrBufferFull err then
        if (0 <? len line) && Ascii.eqb (last_byte line) CR then
          (* the '\r' goes back into the buffer: b.r-- *)
          Done (removelast line, true, None, set_pend b1 [CR])
        else Done (line, true, None, b1)
      else if len line =? 0 then
        Done ([], false, err, b1)
      else
        let line' :=
          if Ascii.eqb (last_byte line) NL then
            let drop :=
              if (1 <? len line) && Ascii.eqb (last_byte (removelast line)) CR
              then 2 else 1 in
            slice_to line (len line - drop)
          else line in
        Done (line', false, None, b1)
  | Panic => Panic
  | OutOfFuel => OutOfFuel
  end.

(** The loop of [Discard]. *)
Fixpoint Discard_loop (fuel : nat) (b : bufioReader Src) (n remain : Z)
  : run (Z * option error * bufioReader Src) :=
  match fuel with
  | O => OutOfFuel
  | S fuel' =>
      match (if Buffered b =? 0 then fill b else Done b) with
      | Done b1 =>
          let skip := Buffered b1 in
          let skip := if skip >? remain then remain else skip in
          let b2 := set_pend b1 (slice_from (pend b1) skip) in
          let remain := int (remain - skip) in
          if remain =? 0 then Done (n, None, b2)
          else
            match berr b2 with
            | Some e => Done (int (n - remain), Some e, set_berr b2 None)
            | None => Discard_loop fuel' b2 n remain
            end
      | Panic => Panic
      | OutOfFuel => OutOfFuel
      end
  end.

Definition Discard (fuel : nat) (b : bufioReader Src) (n : Z)
  : run (Z * option error * bufioReader Src) :=
  if n <? 0 then Done (0, Some ErrNegativeCount, b)
  else if n =? 0 then Done (0, None, b)
  else Discard_loop fuel b n n.

(** [b.Read(p)] with [len(p) = L]. *)
Definition bufio_Read (b : bufioReader Src) (L : nat) : bytes * option error * bufioReader Src :=
  match L with
  | O =>
      if 0 <? Buffered b then ([], None, b)
      else ([], berr b, set_berr b None)
  | _ =>
      match pend b with
      | [] =>
          match berr b with
          | Some e => ([], Some e, set_berr b None)
          | None =>
              if (bufcap b <=? L)%nat then
                (* large read, empty buffer: read directly into p *)
                let '(p_n, err, r') := HCR_Read (rd b) L in
                (p_n, err, {| rd := r'; bufcap := bufcap b; pend := []; berr := None |})
              else
                (* one read into the buffer *)
                let '(p_n, err, r') := HCR_Read (rd b) (bufcap b) in
                match p_n with
                | [] => ([], err, {| rd := r'; bufcap := bufcap b; pend := []; berr := None |})
                | _ => (firstn L p_n, None,
                        {| rd := r'; bufcap := bufcap b; pend := skipn L p_n; berr := err |})
                end
          end
      | _ => (firstn L (pend b), None, set_pend b (skipn L (pend b)))
      end
  end.

Definition ReadAtLeast_result (min : nat) (got : bytes) (err : option error) : option error :=
  if (min <=? length got)%nat then None
  else
    match err with
    | Some EOF => if (0 <? length got)%nat then Some ErrUnexpectedEOF else err
    | _ => err
    end.

(** [io.ReadAtLeast(br, buf, min)] with [len(buf) = min]: the bytes read
    so far are [got]. *)
Fixpoint ReadAtLeast_loop (fuel : nat) (b : bufioReader Src) (min : nat) (got : bytes)
  : run (bytes * option error * bufioReader Src) :=
  if (length got <? min)%nat then
    match fuel with
    | O => OutOfFuel
    | S fuel' =>
        let '(p_n, err, b') := bufio_Read b (min - length got) in
        match err with
        | None => ReadAtLeast_loop fuel' b' min (got ++ p_n)
        | Some _ => Done (got ++ p_n, ReadAtLeast_result min (got ++ p_n) err, b')
        end
    end
  else Done (got, ReadAtLeast_result min got None, b).

(** [io.ReadFull(br, buf)] with [len(buf) = size]. *)
Definition ReadFull (fuel : nat) (b : bufioReader Src) (size : nat) :=
  ReadAtLeast_loop fuel b size [].

End Bufio.

(* ================================================================== *)
(** ** Author, Attachment, Message (smolmsg.go) *)

Record Author : Type := mkAuthor {
  address : bytes;
  name : bytes
}.

Record Attachment : Type := mkAttachment {
  file_name : bytes;     (* Attachment.name *)
  dataStart : Z;
  dataLen : Z
}.

Record Message : Type := mkMessage {
  id : bytes;            (* [24]byte *)
  time : Time;
  subject : bytes;
  from : Author;
  to : Author;
  body : bytes;
  files : list Attachment
}.

(** [&Message{}] *)
Definition freshMessage : Message :=
  {| id := repeat zero_byte 24; time := zeroTime; subject := [];
     from := mkAuthor [] []; to := mkAuthor [] []; body := []; files := [] |}.

Definition set_id (m : Message) (v : bytes) : Message :=
  {| id := v; time := time m; subject := subject m; from := from m; to := to m;
     body := body m; files := files m |}.
Definition set_time (m : Message) (v : Time) : Message :=
  {| id := id m; time := v; subject := subject m; from := from m; to := to m;
     body := body m; files := files m |}.
Definition set_subject (m : Message) (v : bytes) : Message :=
  {| id := id m; time := time m; subject := v; from := from m; to := to m;
     body := body m; files := files m |}.
Definition set_from (m : Message) (v : Author) : Message :=
  {| id := id m; time := time m; subject := subject m; from := v; to := to m;
     body := body m; files := files m |}.
Definition set_to (m : Message) (v : Author) : Message :=
  {| id := id m; time := time m; subject := subject m; from := from m; to := v;
     body := body m; files := files m |}.
Definition set_body (m : Message) (v : bytes) : Message :=
  {| id := id m; time := time m; subject := subject m; from := from m; to := to m;
     body := v; files := files m |}.
Definition set_files (m : Message) (v : list Attachment) : Message :=
  {| id := id m; time := time m; subject := subject m; from := from m; to := to m;
     body := body m; files := v |}.

Definition UpdateIdFromTime (m : Message) : Message * option error :=
  let ut := Unix (time m) in
  if ut <? idEpochBase then
    (m, Some (Errorf "invalid timestamp; %s is in the past" [ArgTime (time m)]))
  else
    let sec := uint32 (ut - idEpochBase) in
    (set_id m ([byte_of (Z.shiftr sec 24); byte_of (Z.shiftr sec 16);
                byte_of (Z.shiftr sec 8); byte_of sec] ++ skipn 4 (id m)),
     None).

Section Codec.
Context `{GoLib}.

Definition normalizeAndValidateAddress (address : bytes) : bytes * option error :=
  let address := NFC_String address in
  let address := strings_ToLower address in
  if IndexByte address "@"%char =? -1 then ([], Some (Errorf "invalid address" []))
  else (address, None).

(** [(a *Author).Parse(line)]: the author after the call, and the error. *)
Definition Author_Parse (a : Author) (line : bytes) : Author * option error :=
  let line := TrimSpace line in
  if len line =? 0 then (a, Some (Errorf "missing address" []))
  else
    let p := IndexByte line SP in
    let '(a, line) :=
      if negb (p =? -1)
      then (mkAuthor (address a) (TrimSpace (slice_from line p)), slice_to line p)
      else (a, line) in
    let '(addr, err) := normalizeAndValidateAddress line in
    (mkAuthor addr (name a), err).

Context {Src : Type} `{Reader Src}.

(** The variables of [ParseReader] that live across iterations; [br]
    holds [cr]. *)
Record pstate : Type := mkPstate {
  msg : Message;
  lineno : Z;
  fileno : Z;
  br : bufioReader Src
}.

Definition with_msg (st : pstate) (m : Message) : pstate :=
  {| msg := m; lineno := lineno st; fileno := fileno st; br := br st |}.
Definition with_br (st : pstate) (b : bufioReader Src) : pstate :=
  {| msg := msg st; lineno := lineno st; fileno := fileno st; br := b |}.

(** How one iteration of the loop ends: [continue] (or falling out of the
    switch), or [return err]. *)
Inductive flow : Type :=
| Continue (st : pstate)
| Return (st : pstate) (e : error).

Definition time_layout : string := "2006-01-02 15:04:05 -0700".
Definition time_layout_utc : string := "2006-01-02 15:04:05".

Definition field_subject (st : pstate) (line : bytes) (p : Z) : run flow :=
  Done (Continue (with_msg st (set_subject (msg st) (TrimSpace (slice_from line p))))).

Definition field_from (srcname : bytes) (st : pstate) (line : bytes) (p : Z) : run flow :=
  let '(a, err) := Author_Parse (from (msg st)) (slice_from line p) in
  let st := with_msg st (set_from (msg st) a) in
  match err with
  | Some e => Done (Return st (Errorf "%s:%d: %s (%q)"
                [ArgBytes srcname; ArgInt (lineno st); ArgErr e; ArgBytes line]))
  | None => Done (Continue st)
  end.

Definition field_to (srcname : bytes) (st : pstate) (line : bytes) (p : Z) : run flow :=
  let '(a, err) := Author_Parse (to (msg st)) (slice_from line p) in
  let st := with_msg st (set_to (msg st) a) in
  match err with
  | Some e => Done (Return st (Errorf "%s:%d: %s (%q)"
                [ArgBytes srcname; ArgInt (lineno st); ArgErr e; ArgBytes line]))
  | None => Done (Continue st)
  end.

Definition field_time (st : pstate) (line : bytes) (p : Z) : run flow :=
  let s := TrimSpace (slice_from line p) in
  match time_Parse time_layout s with
  | inl t => Done (Continue (with_msg st (set_time (msg st) t)))
  | inr _ =>
      match time_Parse time_layout_utc s with
      | inl t => Done (Continue (with_msg st (set_time (msg st) t)))
      | inr err =>
          Done (Return st (Errorf "invalid time format %q (expected %q) %v"
                  [ArgBytes s; ArgBytes (B time_layout); ArgErr err]))
      end
  end.

Definition field_body (fuel : nat) (srcname : bytes) (st : pstate) (line : bytes) (p : Z)
  : run flow :=
  let '(size, err) := ParseUint (TrimSpace (slice_from line p)) 64 in
  match err with
  | Some _ =>
      Done (Return st (Errorf "%s:%d: invalid integer size %q"
              [ArgBytes srcname; ArgInt (lineno st); ArgBytes (slice_from line p)]))
  | None =>
      if size >? MAX_BODY_SIZE then
        Done (Return st (Errorf "%s:%d: body too large (%d)"
                [ArgBytes srcname; ArgInt (lineno st); ArgInt size]))
      else
        (* m.body = make([]byte, size); n, err := io.ReadFull(br, m.body) *)
        match ReadFull fuel (br st) (Z.to_nat size) with
        | Done (got, err, b') =>
            let st := with_br st b' in
            match err with
            | Some e => Done (Return (with_msg st (set_body (msg st) [])) e)
            | None =>
                if negb (len got =? size) then
                  Done (Return (with_msg st (set_body (msg st) []))
                          (Errorf "%s:%d: invalid body size %d (beyond end of message file)"
                             [ArgBytes srcname; ArgInt (lineno st); ArgInt size]))
                else Done (Continue (with_msg st (set_body (msg st) got)))
            end
        | Panic => Panic
        | OutOfFuel => OutOfFuel
        end
  end.

Definition field_file (fuel : nat) (srcname : bytes) (st : pstate) (line : bytes) (p : Z)
  : run flow :=
  let st := {| msg := msg st; lineno := lineno st; fileno := int (fileno st + 1); br := br st |} in
  let line := TrimSpace (slice_from line p) in
  let p' := IndexByte line SP in
  let '(fname, line) :=
    if negb (p' =? -1) then (TrimSpace (slice_from line p'), slice_to line p')
    else ([], line) in
  let '(size64, err) := ParseUint line 64 in
  match err with
  | Some _ =>
      (* the argument line[p:] uses the p of the key *)
      match slice_from_checked line p with
      | Done tail =>
          Done (Return st (Errorf "%s:%d: invalid integer size %q"
                  [ArgBytes srcname; ArgInt (lineno st); ArgBytes tail]))
      | Panic => Panic
      | OutOfFuel => OutOfFuel
      end
  | None =>
      let size := int size64 in
      let start := int (nread (rd (br st)) - Buffered (br st)) in
      match Discard fuel (br st) size with
      | Done (discarded, err, b') =>
          let st := with_br st b' in
          if discarded <? size then
            Done (Return st
                    (Errorf "%s:%d: file %d %q: invalid size %d (beyond end of message file)"
                       [ArgBytes srcname; ArgInt (lineno st); ArgInt (fileno st);
                        ArgBytes fname; ArgInt size]))
          else
            match err with
            | Some e => Done (Return st e)
            | None =>
                let file := {| file_name := fname; dataStart := start; dataLen := size |} in
                Done (Continue (with_msg st (set_files (msg st) (files (msg st) ++ [file]))))
            end
      | Panic => Panic
      | OutOfFuel => OutOfFuel
      end
  end.

(** The body of the loop of [ParseReader] after a line has been read. *)
Definition parse_field (fuel : nat) (srcname : bytes) (st : pstate) (line : bytes) : run flow :=
  let p := IndexByte line SP in
  if p =? 0 then
    Done (Return st (Errorf "%s:%d: invalid leading space" [ArgBytes srcname; ArgInt (lineno st)]))
  else if (p =? -1) && (len line =? 0) then Done (Continue st)
  else
    let p := if p =? -1 then len line else p in
    let key := slice_to line p in
    match map_lookup fieldtab key with
    | None =>
        if HasPrefix key (B "x-") then Done (Continue st)
        else Done (Return st (Errorf "%s:%d: unknown field %q"
                     [ArgBytes srcname; ArgInt (lineno st); ArgBytes key]))
    | Some field =>
        if field =? FIELD_SUBJECT then field_subject st line p
        else if field =? FIELD_FROM then field_from srcname st line p
        else if field =? FIELD_TO then field_to srcname st line p
        else if field =? FIELD_TIME then field_time st line p
        else if field =? FIELD_BODY then field_body fuel srcname st line p
        else if field =? FIELD_FILE then field_file fuel srcname st line p
        else Done (Continue st)
    end.

(** The loop of [ParseReader]: the state when it ends, and the error it
    returns with, if any.  [inner_fuel] bounds the loops of the reads. *)
Fixpoint parse_loop (inner_fuel fuel : nat) (srcname : bytes) (st : pstate)
  : run (pstate * option error) :=
  match fuel with
  | O => OutOfFuel
  | S fuel' =>
      let st := {| msg := msg st; lineno := int (lineno st + 1);
                   fileno := fileno st; br := br st |} in
      match ReadLine inner_fuel (br st) with
      | Done (line, tooLargeForBuffer, err, b') =>
          let st := with_br st b' in
          match err with
          | Some e => if is_EOF e then Done (st, None) else Done (st, Some e)
          | None =>
              if tooLargeForBuffer then
                Done (st, Some (Errorf "%s:%d: field too long"
                                  [ArgBytes srcname; ArgInt (lineno st)]))
              else
                match parse_field inner_fuel srcname st line with
                | Done (Continue st') => parse_loop inner_fuel fuel' srcname st'
                | Done (Return st' e) => Done (st', Some e)
                | Panic => Panic
                | OutOfFuel => OutOfFuel
                end
          end
      | Panic => Panic
      | OutOfFuel => OutOfFuel
      end
  end.

(** What [ParseReader] leaves behind: the message, the error, and the
    hashing reader [cr]. *)
Record parsed : Type := mkParsed {
  p_msg : Message;
  p_err : option error;
  p_cr : HashingCountingReader Src
}.

Definition start_state (m : Message) (r : Src) (bufsize : Z) : pstate :=
  let cr := MakeSHA256HashingCountingReader r in
  {| msg := m; lineno := 0; fileno := 0; br := NewReaderSize cr bufsize |}.

Definition finish (st : pstate) : parsed :=
  let cr := rd (br st) in
  let buf := SHA256.Sum (hash cr) in
  let m := set_id (msg st) (firstn 4 (id (msg st)) ++ firstn 20 buf) in
  let '(m, err) := UpdateIdFromTime m in
  {| p_msg := m; p_err := err; p_cr := cr |}.

Definition ParseReader (fuel : nat) (m : Message) (r : Src) (srcsize : Z) (srcname : bytes)
  : run parsed :=
  let bufsize := bufsize_of srcsize in
  match parse_loop fuel fuel srcname (start_state m r bufsize) with
  | Done (st, Some e) => Done {| p_msg := msg st; p_err := Some e; p_cr := rd (br st) |}
  | Done (st, None) => Done (finish st)
  | Panic => Panic
  | OutOfFuel => OutOfFuel
  end.

End Codec.

(* ================================================================== *)
(** ** Byte sources *)

(** A source that answers from a script: each entry is the bytes and the
    error of one [Read]; an entry longer than the caller's slice is handed
    out in pieces, its error with the last piece.  After the script the
    source answers [0, io.EOF]. *)
Definition script : Type := list (bytes * option error).

Definition script_Read (s : script) (L : nat) : bytes * option error * script :=
  match s with
  | [] => ([], Some EOF, [])
  | (d, e) :: s' =>
      if (length d <=? L)%nat then (d, e, s')
      else (firstn L d, None, (skipn L d, e) :: s')
  end.

Lemma script_Read_bound (s : script) (L : nat) :
  (length (fst (fst (script_Read s L))) <= L)%nat.
Proof.
  destruct s as [|[d e] s']; simpl; [lia|].
  destruct (Nat.leb_spec (length d) L); simpl; [lia|].
  rewrite length_firstn. lia.
Qed.

#[export] Instance script_Reader : Reader script :=
  {| Read := script_Read; Read_bound := script_Read_bound |}.

(** A source that behaves as a regular file does: every [Read] answers as
    many of the remaining bytes as fit, and [0, io.EOF] at the end. *)
Record file : Type := File { remaining : bytes }.

Definition file_Read (f : file) (L : nat) : bytes * option error * file :=
  match remaining f with
  | [] => ([], Some EOF, f)
  | _ => (firstn L (remaining f), None, File (skipn L (remaining f)))
  end.

Lemma file_Read_bound (f : file) (L : nat) :
  (length (fst (fst (file_Read f L))) <= L)%nat.
Proof.
  unfold file_Read. destruct (remaining f); simpl; [lia|].
  destruct L; simpl; [lia|]. rewrite length_firstn. lia.
Qed.

#[export] Instance file_Reader : Reader file :=
  {| Read := file_Read; Read_bound := file_Read_bound |}.

(** A source that hands out one byte per [Read] (testing/iotest's
    OneByteReader over a file). *)
Record onebyte : Type := OneByte { ob_remaining : bytes }.

Definition onebyte_Read (f : onebyte) (L : nat) : bytes * option error * onebyte :=
  match L, ob_remaining f with
  | O, _ => ([], None, f)
  | _, [] => ([], Some EOF, f)
  | _, c :: rest => ([c], None, OneByte rest)
  end.

Lemma onebyte_Read_bound (f : onebyte) (L : nat) :
  (length (fst (fst (onebyte_Read f L))) <= L)%nat.
Proof.
  unfold onebyte_Read. destruct L, (ob_remaining f); simpl; lia.
Qed.

#[export] Instance onebyte_Reader : Reader onebyte :=
  {| Read := onebyte_Read; Read_bound := onebyte_Read_bound |}.

(** The library on ASCII text: there normalisation changes nothing, case
    mapping touches the letters A to Z only, and [bytes.TrimSpace] never
    reaches its slow path.  It stands in for the Go libraries where a
    theorem is run on an ASCII input without a time header. *)
Definition ascii_lower (c : byte) : byte :=
  if (65 <=? byte_val c) && (byte_val c <=? 90) then byte_of (byte_val c + 32) else c.

Definition asciiLib : GoLib :=
  {| NFC_String := fun s => s;
     strings_ToLower := map ascii_lower;
     time_Parse := fun _ _ => inr (ErrOther "time.Parse");
     TrimFunc_IsSpace := fun s => s |}.

(** Lines of text joined into a stream, each ended by a line feed. *)
Fixpoint lines (ls : list string) : bytes :=
  match ls with
  | [] => []
  | l :: ls' => B l ++ NL :: lines ls'
  end.

(** [countByte] of util.go. *)
Fixpoint countByte (data : bytes) (subject : byte) : Z :=
  match data with
  | [] => 0
  | b :: data' =>
      if Ascii.eqb b subject then countByte data' subject + 1
      else countByte data' subject
  end.

(** A message file parsed the way [ParseFile] does it: read as a regular
    file is, with the file size as the size hint and the time taken from the
    file name beforehand; the library is the ASCII one. *)
Definition parse_text (text : list string) : run (@parsed file) :=
  @ParseReader asciiLib file _ 200 (set_time freshMessage (mkTime 1659982143))
    (File (lines text)) (len (lines text)) (B "a.msg").

(** The keywords of the six sections. *)
Definition keywords : list bytes :=
  [B "subject"; B "from"; B "to"; B "time"; B "body"; B "file"].

(* ================================================================== *)
(** ** Sources that keep bytes and errors apart

    [delivers rest fin]: in state [s] the source still has the bytes
    [rest s] to give; a [Read] into a slice that is not empty answers some
    of them, at least one, without an error, and once they are used up it
    answers no bytes and the error [fin] ([io.EOF] for a file), every
    time. *)

Definition delivers {Src : Type} `{Reader Src} (rest : Src -> bytes) (fin : error) : Prop :=
  forall s L, (0 < L)%nat ->
    match rest s with
    | [] => exists s', Read s L = ([], Some fin, s') /\ rest s' = []
    | _ :: _ => exists d s', Read s L = (d, None, s') /\ d <> [] /\ rest s = d ++ rest s'
    end.

(** The bytes a buffered reader has yet to hand out. *)
Definition stream {Src : Type} (rest : Src -> bytes) (b : bufioReader Src) : bytes :=
  pend b ++ rest (inner (rd b)).

(** The offset in the stream of the next byte the parser will be given:
    [cr.nread - br.Buffered()]. *)
Definition position {Src : Type} `{Reader Src} (b : bufioReader Src) : Z :=
  int (nread (rd b) - Buffered b).

(** Strictly increasing offsets. *)
Fixpoint increasing (l : list Z) : Prop :=
  match l with
  | [] => True
  | x :: l' => match l' with [] => True | y :: _ => x < y end /\ increasing l'
  end.

(** What [ReadSlice('\n')], [Discard(n)] and [io.ReadFull] with a slice of
    [size] bytes answer when the bytes to come are [R], the buffer holds
    [cap] bytes and the source ends with the error [fin]: the result, and
    the bytes to come afterwards. *)
Definition read_slice_spec (fin : error) (cap : nat) (R : bytes)
  : bytes * option error * bytes :=
  let i := IndexByte (firstn cap R) NL in
  if 0 <=? i then (slice_to R (i + 1), None, slice_from R (i + 1))
  else if (cap <=? length R)%nat then (firstn cap R, Some ErrBufferFull, skipn cap R)
  else (R, Some fin, []).

Definition discard_spec (fin : error) (n : Z) (R : bytes) : Z * option error * bytes :=
  if n <? 0 then (0, Some ErrNegativeCount, R)
  else if n <=? len R then (n, None, slice_from R n)
  else (len R, Some fin, []).

Definition read_full_spec (fin : error) (size : nat) (R : bytes)
  : bytes * option error * bytes :=
  if (size <=? length R)%nat then (firstn size R, None, skipn size R)
  else (R, ReadAtLeast_result size R (Some fin), []).

Definition read_line_spec (fin : error) (cap : nat) (R : bytes)
  : bytes * bool * option error * bytes :=
  let '(line, err, R') := read_slice_spec fin cap R in
  if is_ErrBufferFull err then
    if (0 <? len line) && Ascii.eqb (last_byte line) CR
    then (removelast line, true, None, CR :: R')
    else (line, true, None, R')
  else if len line =? 0 then ([], false, err, R')
  else
    let line' :=
      if Ascii.eqb (last_byte line) NL then
        let drop :=
          if (1 <? len line) && Ascii.eqb (last_byte (removelast line)) CR
          then 2 else 1 in
        slice_to line (len line - drop)
      else line in
    (line', false, None, R').

(** Attachment descriptors in order: offsets strictly increasing, every
    payload inside the first [p] bytes of the stream. *)
Definition files_ok (fs : list Attachment) (p : Z) : Prop :=
  increasing (map dataStart fs)
  /\ Forall (fun f => 0 <= dataStart f /\ 0 <= dataLen f /\ dataStart f + dataLen f <= p) fs.

(* ================================================================== *)
(** ** Notions used in the proofs *)

(** The words of a quotient or dividend of [EncodeId], read as one number
    in base 2^32; a word in range; a quotient without a leading zero
    word. *)
Definition words_val (acc : Z) (ws : list Z) : Z :=
  fold_left (fun a c => a * 4294967296 + c) ws acc.

Definition word_ok (c : Z) : Prop := 0 <= c < 4294967296.

Definition canon (q : list Z) : Prop :=
  match q with [] => True | h :: _ => h <> 0 end.

Definition id_parts (id : bytes) : list Z :=
  [id_word id 0; id_word id 4; id_word id 8; id_word id 12; id_word id 16; id_word id 20].

(** The value of a base-62 numeral. *)
Definition decode62 (ds : bytes) : Z :=
  fold_left (fun acc c => acc * 62 + IndexByte base62Characters c) ds 0.

Section Invariant.
Context {Src : Type}.
Variable rest : Src -> bytes.
Variable all : bytes.

(** What holds of the buffered reader between any two steps of the parser
    when the source keeps bytes and errors apart and gives the stream
    [all]: the digest has seen exactly the bytes the source gave, those and
    the bytes to come make up [all], and the counter is the number of
    bytes given. *)
Record Inv0 (b : bufioReader Src) : Prop := {
  inv_cap : (0 < bufcap b)%nat;
  inv_pend : (length (pend b) <= bufcap b)%nat;
  inv_hash : hash (rd b) ++ rest (inner (rd b)) = all;
  inv_nread : nread (rd b) = len (hash (rd b));
  inv_all : len all < 2 ^ 63;
  inv_suffix : (length (pend b) <= length (hash (rd b)))%nat
}.

Definition Inv (b : bufioReader Src) : Prop := Inv0 b /\ berr b = None.

End Invariant.

Section Relations.
Context {Src1 Src2 : Type}.
Variable rest1 : Src1 -> bytes.
Variable rest2 : Src2 -> bytes.
Variable all : bytes.

(** Two parses of the stream [all] at the same point: the same message so
    far, the same line and file counts, the same bytes to come. *)
Definition Sim (st1 : @pstate Src1) (st2 : @pstate Src2) : Prop :=
  msg st1 = msg st2 /\ lineno st1 = lineno st2 /\ fileno st1 = fileno st2
  /\ Inv rest1 all (br st1) /\ Inv rest2 all (br st2)
  /\ stream rest1 (br st1) = stream rest2 (br st2)
  /\ bufcap (br st1) = bufcap (br st2).

(** The offset in [all] of the next byte of a parse. *)
Definition pos (st1 : @pstate Src1) : Z := len all - len (stream rest1 (br st1)).

Definition flow_sim (st1 : @pstate Src1)
  (r1 : run (@flow Src1)) (r2 : run (@flow Src2)) : Prop :=
  match r1, r2 with
  | Done (Continue a), Done (Continue b) =>
      Sim a b /\ files_ok (files (msg a)) (pos a)
      /\ (length (stream rest1 (br a)) <= length (stream rest1 (br st1)))%nat
  | Done (Return a e1), Done (Return b e2) => e1 = e2 /\ msg a = msg b
  | Panic, Panic => True
  | _, _ => False
  end.

Definition loop_sim (r1 : run (@pstate Src1 * option error))
  (r2 : run (@pstate Src2 * option error)) : Prop :=
  match r1, r2 with
  | Done (a, e1), Done (b, e2) =>
      e1 = e2 /\ msg a = msg b
      /\ (e1 = None ->
          hash (rd (br a)) = all /\ hash (rd (br b)) = all
          /\ nread (rd (br a)) = len all /\ nread (rd (br b)) = len all
          /\ files_ok (files (msg a)) (len all))
  | Panic, Panic => True
  | _, _ => False
  end.

(** Two results of [ParseReader] that agree: the same message and the same
    error, or a panic in both; and after a parse without error the counter
    stands at the length of the stream, the digest has seen all of it, and
    the attachment descriptors are in order and inside it. *)
Definition parsed_sim (r1 : run (@parsed Src1)) (r2 : run (@parsed Src2)) : Prop :=
  match r1, r2 with
  | Done p1, Done p2 =>
      p_msg p1 = p_msg p2 /\ p_err p1 = p_err p2
      /\ (p_err p1 = None ->
          nread (p_cr p1) = len all /\ hash (p_cr p1) = all
          /\ files_ok (files (p_msg p1)) (len all))
  | Panic, Panic => True
  | _, _ => False
  end.

End Relations.

(* ================================================================== *)
(** ** More of smolmsg.go: names, times from identifiers and file names *)

(** [(a Author).ShortString()] *)
Definition ShortString (a : Author) : bytes :=
  match name a with
  | [] => address a
  | _ => name a
  end.

(** [(m *Message).SetTimeFromId()] *)
Definition SetTimeFromId (m : Message) : Message := set_time m (IdTime (id m)).

Definition PathSeparator : byte := "/"%char.

(** [strings.LastIndexByte]: the index of the last [c], or -1. *)
Fixpoint LastIndexByte (s : bytes) (c : byte) : Z :=
  match s with
  | [] => -1
  | x :: s' =>
      let i := LastIndexByte s' c in
      if negb (i =? -1) then i + 1
      else if Ascii.eqb x c then 0 else -1
  end.

(** The first loop of [filepath.Base]: trailing separators go, one per
    iteration; there are at most [len(path)] iterations. *)
Fixpoint strip_separators (n : nat) (path : bytes) : bytes :=
  match n with
  | O => path
  | S n' =>
      if (0 <? len path) && Ascii.eqb (last path zero_byte) PathSeparator
      then strip_separators n' (removelast path)
      else path
  end.

(** [filepath.Base] on Unix, where the volume name is empty.  Its second
    loop walks [i] down from the end to the last separator. *)
Definition Base (path : bytes) : bytes :=
  match path with
  | [] => B "."
  | _ =>
      let path := strip_separators (length path) path in
      let i := LastIndexByte path PathSeparator in
      let path := if 0 <=? i then slice_from path (i + 1) else path in
      match path with
      | [] => [PathSeparator]
      | _ => path
      end
  end.

Definition filename_layout : string := "20060102-150405".

(** [(m *Message).SetTimeFromFilename(file)]: the message after the call,
    and the error. *)
Definition SetTimeFromFilename `{GoLib} (m : Message) (file : bytes) : Message * option error :=
  let file := Base file in
  let p := IndexByte file "."%char in
  if p =? -1 then (m, Some (Errorf "invalid message filename %q" [ArgBytes file]))
  else
    let file := slice_to file p in
    match time_Parse filename_layout file with
    | inl t => (set_time m t, None)
    | inr _ => (m, Some (Errorf "invalid message filename %q" [ArgBytes file]))
    end.

(* ================================================================== *)
(** ** More of util.go, and limitStrLen of cmd-list.go *)

Definition plural (n : Z) (one other : bytes) : bytes :=
  if n =? 1 then one else other.

Definition imin (a b : Z) : Z := if a <? b then a else b.
Definition imax (a b : Z) : Z := if a >? b then a else b.

(** [relPath(dir, path)].  The byte [path[len(dir)]] is looked at only
    when [len(path) > len(dir)]. *)
Definition relPath (dir path : bytes) : bytes :=
  if (len path >? len dir)
     && Ascii.eqb (nth (length dir) path zero_byte) PathSeparator
     && HasPrefix path dir
  then slice_from path (len dir + 1)
  else if bytes_eqb path dir then B "."
  else path.

Definition isDotFilename (filename : bytes) : bool :=
  let i := LastIndexByte filename "/"%char + 1 in
  if i >=? len filename then false
  else Ascii.eqb (nth (Z.to_nat i) filename zero_byte) "."%char.

(** [s[:i]] where the index may be out of range. *)
Definition slice_to_checked (s : bytes) (i : Z) : run bytes :=
  if (0 <=? i) && (i <=? len s) then Done (slice_to s i) else Panic.

(** The three bytes of the horizontal ellipsis U+2026 in UTF-8. *)
Definition ellipsis : bytes := [ascii_of_N 226; ascii_of_N 128; ascii_of_N 166].

(** [limitStrLen(s, maxlen)] of cmd-list.go. *)
Definition limitStrLen (s : bytes) (maxlen : Z) : run bytes :=
  if len s >? maxlen then
    match slice_to_checked s (maxlen - 1) with
    | Done head => Done (head ++ ellipsis)
    | Panic => Panic
    | OutOfFuel => OutOfFuel
    end
  else Done s.

(* ================================================================== *)
(** ** One more byte source *)

(** A file on a device that fails: every [Read] answers as many of the
    remaining bytes as fit, and at the end of them an input/output error
    where a sound file answers [io.EOF]. *)
Record failing : Type := Failing { f_remaining : bytes }.

Definition EIO : error := ErrOther "input/output error".

Definition failing_Read (f : failing) (L : nat) : bytes * option error * failing :=
  match f_remaining f with
  | [] => ([], Some EIO, f)
  | _ => (firstn L (f_remaining f), None, Failing (skipn L (f_remaining f)))
  end.

Lemma failing_Read_bound (f : failing) (L : nat) :
  (length (fst (fst (failing_Read f L))) <= L)%nat.
Proof.
  unfold failing_Read. destruct (f_remaining f); simpl; [lia|].
  destruct L; simpl; [lia|]. rewrite length_firstn. lia.
Qed.

#[export] Instance failing_Reader : Reader failing :=
  {| Read := failing_Read; Read_bound := failing_Read_bound |}.

(** The buffer size [ParseReader] ends up with for a size hint:
    [bufio.NewReaderSize] raises a size below 16 to 16. *)
Definition buffer_size (srcsize : Z) : nat :=
  Z.to_nat (if bufsize_of srcsize <? 16 then 16 else bufsize_of srcsize).

(* ================================================================== *)
(** ** Decimal numerals *)

(** A decimal digit, and the value of a text of digits.  These are not
    of the source: they say what a size text is and what it stands for, to
    state what [strconv.ParseUint] accepts (lemma [ParseUint_decimal]). *)
Definition is_digit (c : byte) : bool := (48 <=? byte_val c) && (byte_val c <=? 57).

Definition decimal (s : bytes) : Z :=
  fold_left (fun acc c => acc * 10 + (byte_val c - 48)) s 0.

(* ================================================================== *)
(** ** The library on two file names

    [time.Parse] with the layout of [SetTimeFromFilename] accepts the text
    [20220808-110903] as August 8, 2022, 11:09:03 UTC, which is second
    1659956943 of the Unix epoch, and rejects the text [notes].  This
    instance holds what the library answers on these two texts, and is
    used on no other. *)
Definition filenameLib : GoLib :=
  {| NFC_String := fun s => s;
     strings_ToLower := map ascii_lower;
     time_Parse := fun layout s =>
       if String.eqb layout filename_layout && bytes_eqb s (B "20220808-110903")
       then inl (mkTime 1659956943)
       else inr (ErrOther "time.Parse");
     TrimFunc_IsSpace := fun s => s |}.

(* ================================================================== *)
(** ** Notions used in the further proofs *)

(** A printable ASCII byte other than the space. *)
Definition graphic (c : byte) : bool := (33 <=? byte_val c) && (byte_val c <=? 126).

(** The state a step of the loop of [ParseReader] leaves. *)
Definition flow_state {Src : Type} (fl : @flow Src) : pstate :=
  match fl with Continue st => st | Return st _ => st end.

(** What the parser keeps from one state to a later one, for a property
    [P] of the hashing reader: the property, the identifier, and the
    attachments read so far, to which it only adds. *)
Definition keeps {Src : Type} (P : HashingCountingReader Src -> Prop)
  (st st' : @pstate Src) : Prop :=
  P (rd (br st')) /\ id (msg st') = id (msg st)
  /\ exists fs, files (msg st') = files (msg st) ++ fs.

(* ================================================================== *)
(** * Proofs *)

(** ** Arithmetic of the identifier codec *)

Lemma byte_val_range (b : ascii) : 0 <= byte_val b < 256.
Proof.
  unfold byte_val. pose proof (N_ascii_bounded b). lia.
Qed.

Lemma land_shiftl_low (hi lo k : Z) :
  0 <= k -> 0 <= lo < 2 ^ k -> Z.land (Z.shiftl hi k) lo = 0.
Proof.
  intros Hk Hlo. apply Z.bits_inj'. intros n Hn.
  rewrite Z.land_spec, Z.bits_0.
  destruct (Z.ltb_spec n k).
  - rewrite Z.shiftl_spec_low by lia. reflexivity.
  - destruct (Z.eq_dec lo 0) as [->|Hz].
    + rewrite Z.bits_0. apply andb_false_r.
    + rewrite (Z.bits_above_log2 lo n); [apply andb_false_r | lia |].
      apply Z.log2_lt_pow2; try lia.
      apply Z.lt_le_trans with (2 ^ k); [lia|].
      apply Z.pow_le_mono_r; lia.
Qed.

Lemma lor_mul_low (hi lo k : Z) :
  0 <= k -> 0 <= lo < 2 ^ k -> Z.lor (hi * 2 ^ k) lo = hi * 2 ^ k + lo.
Proof.
  intros Hk Hlo.
  pose proof (Z.add_lor_land (Z.shiftl hi k) lo) as H.
  rewrite land_shiftl_low in H by assumption.
  rewrite Z.shiftl_mul_pow2 in * by assumption. lia.
Qed.

Lemma id_word_sum (id : list ascii) (i : nat) :
  id_word id i =
  id_byte id i * 16777216 + id_byte id (i + 1) * 65536
  + id_byte id (i + 2) * 256 + id_byte id (i + 3).
Proof.
  unfold id_word, id_byte.
  pose proof (byte_val_range (nth i id zero_byte)) as H0.
  pose proof (byte_val_range (nth (i + 1) id zero_byte)) as H1.
  pose proof (byte_val_range (nth (i + 2) id zero_byte)) as H2.
  pose proof (byte_val_range (nth (i + 3) id zero_byte)) as H3.
  set (a := byte_val (nth i id zero_byte)) in *.
  set (b := byte_val (nth (i + 1) id zero_byte)) in *.
  set (c := byte_val (nth (i + 2) id zero_byte)) in *.
  set (d := byte_val (nth (i + 3) id zero_byte)) in *.
  unfold uint32.
  rewrite !Z.shiftl_mul_pow2 by lia.
  rewrite (Z.mod_small (a * 2 ^ 24)) by lia.
  rewrite (Z.mod_small (b * 2 ^ 16)) by lia.
  rewrite (Z.mod_small (c * 2 ^ 8)) by lia.
  rewrite (@lor_mul_low a (b * 2 ^ 16) 24) by lia.
  replace (a * 2 ^ 24 + b * 2 ^ 16) with ((a * 256 + b) * 2 ^ 16) by lia.
  rewrite (@lor_mul_low (a * 256 + b) (c * 2 ^ 8) 16) by lia.
  replace ((a * 256 + b) * 2 ^ 16 + c * 2 ^ 8) with ((a * 65536 + b * 256 + c) * 2 ^ 8) by lia.
  rewrite lor_mul_low by lia. lia.
Qed.

Lemma words_val_app acc ws c :
  words_val acc (ws ++ [c]) = words_val acc ws * 4294967296 + c.
Proof. unfold words_val. rewrite fold_left_app. reflexivity. Qed.

Lemma words_val_mono acc ws :
  0 <= acc -> Forall word_ok ws -> acc <= words_val acc ws.
Proof.
  revert acc. induction ws as [|c ws IH]; intros acc Hacc Hws.
  - unfold words_val; simpl; lia.
  - inversion Hws as [|? ? Hc Hws']; subst. unfold word_ok in Hc.
    specialize (IH (acc * 4294967296 + c) ltac:(lia) Hws').
    change (words_val acc (c :: ws)) with (words_val (acc * 4294967296 + c) ws).
    lia.
Qed.

Lemma canon_val_pos q :
  canon q -> Forall word_ok q -> q <> [] -> 0 < words_val 0 q.
Proof.
  destruct q as [|h t]; [congruence|]. simpl. intros Hh Hq _.
  inversion Hq as [|? ? Hc Ht]; subst. unfold word_ok in Hc.
  pose proof (@words_val_mono h t ltac:(lia) Ht) as Hm.
  change (words_val 0 (h :: t)) with (words_val (0 * 4294967296 + h) t).
  replace (0 * 4294967296 + h) with h by lia. lia.
Qed.

Lemma divide_words_spec bp : forall q r,
  Forall word_ok bp -> Forall word_ok q -> canon q -> 0 <= r < 62 ->
  let '(q', r') := divide_words bp q r in
  words_val 0 q' * 62 + r' = words_val (words_val 0 q * 62 + r) bp
  /\ Forall word_ok q' /\ canon q' /\ 0 <= r' < 62.
Proof.
  induction bp as [|c bp IH]; intros q r Hbp Hq Hcan Hr.
  - simpl. auto.
  - inversion Hbp as [|? ? Hc Hbp']; subst. unfold word_ok in Hc.
    cbn [divide_words]. unfold srcBase, dstBase, uint64.
    change (2 ^ 64) with 18446744073709551616.
    rewrite (Z.mod_small r) by lia.
    rewrite (Z.mod_small c) by lia.
    rewrite (Z.mod_small (r * 4294967296)) by lia.
    rewrite (Z.mod_small (c + r * 4294967296)) by lia.
    set (value := c + r * 4294967296).
    assert (Hv : 0 <= value < 62 * 4294967296) by (unfold value; lia).
    assert (Hd : 0 <= value / 62 < 4294967296).
    { split; [apply Z.div_pos; lia | apply Z.div_lt_upper_bound; lia]. }
    assert (Hm : 0 <= value mod 62 < 62) by (apply Z.mod_pos_bound; lia).
    pose proof (Z.div_mod value 62 ltac:(lia)) as Hdm.
    unfold uint32. change (2 ^ 32) with 4294967296.
    rewrite (Z.mod_small (value / 62)) by lia.
    destruct (negb (length q =? 0)%nat || negb (value / 62 =? 0)) eqn:Hbr.
    + specialize (IH (q ++ [value / 62]) (value mod 62) Hbp').
      destruct (divide_words bp (q ++ [value / 62]) (value mod 62)) as [q' r'].
      rewrite words_val_app in IH.
      replace ((words_val 0 q * 4294967296 + value / 62) * 62 + value mod 62)
        with ((words_val 0 q * 62 + r) * 4294967296 + c) in IH by (unfold value in *; lia).
      apply IH; auto.
      * apply Forall_app; split; auto.
      * destruct q as [|h t]; simpl in *; auto.
        destruct (Z.eqb_spec (value / 62) 0); simpl in Hbr; congruence.
    + apply orb_false_elim in Hbr. destruct Hbr as [Hq0 Hd0].
      apply negb_false_iff in Hq0, Hd0.
      apply Nat.eqb_eq in Hq0. apply Z.eqb_eq in Hd0.
      destruct q; [|discriminate].
      specialize (IH [] (value mod 62) Hbp' Hq Hcan Hm).
      destruct (divide_words bp [] (value mod 62)) as [q' r'].
      simpl in IH |- *.
      replace (r * 4294967296 + c) with (value mod 62)
        by (unfold value in *; lia).
      exact IH.
Qed.

Lemma set_index_spec (s : list ascii) : forall i c,
  (i < length s)%nat ->
  set_index s i c = Done (firstn i s ++ c :: skipn (S i) s).
Proof.
  induction s as [|x s IH]; intros i c Hi; simpl in Hi; [lia|].
  destruct i as [|i]; [reflexivity|].
  cbn [set_index]. rewrite IH by lia. reflexivity.
Qed.

Lemma base62_rev_length k : forall v, (length (base62_rev k v) <= k)%nat.
Proof.
  induction k as [|k IH]; intros v; simpl; [lia|].
  destruct (v / 62 =? 0); simpl; [lia|]. specialize (IH (v / 62)). lia.
Qed.

Lemma base62_rev_nonempty k v : (1 <= length (base62_rev (S k) v))%nat.
Proof. simpl. lia. Qed.

Lemma encode_loop_nil n dst : encode_loop n [] dst = Done (n, dst).
Proof. destruct n; reflexivity. Qed.

Lemma encode_loop_spec k : forall bp n dst,
  bp <> [] -> Forall word_ok bp ->
  words_val 0 bp < 62 ^ Z.of_nat (S k) ->
  (S k <= n <= length dst)%nat ->
  let digs := base62_rev (S k) (words_val 0 bp) in
  encode_loop n bp dst =
  Done ((n - length digs)%nat,
        firstn (n - length digs) dst ++ rev digs ++ skipn n dst).
Proof.
  induction k as [|k IH]; intros bp n dst Hne Hbp Hlt Hn digs.
  - destruct bp as [|c bp]; [congruence|].
    destruct n as [|n]; [lia|].
    cbn [encode_loop].
    pose proof (@divide_words_spec (c :: bp) [] 0 Hbp (Forall_nil _) I ltac:(lia)) as Hdiv.
    destruct (divide_words (c :: bp) [] 0) as [q r].
    destruct Hdiv as (Hval & Hq & Hcan & Hr).
    change (words_val (words_val 0 [] * 62 + 0) (c :: bp)) with (words_val 0 (c :: bp)) in Hval.
    set (v := words_val 0 (c :: bp)) in *.
    assert (Hv0 : 0 <= v) by (apply (@words_val_mono 0 (c :: bp)); [lia|assumption]).
    change (62 ^ Z.of_nat 1) with 62 in Hlt.
    assert (Hq0 : words_val 0 q = 0).
    { destruct q as [|h t]; [reflexivity|].
      pose proof (@canon_val_pos (h :: t) Hcan Hq ltac:(congruence)). lia. }
    assert (q = []).
    { destruct q as [|h t]; [reflexivity|].
      pose proof (@canon_val_pos (h :: t) Hcan Hq ltac:(congruence)). lia. }
    subst q. assert (r = v) by (change (words_val 0 []) with 0 in Hval; lia). subst r.
    rewrite set_index_spec by lia. cbn [encode_loop].
    subst digs. cbn [base62_rev].
    rewrite (Z.mod_small v 62) by lia. rewrite (Z.div_small v 62) by lia.
    cbn [Z.eqb length rev app]. rewrite encode_loop_nil.
    replace (S n - 1)%nat with n by lia. reflexivity.
  - destruct bp as [|c bp]; [congruence|].
    destruct n as [|n]; [lia|].
    cbn [encode_loop].
    pose proof (@divide_words_spec (c :: bp) [] 0 Hbp (Forall_nil _) I ltac:(lia)) as Hdiv.
    destruct (divide_words (c :: bp) [] 0) as [q r].
    destruct Hdiv as (Hval & Hq & Hcan & Hr).
    change (words_val (words_val 0 [] * 62 + 0) (c :: bp)) with (words_val 0 (c :: bp)) in Hval.
    set (v := words_val 0 (c :: bp)) in *.
    assert (Hv0 : 0 <= v) by (apply (@words_val_mono 0 (c :: bp)); [lia|assumption]).
    assert (Hqv0 : 0 <= words_val 0 q) by (apply (@words_val_mono 0 q); [lia|assumption]).
    assert (Hdiv : v / 62 = words_val 0 q /\ v mod 62 = r).
    { symmetry in Hval. rewrite Z.mul_comm in Hval.
      split; [symmetry; eapply Z.div_unique_pos | symmetry; eapply Z.mod_unique_pos]; eauto. }
    destruct Hdiv as [Hdq Hdr].
    rewrite set_index_spec by lia.
    subst digs. cbn [base62_rev]. rewrite Hdr.
    destruct (Z.eqb_spec (v / 62) 0) as [Hz|Hnz].
    + assert (q = []).
      { destruct q as [|h t]; [reflexivity|].
        pose proof (@canon_val_pos (h :: t) Hcan Hq ltac:(congruence)). lia. }
      subst q. cbn [length rev app]. rewrite encode_loop_nil.
      replace (S n - 1)%nat with n by lia. reflexivity.
    + assert (Hqne : q <> []).
      { intros ->. change (words_val 0 []) with 0 in Hdq. lia. }
      assert (Hqlt : words_val 0 q < 62 ^ Z.of_nat (S k)).
      { rewrite <- Hdq. apply Z.div_lt_upper_bound; [lia|].
        replace (62 * 62 ^ Z.of_nat (S k)) with (62 ^ Z.of_nat (S (S k))); [assumption|].
        rewrite (Nat2Z.inj_succ (S k)). rewrite Z.pow_succ_r by lia. reflexivity. }
      assert (Hlen : length (firstn n dst ++
                 nth (Z.to_nat r) base62Characters zero_byte :: skipn (S n) dst) = length dst).
      { rewrite length_app. cbn [length]. rewrite length_firstn, length_skipn. lia. }
      rewrite (IH q n _ Hqne Hq Hqlt) by (rewrite Hlen; lia).
      rewrite Hdq.
      set (digs' := base62_rev (S k) (words_val 0 q)).
      pose proof (base62_rev_length (S k) (words_val 0 q)) as Hl. fold digs' in Hl.
      cbn [length rev].
      replace (S n - S (length digs'))%nat with (n - length digs')%nat by lia.
      f_equal. f_equal.
      rewrite firstn_app, firstn_firstn.
      rewrite length_firstn.
      replace (Nat.min (n - length digs') n) with (n - length digs')%nat by lia.
      replace (n - length digs' - Nat.min n (length dst))%nat with 0%nat by lia.
      cbn [firstn]. rewrite app_nil_r.
      rewrite <- app_assoc. f_equal.
      rewrite skipn_app, length_firstn.
      replace (n - Nat.min n (length dst))%nat with 0%nat by lia.
      rewrite skipn_all2 by (rewrite length_firstn; lia).
      reflexivity.
Qed.

Lemma id_word_ok id i : word_ok (id_word id i).
Proof.
  rewrite id_word_sum. unfold word_ok, id_byte.
  pose proof (byte_val_range (nth i id zero_byte)).
  pose proof (byte_val_range (nth (i + 1) id zero_byte)).
  pose proof (byte_val_range (nth (i + 2) id zero_byte)).
  pose proof (byte_val_range (nth (i + 3) id zero_byte)).
  lia.
Qed.

Lemma id_parts_ok id : Forall word_ok (id_parts id).
Proof. unfold id_parts. repeat constructor; apply id_word_ok. Qed.

Lemma id_parts_value id :
  length id = 24%nat -> words_val 0 (id_parts id) = be_value id.
Proof.
  intros Hlen.
  do 24 (destruct id as [|? id]; [discriminate|]).
  destruct id; [|discriminate]. clear Hlen.
  unfold id_parts. rewrite !id_word_sum. unfold id_byte.
  cbn [Nat.add nth]. unfold words_val, be_value. cbn [fold_left]. ring.
Qed.

Lemma words_val_upper ws : forall acc,
  0 <= acc -> Forall word_ok ws ->
  words_val acc ws < (acc + 1) * 4294967296 ^ Z.of_nat (length ws).
Proof.
  induction ws as [|c ws IH]; intros acc Hacc Hws.
  - unfold words_val. simpl. lia.
  - inversion Hws as [|? ? Hc Hws']; subst. unfold word_ok in Hc.
    change (words_val acc (c :: ws)) with (words_val (acc * 4294967296 + c) ws).
    specialize (IH (acc * 4294967296 + c) ltac:(lia) Hws').
    eapply Z.lt_le_trans; [exact IH|].
    cbn [length]. rewrite Nat2Z.inj_succ, Z.pow_succ_r by lia.
    assert (0 < 4294967296 ^ Z.of_nat (length ws)) by (apply Z.pow_pos_nonneg; lia).
    nia.
Qed.

Lemma id_parts_bound id : 0 <= words_val 0 (id_parts id) < 62 ^ 33.
Proof.
  split.
  - apply (@words_val_mono 0 (id_parts id)); [lia | apply id_parts_ok].
  - eapply Z.lt_trans.
    + apply words_val_upper; [lia | apply id_parts_ok].
    + reflexivity.
Qed.

Lemma split_buffer (dst : list ascii) (d : nat) :
  (d + 2 <= length dst)%nat ->
  exists P x y tl, dst = P ++ x :: y :: tl /\ length tl = d
                   /\ length P = (length dst - d - 2)%nat.
Proof.
  intros H.
  exists (firstn (length dst - d - 2) dst).
  pose proof (firstn_skipn (length dst - d - 2) dst) as E.
  destruct (skipn (length dst - d - 2) dst) as [|x [|y tl]] eqn:Es;
    apply (f_equal (@List.length _)) in Es; rewrite length_skipn in Es;
    simpl in Es; try lia.
  exists x, y, tl. rewrite E. rewrite length_firstn. repeat split; lia.
Qed.

Lemma EncodeId_returns id dst :
  length id = 24%nat -> (35 <= length dst)%nat ->
  EncodeId id dst =
  Done (nth (length dst - length (base62 (be_value id)) - 2) dst zero_byte
          :: spec_EncodeId id).
Proof.
  intros Hid Hdst. unfold EncodeId. fold (id_parts id).
  pose proof (id_parts_bound id) as Hb.
  assert (Hne : id_parts id <> []) by (unfold id_parts; discriminate).
  assert (Hlt : words_val 0 (id_parts id) < 62 ^ Z.of_nat 33) by apply Hb.
  assert (Hn : (33 <= length dst <= length dst)%nat) by lia.
  rewrite (@encode_loop_spec 32 (id_parts id) (length dst) dst Hne (id_parts_ok id) Hlt Hn).
  clear Hne Hlt Hn Hb.
  rewrite id_parts_value by assumption.
  unfold spec_EncodeId, base62. rewrite length_rev.
  set (digs := base62_rev 33 (be_value id)).
  pose proof (base62_rev_length 33 (be_value id)) as Hl. fold digs in Hl.
  rewrite skipn_all, app_nil_r.
  destruct (@split_buffer dst (length digs) ltac:(lia)) as (P & x & y & tl & E & Htl & HP).
  rewrite <- HP.
  assert (Hlen : length dst = (length P + 2 + length digs)%nat).
  { rewrite E at 1. rewrite length_app. cbn [length]. lia. }
  replace (length dst - length digs)%nat with (S (S (length P))) by lia.
  assert (Hf : firstn (S (S (length P))) dst = P ++ [x; y]).
  { rewrite E. replace (S (S (length P))) with (length P + 2)%nat by lia.
    rewrite firstn_app_2. reflexivity. }
  rewrite Hf.
  replace ((P ++ [x; y]) ++ rev digs) with ((P ++ [x]) ++ y :: rev digs)
    by (rewrite <- !app_assoc; reflexivity).
  assert (HPx : length (P ++ [x]) = S (length P)) by (rewrite length_app; cbn [length]; lia).
  rewrite <- HPx at 1.
  rewrite set_index_spec by (rewrite !length_app; cbn [length]; lia).
  replace (length (P ++ [x])) with (length (P ++ [x]) + 0)%nat at 1 by lia.
  rewrite firstn_app_2. cbn [firstn]. rewrite app_nil_r.
  replace (S (length (P ++ [x]))) with (length (P ++ [x]) + 1)%nat by lia.
  assert (Hs1 : skipn (length (P ++ [x]) + 1) ((P ++ [x]) ++ y :: rev digs) = rev digs).
  { rewrite skipn_app, skipn_all2 by lia.
    replace (length (P ++ [x]) + 1 - length (P ++ [x]))%nat with 1%nat by lia.
    reflexivity. }
  rewrite Hs1. rewrite <- app_assoc.
  rewrite skipn_app, skipn_all, Nat.sub_diag. cbn [skipn app].
  f_equal. f_equal.
  rewrite E. rewrite app_nth2 by lia. rewrite Nat.sub_diag. reflexivity.
Qed.

Lemma IdString_returns id :
  length id = 24%nat -> IdString id = Done (zero_byte :: spec_EncodeId id).
Proof.
  intros Hid. unfold IdString. rewrite EncodeId_returns by (auto; rewrite repeat_length; lia).
  f_equal. f_equal.
  rewrite nth_repeat. reflexivity.
Qed.

(** ** The read buffer size *)

Lemma int_small z : - 2 ^ 63 <= z < 2 ^ 63 -> int z = z.
Proof. intros Hz. unfold int. rewrite Z.mod_small; lia. Qed.

Lemma uint64_small z : 0 <= z < 2 ^ 64 -> uint64 z = z.
Proof. intros Hz. unfold uint64. apply Z.mod_small; lia. Qed.

Lemma ilog2_log2 n : 2 <= n -> ilog2 n = Z.log2 n.
Proof.
  intros Hn. unfold ilog2, LeadingZeros64.
  destruct (Z.leb_spec n 1); [lia|].
  destruct (Z.eqb_spec n 0); lia.
Qed.

Lemma bufsize_of_formula srcsize :
  1 <= srcsize < 2 ^ 63 - 1 ->
  bufsize_of srcsize = 2 ^ Z.log2 (Z.min (srcsize + 1) 4096).
Proof.
  intros Hs. unfold bufsize_of.
  rewrite (@int_small (srcsize + 1)) by lia.
  destruct (Z.gtb_spec (srcsize + 1) 4096) as [Hgt|Hle].
  - rewrite Z.min_r by lia. reflexivity.
  - rewrite Z.min_l by lia.
    rewrite uint64_small by lia.
    rewrite ilog2_log2 by lia.
    pose proof (Z.log2_nonneg (srcsize + 1)).
    rewrite Z.shiftl_mul_pow2 by assumption. rewrite Z.mul_1_l.
    pose proof (Z.log2_spec (srcsize + 1) ltac:(lia)) as [Hlo _].
    assert (0 < 2 ^ Z.log2 (srcsize + 1)) by (apply Z.pow_pos_nonneg; lia).
    apply int_small. lia.
Qed.

(** ** The time component of the identifier *)

Lemma byte_val_of z : byte_val (byte_of z) = z mod 256.
Proof.
  unfold byte_val, byte_of.
  assert (0 <= z mod 256 < 256) by (apply Z.mod_pos_bound; lia).
  rewrite N_ascii_embedding by lia. lia.
Qed.

Lemma be4_word sec rest :
  0 <= sec < 2 ^ 32 ->
  id_word ([byte_of (Z.shiftr sec 24); byte_of (Z.shiftr sec 16);
            byte_of (Z.shiftr sec 8); byte_of sec] ++ rest) 0 = sec.
Proof.
  intros Hs. rewrite id_word_sum. unfold id_byte. cbn [Nat.add nth app].
  rewrite !byte_val_of. rewrite !Z.shiftr_div_pow2 by lia.
  change (2 ^ 24) with 16777216. change (2 ^ 16) with 65536. change (2 ^ 8) with 256.
  change (2 ^ 32) with 4294967296 in Hs.
  Z.div_mod_to_equations. lia.
Qed.

Lemma UpdateIdFromTime_past m :
  Unix (time m) < idEpochBase ->
  UpdateIdFromTime m =
  (m, Some (Errorf "invalid timestamp; %s is in the past" [ArgTime (time m)])).
Proof.
  intros Hlt. unfold UpdateIdFromTime.
  destruct (Z.ltb_spec (Unix (time m)) idEpochBase); [reflexivity | lia].
Qed.

Lemma UpdateIdFromTime_writes m :
  idEpochBase <= Unix (time m) ->
  snd (UpdateIdFromTime m) = None /\
  IdTimestamp (id (fst (UpdateIdFromTime m))) = (Unix (time m) - idEpochBase) mod 2 ^ 32 /\
  skipn 4 (id (fst (UpdateIdFromTime m))) = skipn 4 (id m).
Proof.
  intros Hge. unfold UpdateIdFromTime.
  destruct (Z.ltb_spec (Unix (time m)) idEpochBase); [lia|].
  cbn [fst snd set_id id]. split; [reflexivity|]. split.
  - unfold IdTimestamp. apply be4_word. unfold uint32. apply Z.mod_pos_bound. lia.
  - reflexivity.
Qed.

(** ** Facts on slices *)

Lemma IndexByte_range s c : -1 <= IndexByte s c < len s.
Proof.
  unfold len. induction s as [|x s IH]; cbn [IndexByte length]; [lia|].
  destruct (Ascii.eqb x c); [lia|].
  destruct (Z.eqb_spec (IndexByte s c) (-1)); lia.
Qed.

Lemma IndexByte_none s c : IndexByte s c = -1 <-> ~ In c s.
Proof.
  induction s as [|x s IH]; cbn [IndexByte In]; [tauto|].
  pose proof (IndexByte_range s c).
  destruct (Ascii.eqb_spec x c) as [->|Hne].
  - split; [lia | tauto].
  - destruct (Z.eqb_spec (IndexByte s c) (-1)) as [E|E].
    + split; [|reflexivity]. intros _ [Hx|Hin]; [congruence | tauto].
    + split; [lia|]. intros Hn. exfalso. apply E, IH. tauto.
Qed.

Lemma IndexByte_app_found s t c :
  0 <= IndexByte s c -> IndexByte (s ++ t) c = IndexByte s c.
Proof.
  induction s as [|x s IH]; cbn [IndexByte app]; [lia|].
  destruct (Ascii.eqb x c); [reflexivity|].
  destruct (Z.eqb_spec (IndexByte s c) (-1)) as [E|E]; [lia|].
  pose proof (IndexByte_range s c). intros _.
  rewrite IH by lia. destruct (Z.eqb_spec (IndexByte s c) (-1)); [lia | reflexivity].
Qed.

Lemma IndexByte_app_none s t c :
  IndexByte s c = -1 ->
  IndexByte (s ++ t) c = if IndexByte t c =? -1 then -1 else len s + IndexByte t c.
Proof.
  unfold len. induction s as [|x s IH]; cbn [IndexByte app length].
  - intros _. destruct (Z.eqb_spec (IndexByte t c) (-1)); lia.
  - destruct (Ascii.eqb x c); [lia|].
    destruct (Z.eqb_spec (IndexByte s c) (-1)) as [E|E].
    + intros _. rewrite IH by assumption.
      destruct (Z.eqb_spec (IndexByte t c) (-1)) as [E'|E']; [reflexivity|].
      pose proof (IndexByte_range t c).
      destruct (Z.eqb_spec (Z.of_nat (length s) + IndexByte t c) (-1)); lia.
    + pose proof (IndexByte_range s c). lia.
Qed.

Lemma countByte_nonneg s c : 0 <= countByte s c.
Proof. induction s as [|x s IH]; cbn [countByte]; [lia|]. destruct (Ascii.eqb x c); lia. Qed.

Lemma IndexByte_count s c : IndexByte s c <> -1 -> 1 <= countByte s c.
Proof.
  induction s as [|x s IH]; cbn [IndexByte countByte]; [lia|].
  pose proof (countByte_nonneg s c).
  destruct (Ascii.eqb x c); [lia|].
  destruct (Z.eqb_spec (IndexByte s c) (-1)); [lia|]. intros _. apply IH. assumption.
Qed.

Lemma bytes_eqb_eq a b : bytes_eqb a b = true <-> a = b.
Proof. unfold bytes_eqb. destruct (list_eq_dec ascii_dec a b); split; congruence. Qed.

Lemma lookup_outside_keywords key :
  ~ In key keywords -> map_lookup fieldtab key = None.
Proof.
  intros Hn. unfold fieldtab, keywords in *. cbn [map_lookup].
  repeat match goal with
  | |- context [bytes_eqb ?k key] =>
      let E := fresh "E" in
      destruct (bytes_eqb k key) eqn:E;
      [apply bytes_eqb_eq in E; exfalso; apply Hn; cbn [In]; tauto|]
  end.
  reflexivity.
Qed.

(** ** The address normaliser *)

Section Address.
Context `{GoLib}.

Lemma normalize_result a :
  normalizeAndValidateAddress a =
  if IndexByte (strings_ToLower (NFC_String a)) "@"%char =? -1
  then ([], Some (Errorf "invalid address" []))
  else (strings_ToLower (NFC_String a), None).
Proof. reflexivity. Qed.

Lemma normalize_accepts a r :
  normalizeAndValidateAddress a = (r, None) ->
  r = strings_ToLower (NFC_String a) /\ 1 <= countByte r "@"%char.
Proof.
  rewrite normalize_result.
  destruct (Z.eqb_spec (IndexByte (strings_ToLower (NFC_String a)) "@"%char) (-1)) as [E|E];
    [discriminate|].
  intros [= <-]. split; [reflexivity | apply IndexByte_count; assumption].
Qed.

Lemma normalize_two_separators :
  NFC_String (B "a@b@c") = B "a@b@c" ->
  strings_ToLower (B "a@b@c") = B "a@b@c" ->
  normalizeAndValidateAddress (B "a@b@c") = (B "a@b@c", None)
  /\ countByte (B "a@b@c") "@"%char = 2
  /\ Author_Parse (mkAuthor [] []) (B " a@b@c") = (mkAuthor (B "a@b@c") [], None).
Proof.
  intros Hn Hl.
  assert (E : normalizeAndValidateAddress (B "a@b@c") = (B "a@b@c", None)).
  { rewrite normalize_result, Hn, Hl. reflexivity. }
  split; [exact E|]. split; [reflexivity|].
  unfold Author_Parse.
  change (TrimSpace (B " a@b@c")) with (B "a@b@c").
  cbv beta iota. change (len (B "a@b@c") =? 0) with false. cbv iota.
  change (IndexByte (B "a@b@c") SP) with (-1).
  change (negb (-1 =? -1)) with false. cbv iota.
  rewrite E. reflexivity.
Qed.

End Address.

(** ** The hashing, counting reader *)

Section HCR.
Context {Src : Type} `{Reader Src}.

Lemma HCR_Read_ok (r : HashingCountingReader Src) L p s' :
  Read (inner r) L = (p, None, s') ->
  HCR_Read r L =
  (p, None, {| inner := s'; nread := int (nread r + len p); hash := hash r ++ p |}).
Proof. intros E. unfold HCR_Read. rewrite E. reflexivity. Qed.

Lemma HCR_Read_err (r : HashingCountingReader Src) L p e s' :
  Read (inner r) L = (p, Some e, s') ->
  HCR_Read r L = (p, Some e, {| inner := s'; nread := nread r; hash := hash r |}).
Proof. intros E. unfold HCR_Read. rewrite E. reflexivity. Qed.

Lemma HCR_Read_bound (r : HashingCountingReader Src) L :
  (length (fst (fst (HCR_Read r L))) <= L)%nat.
Proof.
  pose proof (Read_bound (inner r) L) as Hb. unfold HCR_Read.
  destruct (Read (inner r) L) as [[p e] s']. destruct e; exact Hb.
Qed.

End HCR.

(** ** Unknown and extension fields; the body size check *)

Section Fields.
Context `{GoLib} {Src : Type} `{Reader Src}.

Lemma parse_field_unknown fuel srcname (st : pstate) line :
  let p := IndexByte line SP in
  let key := slice_to line (if p =? -1 then len line else p) in
  p <> 0 -> line <> [] -> ~ In key keywords ->
  parse_field fuel srcname st line =
  if HasPrefix key (B "x-") then Done (Continue st)
  else Done (Return st (Errorf "%s:%d: unknown field %q"
               [ArgBytes srcname; ArgInt (lineno st); ArgBytes key])).
Proof.
  intros p key Hp Hline Hkey. unfold parse_field. fold p.
  destruct (Z.eqb_spec p 0); [contradiction|].
  assert (Hlen : (len line =? 0) = false).
  { apply Z.eqb_neq. destruct line; [contradiction|]. unfold len. simpl. lia. }
  rewrite Hlen, andb_false_r. fold key.
  rewrite (lookup_outside_keywords Hkey). reflexivity.
Qed.

Lemma field_body_too_large fuel srcname (st : pstate) line p size :
  ParseUint (TrimSpace (slice_from line p)) 64 = (size, None) ->
  MAX_BODY_SIZE < size ->
  field_body fuel srcname st line p =
  Done (Return st (Errorf "%s:%d: body too large (%d)"
          [ArgBytes srcname; ArgInt (lineno st); ArgInt size])).
Proof.
  intros E Hgt. unfold field_body. rewrite E.
  destruct (Z.gtb_spec size MAX_BODY_SIZE); [reflexivity | lia].
Qed.

Lemma field_body_not_integer fuel srcname (st : pstate) line p v e :
  ParseUint (TrimSpace (slice_from line p)) 64 = (v, Some e) ->
  field_body fuel srcname st line p =
  Done (Return st (Errorf "%s:%d: invalid integer size %q"
          [ArgBytes srcname; ArgInt (lineno st); ArgBytes (slice_from line p)])).
Proof. intros E. unfold field_body. rewrite E. reflexivity. Qed.

Lemma field_body_outcome fuel srcname (st : pstate) line p size fl :
  ParseUint (TrimSpace (slice_from line p)) 64 = (size, None) ->
  size <= MAX_BODY_SIZE ->
  field_body fuel srcname st line p = Done fl ->
  match fl with
  | Continue st' => len (body (msg st')) = size
  | Return st' _ => body (msg st') = []
  end.
Proof.
  intros E Hle. unfold field_body. rewrite E.
  destruct (Z.gtb_spec size MAX_BODY_SIZE); [lia|].
  destruct (ReadFull fuel (br st) (Z.to_nat size)) as [[[got err] b']| |]; try discriminate.
  destruct err as [e|].
  - intros [= <-]. reflexivity.
  - destruct (Z.eqb_spec (len got) size) as [Hn|Hn]; cbn [negb].
    + intros [= <-]. cbn [with_msg msg set_body body]. assumption.
    + intros [= <-]. reflexivity.
Qed.

End Fields.

(** ** The buffered reader over a source that keeps bytes and errors apart *)

Section WellBehaved.
Context {Src : Type} `{Reader Src}.
Variable rest : Src -> list ascii.
Variable fin : error.
Hypothesis Hwb : delivers rest fin.
Variable all : list ascii.

Local Abbreviation Inv0 := (Inv0 rest all).
Local Abbreviation Inv := (Inv rest all).

Lemma len_app {A} (l1 l2 : list A) : len (l1 ++ l2) = len l1 + len l2.
Proof. unfold len. rewrite length_app. lia. Qed.

Lemma len_nonneg {A} (l : list A) : 0 <= len l.
Proof. unfold len. lia. Qed.

Lemma Inv0_position b :
  Inv0 b -> position b = len all - len (stream rest b).
Proof.
  intros [Hc Hp Hh Hn Ha Hs]. unfold position, Buffered, stream.
  rewrite Hn, <- Hh, !len_app.
  assert (len (pend b) <= len (hash (rd b))) by (unfold len; lia).
  pose proof (len_nonneg (pend b)). pose proof (len_nonneg (rest (inner (rd b)))).
  rewrite <- Hh, len_app in Ha.
  rewrite int_small by lia. lia.
Qed.

Lemma HCR_Read_end (r : HashingCountingReader Src) L :
  (0 < L)%nat -> rest (inner r) = [] ->
  exists s', HCR_Read r L = ([], Some fin, {| inner := s'; nread := nread r; hash := hash r |})
             /\ rest s' = [].
Proof.
  intros HL Hr. pose proof Hwb as Hd. unfold delivers in Hd.
  specialize (Hd (inner r) L HL). rewrite Hr in Hd.
  destruct Hd as (s' & E & Hs'). exists s'. split; [|assumption].
  apply HCR_Read_err. assumption.
Qed.

Lemma HCR_Read_data (r : HashingCountingReader Src) L :
  (0 < L)%nat -> rest (inner r) <> [] ->
  exists d s',
    HCR_Read r L = (d, None, {| inner := s'; nread := int (nread r + len d);
                                hash := hash r ++ d |})
    /\ d <> [] /\ (length d <= L)%nat /\ rest (inner r) = d ++ rest s'.
Proof.
  intros HL Hr. pose proof Hwb as Hd. unfold delivers in Hd.
  specialize (Hd (inner r) L HL).
  destruct (rest (inner r)) as [|c tl] eqn:Er; [congruence|].
  destruct Hd as (d & s' & E & Hne & Hrest). exists d, s'.
  pose proof (Read_bound (inner r) L) as Hb. rewrite E in Hb. cbn [fst] in Hb.
  rewrite (HCR_Read_ok _ _ E). auto.
Qed.

(** [fill] either brings in at least one more byte, or finds the end. *)
Lemma nil_or_not {A} (l : list A) : l = [] \/ l <> [].
Proof. destruct l; [left; reflexivity | right; discriminate]. Qed.

Lemma nonempty_length {A} (l : list A) : l <> [] -> (0 < length l)%nat.
Proof. destruct l; [congruence | cbn; lia]. Qed.

Lemma fill_loop_wb i b :
  Inv b -> (length (pend b) < bufcap b)%nat ->
  exists b', fill_loop (S i) b = b' /\ Inv0 b' /\ bufcap b' = bufcap b
    /\ stream rest b' = stream rest b
    /\ ((berr b' = None /\ (length (pend b) < length (pend b'))%nat
         /\ firstn (length (pend b)) (pend b') = pend b
         /\ (length (rest (inner (rd b'))) < length (rest (inner (rd b))))%nat)
        \/ (berr b' = Some fin /\ pend b' = pend b /\ rest (inner (rd b')) = []
            /\ rest (inner (rd b)) = [])).
Proof.
  intros [[Hc Hp Hh Hn Ha Hs] He] Hroom. cbn [fill_loop].
  destruct (nil_or_not (rest (inner (rd b)))) as [Er|Er].
  - destruct (@HCR_Read_end (rd b) (bufcap b - length (pend b)) ltac:(lia) Er) as (s' & E & Hs').
    rewrite E. eexists. split; [reflexivity|].
    unfold stream; cbn. rewrite Hs', Er, !app_nil_r.
    split; [|split; [reflexivity|split; [reflexivity|]]].
    + constructor; cbn; rewrite ?app_nil_r; try assumption; try lia.
      rewrite Hs', app_nil_r. rewrite Er, app_nil_r in Hh. assumption.
    + right. auto.
  - destruct (@HCR_Read_data (rd b) (bufcap b - length (pend b)) ltac:(lia) Er)
      as (d & s' & E & Hne & Hlen & Hrest).
    rewrite E.
    pose proof (nonempty_length Hne) as Hd0.
    assert (Hd : (0 <? len d) = true) by (apply Z.ltb_lt; unfold len; lia).
    rewrite Hd. eexists. split; [reflexivity|].
    unfold stream; cbn. rewrite <- app_assoc, <- Hrest.
    split; [|split; [reflexivity|split; [reflexivity|]]].
    + rewrite Hrest in Hh. rewrite <- Hh in Ha. rewrite !len_app in Ha.
      pose proof (len_nonneg (rest s')).
      constructor; cbn; try assumption.
      * rewrite length_app. lia.
      * rewrite <- app_assoc. assumption.
      * rewrite Hn, len_app. apply int_small.
        pose proof (len_nonneg (hash (rd b))). pose proof (len_nonneg d). lia.
      * rewrite <- Hh, !len_app. lia.
      * rewrite !length_app. lia.
    + left. rewrite length_app.
      repeat split; try assumption; try lia.
      * rewrite firstn_app, Nat.sub_diag, firstn_all. cbn [firstn]. apply app_nil_r.
      * rewrite Hrest, length_app. lia.
Qed.

Lemma IndexByte_split s pend c :
  IndexByte (firstn s pend) c = -1 ->
  IndexByte pend c =
  if IndexByte (skipn s pend) c =? -1 then -1
  else len (firstn s pend) + IndexByte (skipn s pend) c.
Proof.
  intros Hn. rewrite <- (firstn_skipn s pend) at 1.
  apply IndexByte_app_none. assumption.
Qed.

Lemma fill_not_full b :
  (length (pend b) < bufcap b)%nat -> fill b = Done (fill_loop 100 b).
Proof.
  intros Hlt. unfold fill. destruct (Nat.leb_spec (bufcap b) (length (pend b))); [lia|reflexivity].
Qed.

Lemma ReadSlice_loop_wb fuel : forall b s,
  Inv0 b -> (s <= length (pend b))%nat ->
  IndexByte (firstn s (pend b)) NL = -1 ->
  (berr b = None /\ (length (rest (inner (rd b))) + 2 <= fuel)%nat)
  \/ (berr b = Some fin /\ rest (inner (rd b)) = [] /\ s = length (pend b)
      /\ (length (pend b) < bufcap b)%nat /\ (1 <= fuel)%nat) ->
  exists line err b',
    ReadSlice_loop fuel b NL s = Done (line, err, b')
    /\ (line, err, stream rest b') = read_slice_spec fin (bufcap b) (stream rest b)
    /\ Inv b' /\ bufcap b' = bufcap b
    /\ (length line + length (pend b') <= length (hash (rd b')))%nat
    /\ (err = None \/ pend b' = []).
Proof.
  induction fuel as [|fuel IH]; intros b s Hinv Hs Hnone Hst.
  { destruct Hst as [[_ Hf]|(_ & _ & _ & _ & Hf)]; lia. }
  pose proof Hinv as [Hc Hp Hh Hn Ha Hsf].
  cbn [ReadSlice_loop].
  pose proof (IndexByte_split s (pend b) NL Hnone) as Hsplit.
  pose proof (IndexByte_range (skipn s (pend b)) NL) as Hrg.
  assert (Hfl : len (firstn s (pend b)) = Z.of_nat s).
  { unfold len. rewrite length_firstn. lia. }
  destruct (Z.leb_spec 0 (IndexByte (skipn s (pend b)) NL)) as [Hfound|Hnot].
  - (* the delimiter is in the buffer *)
    destruct (Z.eqb_spec (IndexByte (skipn s (pend b)) NL) (-1)) as [E|_]; [lia|].
    set (i := IndexByte (skipn s (pend b)) NL) in *.
    assert (Hi : i + Z.of_nat s < len (pend b)).
    { unfold len in *. rewrite length_skipn in Hrg. lia. }
    assert (Hberr : berr b = None).
    { destruct Hst as [[Hb _]|(_ & _ & Hs' & _)]; [assumption|].
      subst s. unfold i in Hfound. rewrite skipn_all in Hfound. cbn in Hfound. lia. }
    do 3 eexists. split; [reflexivity|].
    assert (Hspec : IndexByte (firstn (bufcap b) (stream rest b)) NL = i + Z.of_nat s).
    { unfold stream. rewrite firstn_app.
      rewrite (@firstn_all2 _ (bufcap b) (pend b)) by lia.
      rewrite IndexByte_app_found; rewrite Hsplit, Hfl; lia. }
    unfold read_slice_spec. rewrite Hspec.
    destruct (Z.leb_spec 0 (i + Z.of_nat s)); [|lia].
    unfold slice_to, slice_from, stream, len in *. cbn [pend rd set_pend].
    assert (Hk : (Z.to_nat (i + Z.of_nat s + 1) <= length (pend b))%nat) by lia.
    split; [|split; [|split; [reflexivity|split; [|left; reflexivity]]]].
    + rewrite firstn_app, skipn_app.
      replace (Z.to_nat (i + Z.of_nat s + 1) - length (pend b))%nat with 0%nat by lia.
      cbn [firstn skipn]. rewrite app_nil_r. reflexivity.
    + split; [|exact Hberr].
      constructor; cbn [pend rd set_pend bufcap]; try assumption.
      * rewrite length_skipn. lia.
      * rewrite length_skipn. lia.
    + rewrite length_firstn, length_skipn. lia.
  - (* not in the buffer *)
    destruct (Z.eqb_spec (IndexByte (skipn s (pend b)) NL) (-1)) as [E|E]; [|lia].
    destruct (berr b) as [e|] eqn:Eb.
    + (* the pending error ends the line *)
      destruct Hst as [[Hb _]|(Hb & Hr & Hs' & Hlt & _)]; [discriminate|].
      injection Hb as ->.
      do 3 eexists. split; [reflexivity|].
      unfold read_slice_spec, stream. cbn [pend rd set_pend set_berr].
      rewrite Hr, !app_nil_r.
      rewrite firstn_all2 by lia. rewrite Hsplit.
      destruct (Z.leb_spec 0 (-1)); [lia|].
      destruct (Nat.leb_spec (bufcap b) (length (pend b))); [lia|].
      split; [reflexivity|].
      split; [|split; [reflexivity|split; [cbn [length]; lia | right; reflexivity]]].
      split; [|reflexivity].
      constructor; cbn [pend rd set_pend set_berr bufcap length]; try assumption; lia.
    + destruct Hst as [[_ Hfuel]|(Hb & _)]; [|discriminate].
      unfold Buffered.
      destruct (Z.leb_spec (Z.of_nat (bufcap b)) (len (pend b))) as [Hfull|Hroom].
      * (* the buffer is full *)
        unfold len in Hfull.
        do 3 eexists. split; [reflexivity|].
        unfold read_slice_spec, stream. cbn [pend rd set_pend].
        rewrite firstn_app, skipn_app.
        replace (bufcap b - length (pend b))%nat with 0%nat by lia.
        cbn [firstn skipn]. rewrite app_nil_r.
        rewrite firstn_all2 by lia. rewrite skipn_all2 by lia. rewrite Hsplit.
        destruct (Z.leb_spec 0 (-1)); [lia|].
        destruct (Nat.leb_spec (bufcap b) (length (pend b ++ rest (inner (rd b)))));
          [|rewrite length_app in *; lia].
        split; [reflexivity|].
        split; [|split; [reflexivity|split; [cbn [length]; lia | right; reflexivity]]].
        split; [|exact Eb].
        constructor; cbn [pend rd set_pend bufcap length]; try assumption; lia.
      * unfold len in Hroom.
        rewrite fill_not_full by lia.
        destruct (@fill_loop_wb 99 b (conj Hinv Eb) ltac:(lia))
          as (b' & Eb' & Hinv' & Hcap' & Hstr' & Hcase).
        rewrite Eb'.
        destruct (IH b' (length (pend b)) Hinv')
          as (line & err & b2 & E2 & Hspec & Hinv2 & Hcap2 & Hhl & Hpe).
        { destruct Hcase as [(_ & Hl & _)|(_ & Hp' & _)]; [lia | rewrite Hp'; lia]. }
        { destruct Hcase as [(_ & _ & Hf & _)|(_ & Hp' & _)].
          - rewrite Hf. rewrite Hsplit. reflexivity.
          - rewrite Hp', firstn_all. rewrite Hsplit. reflexivity. }
        { destruct Hcase as [(Hb' & _ & _ & Hr')|(Hb' & Hp' & Hr' & _)].
          - left. split; [assumption | lia].
          - right. rewrite Hp', Hcap'. repeat split; try assumption; lia. }
        exists line, err, b2. split; [exact E2|].
        rewrite <- Hstr', <- Hcap'. split; [exact Hspec|].
        split; [exact Hinv2 | split; [lia | split; [exact Hhl | exact Hpe]]].
Qed.

Lemma ReadLine_wb fuel b :
  Inv b -> (length (rest (inner (rd b))) + 2 <= fuel)%nat ->
  exists line isPrefix err b',
    ReadLine fuel b = Done (line, isPrefix, err, b')
    /\ (line, isPrefix, err, stream rest b') = read_line_spec fin (bufcap b) (stream rest b)
    /\ Inv b' /\ bufcap b' = bufcap b.
Proof.
  intros [Hinv Hb] Hfuel. unfold ReadLine, ReadSlice.
  destruct (@ReadSlice_loop_wb fuel b 0%nat Hinv ltac:(lia) eq_refl ltac:(left; auto))
    as (line & err & b1 & E & Hspec & [Hinv1 Hb1] & Hcap1 & Hhl & Hpe).
  rewrite E. unfold read_line_spec. rewrite <- Hspec.
  destruct (is_ErrBufferFull err) eqn:Hfull.
  - destruct ((0 <? len line) && Ascii.eqb (last_byte line) CR) eqn:Hcr.
    + do 4 eexists. split; [reflexivity|].
      apply andb_prop in Hcr. destruct Hcr as [Hl _]. apply Z.ltb_lt in Hl. unfold len in Hl.
      destruct Hpe as [->|Hp1]; [discriminate|].
      destruct Hinv1 as [Hc Hp Hh Hn Ha Hs].
      unfold stream. cbn [pend rd set_pend]. rewrite Hp1. cbn [app].
      split; [reflexivity|]. split; [|assumption].
      split; [|assumption].
      constructor; cbn [pend rd set_pend bufcap length]; try assumption; lia.
    + do 4 eexists. split; [reflexivity|].
      split; [reflexivity | split; [split; assumption | assumption]].
  - destruct (len line =? 0).
    + do 4 eexists. split; [reflexivity|].
      split; [reflexivity | split; [split; assumption | assumption]].
    + do 4 eexists. split; [reflexivity|].
      split; [reflexivity | split; [split; assumption | assumption]].
Qed.

Lemma fill_wb b :
  Inv b -> pend b = [] ->
  exists b', fill b = Done b' /\ Inv0 b' /\ bufcap b' = bufcap b
    /\ stream rest b' = stream rest b
    /\ ((berr b' = None /\ pend b' <> [])
        \/ (berr b' = Some fin /\ pend b' = [] /\ rest (inner (rd b')) = []
            /\ stream rest b = [])).
Proof.
  intros Hinv Hp. pose proof Hinv as [[Hc _ _ _ _ _] _].
  rewrite fill_not_full by (rewrite Hp; cbn; lia).
  destruct (@fill_loop_wb 99 b Hinv ltac:(rewrite Hp; cbn; lia))
    as (b' & E & Hinv' & Hcap & Hstr & Hcase).
  exists b'. rewrite E. repeat (split; [assumption || reflexivity|]).
  destruct Hcase as [(Hb & Hl & _)|(Hb & Hp' & Hr' & Hr)].
  - left. split; [assumption|]. intros Hn. rewrite Hn in Hl. cbn in Hl. lia.
  - right. rewrite Hp', Hp. repeat split; try assumption.
    unfold stream. rewrite Hp, Hr. reflexivity.
Qed.

Lemma Discard_loop_wb fuel : forall b n remain,
  Inv b -> 0 < remain <= n -> n < 2 ^ 63 ->
  (length (stream rest b) + 1 <= fuel)%nat ->
  exists d err b',
    Discard_loop fuel b n remain = Done (d, err, b')
    /\ Inv b' /\ bufcap b' = bufcap b
    /\ (if remain <=? len (stream rest b)
        then d = n /\ err = None /\ stream rest b' = slice_from (stream rest b) remain
        else d = n - (remain - len (stream rest b)) /\ err = Some fin
             /\ stream rest b' = []).
Proof.
  induction fuel as [|fuel IH]; intros b n remain Hinv Hrem Hn Hfuel; [lia|].
  cbn [Discard_loop]. unfold Buffered.
  assert (Hstep : exists b1, (if len (pend b) =? 0 then fill b else Done b) = Done b1
            /\ Inv0 b1 /\ bufcap b1 = bufcap b /\ stream rest b1 = stream rest b
            /\ ((berr b1 = None /\ pend b1 <> [])
                \/ (berr b1 = Some fin /\ pend b1 = [] /\ rest (inner (rd b1)) = []
                    /\ stream rest b = []))).
  { destruct (Z.eqb_spec (len (pend b)) 0) as [E|E].
    - apply fill_wb; [assumption|]. unfold len in E. destruct (pend b); [reflexivity|cbn in E; lia].
    - exists b. destruct Hinv as [Hi Hb]. repeat (split; [assumption || reflexivity|]).
      left. split; [assumption|]. intros Hp. rewrite Hp in E. cbn in E. lia. }
  destruct Hstep as (b1 & E1 & Hinv1 & Hcap1 & Hstr1 & Hcase). rewrite E1.
  pose proof Hinv1 as [Hc Hp Hh Hnr Ha Hs].
  rewrite <- Hstr1. unfold stream.
  set (skip := if len (pend b1) >? remain then remain else len (pend b1)).
  pose proof (len_nonneg (pend b1)) as Hl0.
  assert (Hskip : 0 <= skip <= remain /\ skip <= len (pend b1)
                  /\ (skip = remain \/ skip = len (pend b1))).
  { unfold skip. destruct (Z.gtb_spec (len (pend b1)) remain); lia. }
  clearbody skip.
  rewrite int_small by lia.
  destruct Hcase as [(Hb1 & Hne)|(Hb1 & Hp1 & Hr1 & HR)].
  - (* some bytes are buffered *)
    pose proof (nonempty_length Hne) as Hpos.
    destruct (Z.eqb_spec (remain - skip) 0) as [Ez|Ez].
    + assert (Hle : remain <= len (pend b1)) by lia.
      assert (skip = remain) by lia. subst skip.
      do 3 eexists. split; [reflexivity|].
      rewrite len_app. pose proof (len_nonneg (rest (inner (rd b1)))).
      destruct (Z.leb_spec remain (len (pend b1) + len (rest (inner (rd b1))))); [|lia].
      split; [|split; [assumption|]].
      * split; [|assumption].
        constructor; cbn [pend rd set_pend bufcap]; try assumption;
          unfold slice_from; rewrite length_skipn; lia.
      * repeat split. unfold stream, slice_from. cbn [pend rd set_pend].
        rewrite skipn_app.
        replace (Z.to_nat remain - length (pend b1))%nat with 0%nat by (unfold len in *; lia).
        reflexivity.
    + assert (Hsk : skip = len (pend b1)) by lia.
      cbn [berr set_pend]. rewrite Hb1.
      assert (Hp2 : slice_from (pend b1) skip = []).
      { unfold slice_from. apply skipn_all2. unfold len in Hsk. lia. }
      destruct (IH (set_pend b1 (slice_from (pend b1) skip)) n (remain - skip))
        as (d & err & b' & E & Hinv' & Hcap' & Hres).
      { split; [|assumption]. rewrite Hp2.
        constructor; cbn [pend rd set_pend bufcap length]; try assumption; lia. }
      { lia. } { assumption. }
      { unfold stream in *. cbn [pend rd set_pend]. rewrite Hp2. cbn [app].
        rewrite <- Hstr1 in Hfuel. rewrite length_app in Hfuel. lia. }
      exists d, err, b'. split; [exact E|].
      split; [assumption|]. split; [cbn [bufcap set_pend] in Hcap'; lia|].
      revert Hres. unfold stream. cbn [pend rd set_pend]. rewrite Hp2. cbn [app].
      rewrite len_app. pose proof (len_nonneg (rest (inner (rd b1)))).
      destruct (Z.leb_spec (remain - skip) (len (rest (inner (rd b1)))));
        destruct (Z.leb_spec remain (len (pend b1) + len (rest (inner (rd b1))))); try lia.
      * intros (-> & -> & ->). repeat split.
        unfold slice_from. rewrite skipn_app.
        rewrite (@skipn_all2 _ (Z.to_nat remain) (pend b1)) by (unfold len in *; lia).
        cbn [app]. f_equal. unfold len in *. lia.
      * intros (-> & -> & ->). repeat split. lia.
  - (* the source has ended *)
    assert (skip = 0) by (rewrite Hp1 in Hskip; unfold len in Hskip; cbn in Hskip; lia).
    subst skip. rewrite Hp1 in *.
    destruct (Z.eqb_spec (remain - 0) 0) as [Ez|Ez]; [lia|].
    cbn [berr set_pend]. rewrite Hb1.
    do 3 eexists. split; [reflexivity|].
    split; [|split; [assumption|]].
    + split; [|reflexivity].
      constructor; cbn [pend rd set_pend set_berr bufcap]; try assumption;
        unfold slice_from; rewrite length_skipn; cbn [length]; lia.
    + unfold stream. cbn [pend rd set_pend set_berr]. rewrite Hr1.
      change (len ([] ++ [])) with 0.
      destruct (Z.leb_spec remain 0); [lia|].
      rewrite int_small by lia. split; [lia|]. split; [reflexivity|].
      unfold slice_from. rewrite skipn_nil. reflexivity.
Qed.

Lemma Discard_wb fuel b n :
  Inv b -> n < 2 ^ 63 -> (length (stream rest b) + 1 <= fuel)%nat ->
  exists d err b',
    Discard fuel b n = Done (d, err, b')
    /\ (d, err, stream rest b') = discard_spec fin n (stream rest b)
    /\ Inv b' /\ bufcap b' = bufcap b.
Proof.
  intros Hinv Hn Hfuel. unfold Discard, discard_spec.
  pose proof (len_nonneg (stream rest b)).
  destruct (Z.ltb_spec n 0).
  { do 3 eexists. split; [reflexivity|]. auto. }
  destruct (Z.eqb_spec n 0) as [->|Hn0].
  { do 3 eexists. split; [reflexivity|].
    destruct (Z.leb_spec 0 (len (stream rest b))); [|lia].
    auto. }
  destruct (@Discard_loop_wb fuel b n n Hinv ltac:(lia) Hn Hfuel)
    as (d & err & b' & E & Hinv' & Hcap & Hres).
  exists d, err, b'. split; [exact E|].
  destruct (Z.leb_spec n (len (stream rest b))).
  - destruct Hres as (-> & -> & ->). auto.
  - destruct Hres as (-> & -> & ->). split; [|auto]. f_equal. f_equal. lia.
Qed.

Lemma bufio_Read_wb b L :
  Inv b -> (0 < L)%nat ->
  exists d e b',
    bufio_Read b L = (d, e, b') /\ Inv b' /\ bufcap b' = bufcap b
    /\ ((e = None /\ d <> [] /\ (length d <= L)%nat /\ stream rest b = d ++ stream rest b')
        \/ (e = Some fin /\ d = [] /\ stream rest b = [] /\ stream rest b' = [])).
Proof.
  intros [Hinv Hb] HL. pose proof Hinv as [Hc Hp Hh Hn Ha Hs].
  unfold bufio_Read. destruct L as [|L']; [lia|]. set (L := S L') in *.
  destruct (pend b) as [|c tl] eqn:Ep.
  - rewrite Hb.
    destruct (Nat.leb_spec (bufcap b) L) as [Hbig|Hsmall].
    + (* large read, straight into the caller's slice *)
      destruct (nil_or_not (rest (inner (rd b)))) as [Er|Er].
      * destruct (@HCR_Read_end (rd b) L HL Er) as (s' & E & Hs'). rewrite E.
        do 3 eexists. split; [reflexivity|].
        unfold stream. cbn [pend rd inner]. rewrite Ep, Er, Hs'.
        split; [|split; [reflexivity | right; auto]].
        split; [|reflexivity].
        constructor; cbn [pend rd bufcap inner hash nread length]; try assumption; try lia.
        rewrite Hs'. rewrite Er in Hh. assumption.
      * destruct (@HCR_Read_data (rd b) L HL Er) as (d & s' & E & Hne & Hlen & Hrest).
        rewrite E. do 3 eexists. split; [reflexivity|].
        unfold stream. cbn [pend rd inner]. rewrite Ep. cbn [app].
        split; [|split; [reflexivity | left; auto]].
        split; [|reflexivity].
        rewrite Hrest in Hh. rewrite <- Hh in Ha. rewrite !len_app in Ha.
        pose proof (len_nonneg (rest s')). pose proof (len_nonneg (hash (rd b))).
        pose proof (len_nonneg d).
        constructor; cbn [pend rd bufcap inner hash nread length]; try assumption; try lia.
        -- rewrite <- app_assoc. assumption.
        -- rewrite Hn, len_app. apply int_small. lia.
        -- rewrite <- Hh, !len_app. lia.
    + (* one read into the buffer *)
      destruct (nil_or_not (rest (inner (rd b)))) as [Er|Er].
      * destruct (@HCR_Read_end (rd b) (bufcap b) Hc Er) as (s' & E & Hs'). rewrite E.
        do 3 eexists. split; [reflexivity|].
        unfold stream. cbn [pend rd inner]. rewrite Ep, Er, Hs'.
        split; [|split; [reflexivity | right; auto]].
        split; [|reflexivity].
        constructor; cbn [pend rd bufcap inner hash nread length]; try assumption; try lia.
        rewrite Hs'. rewrite Er in Hh. assumption.
      * destruct (@HCR_Read_data (rd b) (bufcap b) Hc Er) as (d & s' & E & Hne & Hlen & Hrest).
        rewrite E. destruct d as [|x d']; [congruence|]. set (d := x :: d') in *.
        do 3 eexists. split; [reflexivity|].
        unfold stream. cbn [pend rd inner]. rewrite Ep. cbn [app].
        split; [|split; [reflexivity | left]].
        -- split; [|reflexivity].
           rewrite Hrest in Hh. rewrite <- Hh in Ha. rewrite !len_app in Ha.
           pose proof (len_nonneg (rest s')). pose proof (len_nonneg (hash (rd b))).
           pose proof (len_nonneg d).
           constructor; cbn [pend rd bufcap inner hash nread length]; try assumption; try lia.
           ++ rewrite length_skipn. lia.
           ++ rewrite <- app_assoc. assumption.
           ++ rewrite Hn, len_app. apply int_small. lia.
           ++ rewrite <- Hh, !len_app. lia.
           ++ rewrite length_skipn, length_app. lia.
        -- split; [reflexivity|]. split; [subst L d; discriminate|].
           split; [rewrite length_firstn; lia|].
           rewrite Hrest, app_assoc, firstn_skipn. reflexivity.
  - rewrite <- Ep in Hp, Hs |- *. do 3 eexists. split; [reflexivity|].
    split; [|split; [reflexivity | left]].
    + split; [|assumption].
      constructor; cbn [pend rd set_pend bufcap]; try assumption; rewrite length_skipn; lia.
    + split; [reflexivity|]. split; [rewrite Ep; subst L; discriminate|].
      split; [rewrite length_firstn; lia|].
      unfold stream. cbn [pend rd set_pend]. rewrite app_assoc, firstn_skipn. reflexivity.
Qed.

Lemma ReadAtLeast_loop_wb size fuel : forall b got,
  Inv b -> (length got <= size)%nat ->
  (length (stream rest b) + 1 <= fuel)%nat ->
  exists out err b',
    ReadAtLeast_loop fuel b size got = Done (out, err, b')
    /\ Inv b' /\ bufcap b' = bufcap b
    /\ (if (size - length got <=? length (stream rest b))%nat
        then out = got ++ firstn (size - length got) (stream rest b) /\ err = None
             /\ stream rest b' = skipn (size - length got) (stream rest b)
        else out = got ++ stream rest b
             /\ err = ReadAtLeast_result size (got ++ stream rest b) (Some fin)
             /\ stream rest b' = []).
Proof.
  induction fuel as [|fuel IH]; intros b got Hinv Hgot Hfuel; [lia|].
  cbn [ReadAtLeast_loop].
  destruct (Nat.ltb_spec (length got) size) as [Hlt|Hge].
  - destruct (@bufio_Read_wb b (size - length got) Hinv ltac:(lia))
      as (d & e & b1 & E & Hinv1 & Hcap1 & Hcase).
    rewrite E.
    destruct Hcase as [(-> & Hne & Hlen & Hstr)|(-> & -> & Hstr & Hstr1)].
    + pose proof (nonempty_length Hne) as Hd.
      destruct (IH b1 (got ++ d) Hinv1) as (out & err & b' & E' & Hinv' & Hcap' & Hres).
      { rewrite length_app. lia. }
      { rewrite Hstr, length_app in Hfuel. lia. }
      exists out, err, b'. split; [exact E'|]. split; [assumption|]. split; [lia|].
      revert Hres. rewrite Hstr, !length_app.
      destruct (Nat.leb_spec (size - (length got + length d)) (length (stream rest b1)));
        destruct (Nat.leb_spec (size - length got) (length d + length (stream rest b1)));
        try lia.
      * intros (-> & -> & ->). repeat split.
        -- rewrite <- app_assoc. f_equal. rewrite firstn_app.
           rewrite (@firstn_all2 _ (size - length got)%nat d) by lia. f_equal. f_equal. lia.
        -- rewrite skipn_app.
           rewrite (@skipn_all2 _ (size - length got)%nat d) by lia. cbn [app]. f_equal. lia.
      * intros (-> & -> & ->). rewrite <- !app_assoc. repeat split.
    + do 3 eexists. split; [reflexivity|]. split; [assumption|]. split; [assumption|].
      rewrite Hstr. cbn [length].
      destruct (Nat.leb_spec (size - length got) 0); [lia|]. auto.
  - do 3 eexists. split; [reflexivity|]. split; [assumption|]. split; [reflexivity|].
    replace (size - length got)%nat with 0%nat by lia. cbn [Nat.leb firstn skipn].
    rewrite app_nil_r. repeat split.
    unfold ReadAtLeast_result. destruct (Nat.leb_spec size (length got)); [reflexivity | lia].
Qed.

Lemma ReadFull_wb fuel b size :
  Inv b -> (length (stream rest b) + 1 <= fuel)%nat ->
  exists out err b',
    ReadFull fuel b size = Done (out, err, b')
    /\ (out, err, stream rest b') = read_full_spec fin size (stream rest b)
    /\ Inv b' /\ bufcap b' = bufcap b.
Proof.
  intros Hinv Hfuel. unfold ReadFull, read_full_spec.
  destruct (@ReadAtLeast_loop_wb size fuel b [] Hinv ltac:(cbn; lia) Hfuel)
    as (out & err & b' & E & Hinv' & Hcap & Hres).
  exists out, err, b'. split; [exact E|].
  cbn [length app] in Hres. rewrite Nat.sub_0_r in Hres.
  destruct (Nat.leb_spec size (length (stream rest b)));
    destruct Hres as (-> & -> & ->); auto.
Qed.

End WellBehaved.

(** ** What the line reader gives the parser *)

Lemma read_slice_spec_shape fin cap R line err R' :
  (0 < cap)%nat ->
  read_slice_spec fin cap R = (line, err, R') ->
  (err = None /\ line <> [] /\ R = line ++ R')
  \/ (err = Some ErrBufferFull /\ line <> [] /\ R = line ++ R')
  \/ (err = Some fin /\ R = line /\ R' = []).
Proof.
  intros Hcap. unfold read_slice_spec.
  pose proof (IndexByte_range (firstn cap R) NL) as Hrg.
  destruct (Z.leb_spec 0 (IndexByte (firstn cap R) NL)) as [Hfound|Hnot].
  - intros [= <- <- <-]. left. split; [reflexivity|].
    unfold slice_to, slice_from. rewrite firstn_skipn. split; [|reflexivity].
    unfold len in Hrg. rewrite length_firstn in Hrg.
    intros Hn. apply (f_equal (@List.length _)) in Hn. rewrite length_firstn in Hn.
    cbn [length] in Hn. lia.
  - destruct (Nat.leb_spec cap (length R)).
    + intros [= <- <- <-]. right. left. split; [reflexivity|].
      rewrite firstn_skipn. split; [|reflexivity].
      intros Hn. apply (f_equal (@List.length _)) in Hn. rewrite length_firstn in Hn.
      cbn [length] in Hn. lia.
    + intros [= <- <- <-]. right. right. auto.
Qed.

Lemma read_line_spec_line fin cap R line R' :
  (0 < cap)%nat ->
  read_line_spec fin cap R = (line, false, None, R') ->
  (length R' < length R)%nat.
Proof.
  intros Hcap. unfold read_line_spec.
  destruct (read_slice_spec fin cap R) as [[l e] R1] eqn:E.
  apply read_slice_spec_shape in E; [|assumption].
  destruct (is_ErrBufferFull e) eqn:Hf.
  { destruct ((0 <? len l) && Ascii.eqb (last_byte l) CR); discriminate. }
  destruct (Z.eqb_spec (len l) 0) as [Hl|Hl].
  - intros [= _ -> <-].
    destruct E as [(_ & Hne & _)|[(He & _)|(He & _)]]; try discriminate.
    destruct l; [congruence|]. unfold len in Hl. cbn in Hl. lia.
  - intros [= _ <-].
    assert (0 < length l)%nat by (unfold len in Hl; destruct l; cbn in *; lia).
    destruct E as [(_ & _ & ->)|[(_ & _ & ->)|(_ & -> & ->)]];
      rewrite ?length_app; cbn [length]; lia.
Qed.

Lemma read_line_spec_error fin cap R line isPrefix e R' :
  (0 < cap)%nat ->
  read_line_spec fin cap R = (line, isPrefix, Some e, R') ->
  e = fin /\ R = [] /\ R' = [].
Proof.
  intros Hcap. unfold read_line_spec.
  destruct (read_slice_spec fin cap R) as [[l e0] R1] eqn:E.
  apply read_slice_spec_shape in E; [|assumption].
  destruct (is_ErrBufferFull e0) eqn:Hf.
  { destruct ((0 <? len l) && Ascii.eqb (last_byte l) CR); discriminate. }
  destruct (Z.eqb_spec (len l) 0) as [Hl|Hl]; [|discriminate].
  intros [= _ _ -> <-].
  assert (l = []) by (unfold len in Hl; destruct l; [reflexivity | cbn in Hl; lia]). subst l.
  destruct E as [(He & _)|[(He & _)|(He & <- & ->)]]; try discriminate.
  - injection He as ->. discriminate.
  - injection He as ->. auto.
Qed.

(** ** Attachment descriptors *)

Lemma increasing_snoc l y :
  increasing l -> (forall x, In x l -> x < y) -> increasing (l ++ [y]).
Proof.
  induction l as [|x l IH]; intros Hinc Hlt; cbn [app increasing]; [auto|].
  cbn [increasing] in Hinc. destruct Hinc as [Hx Hinc].
  split.
  - destruct l as [|x' l']; cbn [app].
    + apply Hlt. left. reflexivity.
    + assumption.
  - apply IH; [assumption|]. intros z Hz. apply Hlt. right. assumption.
Qed.

Lemma files_ok_mono fs p q : files_ok fs p -> p <= q -> files_ok fs q.
Proof.
  intros [Hinc Hall] Hpq. split; [assumption|].
  eapply Forall_impl; [|exact Hall]. cbn. intros f. lia.
Qed.

Lemma files_ok_snoc fs p0 fname start size :
  files_ok fs p0 -> 0 <= p0 < start -> 0 <= size ->
  files_ok (fs ++ [mkAttachment fname start size]) (start + size).
Proof.
  intros [Hinc Hall] Hp Hsz. split.
  - rewrite map_app. cbn [map dataStart]. apply increasing_snoc; [assumption|].
    intros x Hx. apply in_map_iff in Hx. destruct Hx as (f & <- & Hf).
    rewrite Forall_forall in Hall. specialize (Hall f Hf). lia.
  - apply Forall_app. split.
    + eapply Forall_impl; [|exact Hall]. cbn. intros f. lia.
    + constructor; [|constructor]. cbn [dataStart dataLen]. lia.
Qed.

Lemma files_ok_nil p : files_ok [] p.
Proof. split; [exact I | constructor]. Qed.

(** ** Two parses of one stream, cut into reads in two ways *)

Section TwoRuns.
Context `{GoLib} {Src1 Src2 : Type} `{R1 : Reader Src1} `{R2 : Reader Src2}.
Variable rest1 : Src1 -> list ascii.
Variable rest2 : Src2 -> list ascii.
Variable fin : error.
Hypothesis Hwb1 : delivers rest1 fin.
Hypothesis Hwb2 : delivers rest2 fin.
Variable all : list ascii.
Variable srcname : list ascii.

Local Abbreviation Sim := (Sim rest1 rest2 all).
Local Abbreviation pos := (pos rest1 all).
Local Abbreviation flow_sim := (flow_sim rest1 rest2 all).
Local Abbreviation loop_sim := (loop_sim (Src1:=Src1) (Src2:=Src2) all).
Local Abbreviation parsed_sim := (parsed_sim (Src1:=Src1) (Src2:=Src2) all).

Lemma Inv_stream_le b : Inv rest1 all b -> len (stream rest1 b) <= len all.
Proof.
  intros [[Hc Hp Hh Hn Ha Hs] _]. unfold stream. rewrite <- Hh, !len_app.
  unfold len. lia.
Qed.

Lemma Sim_pos_nonneg st1 st2 : Sim st1 st2 -> 0 <= pos st1.
Proof.
  intros (_ & _ & _ & Hi & _). apply Inv_stream_le in Hi. unfold pos. lia.
Qed.

Ltac sim_start :=
  match goal with
  | Hs : Sim ?st1 ?st2 |- _ =>
      let Hm := fresh "Hm" in let Hl := fresh "Hl" in let Hf := fresh "Hf" in
      let Hi1 := fresh "Hi1" in let Hi2 := fresh "Hi2" in
      let Hst := fresh "Hst" in let Hcap := fresh "Hcap" in
      pose proof Hs as (Hm & Hl & Hf & Hi1 & Hi2 & Hst & Hcap)
  end.

Lemma keep_reader_sim st1 st2 m p0 :
  Sim st1 st2 -> files m = files (msg st1) ->
  files_ok (files (msg st1)) p0 -> p0 <= pos st1 ->
  flow_sim st1 (Done (Continue (with_msg st1 m))) (Done (Continue (with_msg st2 m))).
Proof.
  intros Hs Hfs Hok Hp. sim_start. unfold flow_sim.
  split; [|split].
  - unfold Sim. cbn [with_msg msg lineno fileno br]. auto 10.
  - cbn [with_msg msg]. rewrite Hfs. unfold pos. cbn [with_msg br].
    eapply files_ok_mono; eauto.
  - cbn [with_msg br]. lia.
Qed.

Lemma field_subject_sim st1 st2 line p p0 :
  Sim st1 st2 -> files_ok (files (msg st1)) p0 -> p0 <= pos st1 ->
  flow_sim st1 (field_subject st1 line p) (field_subject st2 line p).
Proof.
  intros Hs Hok Hp. sim_start. unfold field_subject. rewrite <- Hm.
  eapply keep_reader_sim; eauto.
Qed.

Lemma field_from_sim st1 st2 line p p0 :
  Sim st1 st2 -> files_ok (files (msg st1)) p0 -> p0 <= pos st1 ->
  flow_sim st1 (field_from srcname st1 line p) (field_from srcname st2 line p).
Proof.
  intros Hs Hok Hp. sim_start. unfold field_from. rewrite <- Hm.
  destruct (Author_Parse (from (msg st1)) (slice_from line p)) as [a [e|]].
  - unfold flow_sim. cbn [with_msg msg lineno]. split; congruence.
  - eapply keep_reader_sim; eauto.
Qed.

Lemma field_to_sim st1 st2 line p p0 :
  Sim st1 st2 -> files_ok (files (msg st1)) p0 -> p0 <= pos st1 ->
  flow_sim st1 (field_to srcname st1 line p) (field_to srcname st2 line p).
Proof.
  intros Hs Hok Hp. sim_start. unfold field_to. rewrite <- Hm.
  destruct (Author_Parse (to (msg st1)) (slice_from line p)) as [a [e|]].
  - unfold flow_sim. cbn [with_msg msg lineno]. split; congruence.
  - eapply keep_reader_sim; eauto.
Qed.

Lemma field_time_sim st1 st2 line p p0 :
  Sim st1 st2 -> files_ok (files (msg st1)) p0 -> p0 <= pos st1 ->
  flow_sim st1 (field_time st1 line p) (field_time st2 line p).
Proof.
  intros Hs Hok Hp. sim_start. unfold field_time. rewrite <- Hm.
  destruct (time_Parse time_layout (TrimSpace (slice_from line p))) as [t|e1].
  - eapply keep_reader_sim; eauto.
  - destruct (time_Parse time_layout_utc (TrimSpace (slice_from line p))) as [t|e2].
    + eapply keep_reader_sim; eauto.
    + unfold flow_sim. auto.
Qed.

Lemma field_body_sim fuel1 fuel2 st1 st2 line p p0 :
  Sim st1 st2 -> files_ok (files (msg st1)) p0 -> p0 <= pos st1 ->
  (length (stream rest1 (br st1)) + 1 <= fuel1)%nat ->
  (length (stream rest1 (br st1)) + 1 <= fuel2)%nat ->
  flow_sim st1 (field_body fuel1 srcname st1 line p) (field_body fuel2 srcname st2 line p).
Proof.
  intros Hs Hok Hp Hf1 Hf2. sim_start. unfold field_body.
  destruct (ParseUint (TrimSpace (slice_from line p)) 64) as [size [e|]].
  { unfold flow_sim. split; congruence. }
  destruct (Z.gtb_spec size MAX_BODY_SIZE).
  { unfold flow_sim. split; congruence. }
  destruct (ReadFull_wb Hwb1 (Z.to_nat size) Hi1 Hf1)
    as (out1 & err1 & b1 & E1 & Hsp1 & Hinv1 & Hc1).
  rewrite Hst in Hf2.
  destruct (ReadFull_wb Hwb2 (Z.to_nat size) Hi2 Hf2)
    as (out2 & err2 & b2 & E2 & Hsp2 & Hinv2 & Hc2).
  rewrite E1, E2. rewrite <- Hst in Hsp2. rewrite <- Hsp1 in Hsp2.
  injection Hsp2 as -> -> Hst'.
  destruct err1 as [e|].
  { unfold flow_sim. cbn [with_msg with_br msg set_body]. split; congruence. }
  destruct (negb (len out1 =? size)).
  { unfold flow_sim. cbn [with_msg with_br msg set_body lineno]. split; congruence. }
  unfold flow_sim. split; [|split].
  - unfold Sim. cbn [with_msg with_br msg lineno fileno br]. rewrite Hm.
    split; [reflexivity|]. split; [assumption|]. split; [assumption|].
    split; [exact Hinv1|]. split; [exact Hinv2|]. split; [symmetry; exact Hst' | lia].
  - cbn [with_msg with_br msg set_body files]. unfold pos. cbn [with_msg with_br br].
    eapply files_ok_mono; [exact Hok|].
    revert Hsp1. unfold read_full_spec, pos in *.
    destruct (Z.to_nat size <=? length (stream rest1 (br st1)))%nat;
      [intros [= _ ->] | intros [= _ _ ->]].
    + unfold len in *. rewrite length_skipn. lia.
    + unfold len in *. cbn [length]. lia.
  - cbn [with_msg with_br br].
    revert Hsp1. unfold read_full_spec.
    destruct (Z.to_nat size <=? length (stream rest1 (br st1)))%nat;
      [intros [= _ ->] | intros [= _ _ ->]].
    + rewrite length_skipn. lia.
    + cbn [length]. lia.
Qed.

Lemma int_range z : - 2 ^ 63 <= int z < 2 ^ 63.
Proof.
  unfold int. pose proof (Z.mod_pos_bound (z + 2 ^ 63) (2 ^ 64) ltac:(lia)). lia.
Qed.

Lemma field_file_sim fuel1 fuel2 st1 st2 line p p0 :
  Sim st1 st2 -> files_ok (files (msg st1)) p0 -> 0 <= p0 < pos st1 ->
  (length (stream rest1 (br st1)) + 1 <= fuel1)%nat ->
  (length (stream rest1 (br st1)) + 1 <= fuel2)%nat ->
  flow_sim st1 (field_file fuel1 srcname st1 line p) (field_file fuel2 srcname st2 line p).
Proof.
  intros Hs Hok Hp Hf1 Hf2. sim_start. unfold field_file.
  set (line' := TrimSpace (slice_from line p)).
  destruct (if negb (IndexByte line' SP =? -1)
            then (TrimSpace (slice_from line' (IndexByte line' SP)),
                  slice_to line' (IndexByte line' SP))
            else ([], line')) as [fname line2].
  destruct (ParseUint line2 64) as [size64 [e|]].
  { unfold slice_from_checked.
    destruct ((0 <=? p) && (p <=? len line2)); unfold flow_sim; cbn [msg lineno];
      [split; congruence | exact I]. }
  cbn [br msg lineno fileno].
  fold (position (br st1)). fold (position (br st2)).
  destruct Hi1 as [Hi1 Hb1]. destruct Hi2 as [Hi2 Hb2].
  rewrite (Inv0_position Hi1), (Inv0_position Hi2). rewrite <- Hst.
  pose proof (int_range size64) as Hsz.
  destruct (Discard_wb Hwb1 (n := int size64) (conj Hi1 Hb1) ltac:(lia) Hf1)
    as (d1 & err1 & b1 & E1 & Hsp1 & Hinv1 & Hc1).
  rewrite Hst in Hf2.
  destruct (Discard_wb Hwb2 (n := int size64) (conj Hi2 Hb2) ltac:(lia) Hf2)
    as (d2 & err2 & b2 & E2 & Hsp2 & Hinv2 & Hc2).
  rewrite E1, E2. rewrite <- Hst in Hsp2. rewrite <- Hsp1 in Hsp2.
  injection Hsp2 as -> -> Hst'.
  destruct (Z.ltb_spec d1 (int size64)) as [Hshort|Hfull].
  { unfold flow_sim. cbn [with_br msg lineno fileno]. split; congruence. }
  destruct err1 as [e|].
  { unfold flow_sim. cbn [with_br msg]. split; congruence. }
  revert Hsp1. unfold discard_spec.
  destruct (Z.ltb_spec (int size64) 0); [discriminate|].
  destruct (Z.leb_spec (int size64) (len (stream rest1 (br st1)))); [|discriminate].
  intros [= -> Hstr1].
  unfold flow_sim. split; [|split].
  - unfold Sim. cbn [with_msg with_br msg lineno fileno br]. rewrite Hm, Hf.
    split; [reflexivity|]. split; [assumption|]. split; [reflexivity|].
    split; [exact Hinv1|]. split; [exact Hinv2|]. split; [symmetry; exact Hst' | lia].
  - cbn [with_msg with_br msg set_files files]. unfold pos in *. cbn [with_msg with_br br].
    rewrite Hstr1. unfold slice_from, len in *. rewrite length_skipn.
    replace (Z.of_nat (length all) -
             Z.of_nat (length (stream rest1 (br st1)) - Z.to_nat (int size64)))
      with (Z.of_nat (length all) - Z.of_nat (length (stream rest1 (br st1))) + int size64)
      by lia.
    apply files_ok_snoc with (p0 := p0); [assumption | lia | lia].
  - cbn [with_msg with_br br]. rewrite Hstr1. unfold slice_from. rewrite length_skipn. lia.
Qed.

Lemma parse_field_sim fuel1 fuel2 st1 st2 line p0 :
  Sim st1 st2 -> files_ok (files (msg st1)) p0 -> 0 <= p0 < pos st1 ->
  (length (stream rest1 (br st1)) + 1 <= fuel1)%nat ->
  (length (stream rest1 (br st1)) + 1 <= fuel2)%nat ->
  flow_sim st1 (parse_field fuel1 srcname st1 line) (parse_field fuel2 srcname st2 line).
Proof.
  intros Hs Hok Hp Hf1 Hf2. sim_start. unfold parse_field.
  assert (Hkeep : flow_sim st1 (Done (Continue st1)) (Done (Continue st2))).
  { unfold flow_sim. split; [assumption|]. split; [|lia].
    eapply files_ok_mono; [exact Hok | lia]. }
  destruct (IndexByte line SP =? 0).
  { unfold flow_sim. split; congruence. }
  destruct ((IndexByte line SP =? -1) && (len line =? 0)); [exact Hkeep|].
  set (p := if IndexByte line SP =? -1 then len line else IndexByte line SP).
  destruct (map_lookup fieldtab (slice_to line p)) as [field|].
  2:{ destruct (HasPrefix (slice_to line p) (B "x-")); [exact Hkeep|].
      unfold flow_sim. split; congruence. }
  destruct (field =? FIELD_SUBJECT); [eapply field_subject_sim; eauto; lia|].
  destruct (field =? FIELD_FROM); [eapply field_from_sim; eauto; lia|].
  destruct (field =? FIELD_TO); [eapply field_to_sim; eauto; lia|].
  destruct (field =? FIELD_TIME); [eapply field_time_sim; eauto; lia|].
  destruct (field =? FIELD_BODY); [eapply field_body_sim; eauto; lia|].
  destruct (field =? FIELD_FILE); [eapply field_file_sim; eauto; lia|].
  exact Hkeep.
Qed.

Lemma Inv_at_end {Src} (rest : Src -> list ascii) (b : bufioReader Src) :
  Inv rest all b -> stream rest b = [] ->
  hash (rd b) = all /\ nread (rd b) = len all.
Proof.
  intros [[Hc Hp Hh Hn Ha Hs] _] Hstr. unfold stream in Hstr.
  apply app_eq_nil in Hstr. destruct Hstr as [_ Hr].
  rewrite Hr, app_nil_r in Hh. rewrite Hn, Hh. auto.
Qed.

Lemma parse_loop_sim k : forall st1 st2 if1 if2 f1 f2,
  (length (stream rest1 (br st1)) <= k)%nat ->
  Sim st1 st2 -> files_ok (files (msg st1)) (pos st1) ->
  (k + 2 <= if1)%nat -> (k + 2 <= if2)%nat ->
  (k + 1 <= f1)%nat -> (k + 1 <= f2)%nat ->
  loop_sim (parse_loop if1 f1 srcname st1) (parse_loop if2 f2 srcname st2).
Proof.
  induction k as [|k IH]; intros st1 st2 if1 if2 f1 f2 Hk Hs Hok Hi1' Hi2' Hf1 Hf2;
    (destruct f1 as [|f1]; [lia|]); (destruct f2 as [|f2]; [lia|]);
    cbn [parse_loop br msg lineno fileno];
    sim_start;
    pose proof (Sim_pos_nonneg Hs) as Hpos0;
    assert (Hrest1 : (length (rest1 (inner (rd (br st1)))) <= length (stream rest1 (br st1)))%nat)
      by (unfold stream; rewrite length_app; lia);
    assert (Hrest2 : (length (rest2 (inner (rd (br st2)))) <= length (stream rest1 (br st1)))%nat)
      by (rewrite Hst; unfold stream; rewrite length_app; lia);
    destruct (ReadLine_wb Hwb1 (fuel := if1) Hi1 ltac:(lia))
      as (line & isP & err & b1 & E1 & Hsp1 & Hinv1 & Hc1);
    destruct (ReadLine_wb Hwb2 (fuel := if2) Hi2 ltac:(lia))
      as (line2 & isP2 & err2 & b2 & E2 & Hsp2 & Hinv2 & Hc2);
    rewrite E1, E2;
    rewrite <- Hst, <- Hcap, <- Hsp1 in Hsp2;
    injection Hsp2 as -> -> -> Hst';
    pose proof Hi1 as [[Hcap0 _ _ _ _ _] _];
    symmetry in Hsp1.
  all: destruct err as [e|].
  all: try (apply (@read_line_spec_error _ _ _ _ _ _ _ Hcap0) in Hsp1;
            destruct Hsp1 as (-> & HR & HR');
            destruct (is_EOF fin) eqn:Heof; unfold loop_sim; cbn [with_br msg br];
            [ split; [reflexivity|]; split; [assumption|]; intros _;
              destruct (Inv_at_end Hinv1 HR') as [Hh1 Hn1];
              rewrite <- Hst' in HR';
              destruct (Inv_at_end Hinv2 HR') as [Hh2 Hn2];
              repeat (split; [assumption|]);
              eapply files_ok_mono; [exact Hok | unfold pos; unfold len; lia]
            | split; [reflexivity|]; split; [assumption|]; discriminate ]).
  all: destruct isP.
  all: try (unfold loop_sim; cbn [with_br msg lineno];
            split; [congruence|]; split; [assumption|]; discriminate).
  all: pose proof (@read_line_spec_line _ _ _ _ _ Hcap0 Hsp1) as Hshrink.
  - lia.
  - set (s1 := with_br {| msg := msg st1; lineno := int (lineno st1 + 1);
                         fileno := fileno st1; br := br st1 |} b1).
    set (s2 := with_br {| msg := msg st2; lineno := int (lineno st2 + 1);
                         fileno := fileno st2; br := br st2 |} b2).
    assert (Hs' : Sim s1 s2).
    { unfold Sim, s1, s2. cbn [with_br msg lineno fileno br]. rewrite Hl.
      split; [exact Hm|]. split; [reflexivity|]. split; [exact Hf|].
      split; [exact Hinv1|]. split; [exact Hinv2|].
      split; [symmetry; exact Hst' | lia]. }
    assert (Hok' : files_ok (files (msg s1)) (pos st1)) by exact Hok.
    assert (Hlt : 0 <= pos st1 < pos s1).
    { unfold pos, s1, len in *. cbn [with_br br]. lia. }
    pose proof (@parse_field_sim if1 if2 s1 s2 line (pos st1) Hs' Hok' Hlt
                  ltac:(unfold s1; cbn [with_br br]; lia)
                  ltac:(unfold s1; cbn [with_br br]; lia)) as Hfs.
    destruct (parse_field if1 srcname s1 line) as [[a|a e1]| |];
      destruct (parse_field if2 srcname s2 line) as [[c|c e2]| |];
      cbn [flow_sim] in Hfs; try contradiction.
    + destruct Hfs as (Hsim & Hokf & Hlen).
      apply IH; try assumption; try lia.
      unfold s1 in Hlen. cbn [with_br br] in Hlen. lia.
    + destruct Hfs as [-> Hmsg]. unfold loop_sim.
      split; [reflexivity|]. split; [assumption|]. discriminate.
    + exact I.
Qed.

Lemma UpdateIdFromTime_keeps m :
  files (fst (UpdateIdFromTime m)) = files m
  /\ subject (fst (UpdateIdFromTime m)) = subject m
  /\ body (fst (UpdateIdFromTime m)) = body m.
Proof.
  unfold UpdateIdFromTime. destruct (Unix (time m) <? idEpochBase); cbn; auto.
Qed.

Lemma start_state_Inv {Src} `{Reader Src} (rest : Src -> list ascii) m (r : Src) bufsize :
  rest r = all -> len all < 2 ^ 63 ->
  Inv rest all (br (start_state m r bufsize))
  /\ stream rest (br (start_state m r bufsize)) = all.
Proof.
  intros Hr Ha. unfold start_state, NewReaderSize, MakeSHA256HashingCountingReader, stream.
  cbn [br pend rd inner app]. split; [|assumption].
  split; [|reflexivity].
  constructor; cbn [bufcap pend rd inner hash nread app length]; try assumption; try lia.
  - destruct (Z.ltb_spec bufsize 16); lia.
  - reflexivity.
Qed.

Lemma ParseReader_sim fuel1 fuel2 m (r1 : Src1) (r2 : Src2) srcsize :
  rest1 r1 = all -> rest2 r2 = all -> len all < 2 ^ 63 -> files m = [] ->
  (length all + 2 <= fuel1)%nat -> (length all + 2 <= fuel2)%nat ->
  parsed_sim (ParseReader fuel1 m r1 srcsize srcname) (ParseReader fuel2 m r2 srcsize srcname).
Proof.
  intros Hr1 Hr2 Ha Hfs Hf1 Hf2. unfold ParseReader.
  destruct (start_state_Inv rest1 m r1 (bufsize_of srcsize) Hr1 Ha) as [Hinv1 Hs1].
  destruct (start_state_Inv rest2 m r2 (bufsize_of srcsize) Hr2 Ha) as [Hinv2 Hs2].
  assert (Hsim : Sim (start_state m r1 (bufsize_of srcsize))
                     (start_state m r2 (bufsize_of srcsize))).
  { unfold Sim. repeat (split; [reflexivity || assumption|]).
    split; [congruence | reflexivity]. }
  pose proof (@parse_loop_sim (length all) _ _ fuel1 fuel2 fuel1 fuel2
                ltac:(rewrite Hs1; lia) Hsim
                ltac:(cbn [start_state msg]; rewrite Hfs; apply files_ok_nil)
                ltac:(lia) ltac:(lia) ltac:(lia) ltac:(lia)) as Hloop.
  destruct (parse_loop fuel1 fuel1 srcname (start_state m r1 (bufsize_of srcsize)))
    as [[a e1]| |];
    destruct (parse_loop fuel2 fuel2 srcname (start_state m r2 (bufsize_of srcsize)))
    as [[c e2]| |]; cbn [loop_sim] in Hloop; try contradiction; [|exact I].
  destruct Hloop as (<- & Hmsg & Hend).
  destruct e1 as [e|].
  - unfold parsed_sim. cbn [p_msg p_err]. split; [assumption|]. split; [reflexivity|].
    discriminate.
  - destruct (Hend eq_refl) as (Hh1 & Hh2 & Hn1 & Hn2 & Hok).
    unfold parsed_sim, finish. rewrite Hh1, Hh2, <- Hmsg.
    destruct (UpdateIdFromTime
                (set_id (msg a) (firstn 4 (id (msg a)) ++ firstn 20 (SHA256.Sum all))))
      as [m' err'] eqn:Eu.
    cbn [p_msg p_err p_cr]. split; [reflexivity|]. split; [reflexivity|].
    intros _. split; [assumption|]. split; [assumption|].
    pose proof (UpdateIdFromTime_keeps
                  (set_id (msg a) (firstn 4 (id (msg a)) ++ firstn 20 (SHA256.Sum all))))
      as (Hk & _).
    rewrite Eu in Hk. cbn [fst set_id files] in Hk. rewrite Hk. assumption.
Qed.

End TwoRuns.

(** The file and the one-byte source keep bytes and errors apart. *)

Lemma file_delivers : delivers remaining EOF.
Proof.
  intros [R] L HL. cbn [remaining]. destruct R as [|c R].
  - exists (File []). split; reflexivity.
  - exists (firstn L (c :: R)), (File (skipn L (c :: R))).
    split; [reflexivity|]. split.
    + destruct L; [lia|]. discriminate.
    + cbn [remaining]. symmetry. apply firstn_skipn.
Qed.

Lemma onebyte_delivers : delivers ob_remaining EOF.
Proof.
  intros [R] L HL. cbn [ob_remaining]. destruct R as [|c R].
  - exists (OneByte []). destruct L; [lia|]. split; reflexivity.
  - exists [c], (OneByte R). destruct L; [lia|].
    split; [reflexivity|]. split; [discriminate | reflexivity].
Qed.

(** ** The base-62 numeral of the specification is the positional one *)

Lemma digit_index r :
  0 <= r < 62 ->
  IndexByte base62Characters (nth (Z.to_nat r) base62Characters zero_byte) = r.
Proof.
  intros Hr. rewrite <- (Z2Nat.id r) at 2 by lia.
  assert (Hn : (Z.to_nat r < 62)%nat) by lia.
  revert Hn. generalize (Z.to_nat r). intros n Hn.
  do 62 (destruct n as [|n]; [reflexivity|]). lia.
Qed.

Lemma decode62_snoc ds c :
  decode62 (ds ++ [c]) = decode62 ds * 62 + IndexByte base62Characters c.
Proof. unfold decode62. rewrite fold_left_app. reflexivity. Qed.

Lemma base62_rev_decodes k : forall v,
  0 <= v < 62 ^ Z.of_nat (S k) -> decode62 (rev (base62_rev (S k) v)) = v.
Proof.
  induction k as [|k IH]; intros v Hv.
  - change (62 ^ Z.of_nat 1) with 62 in Hv. cbn [base62_rev].
    rewrite (Z.div_small v 62) by lia. cbn [Z.eqb rev app].
    unfold decode62. cbn [fold_left]. rewrite digit_index; rewrite Z.mod_small; lia.
  - remember (S k) as k1 eqn:Ek. cbn [base62_rev].
    assert (Hm : 0 <= v mod 62 < 62) by (apply Z.mod_pos_bound; lia).
    pose proof (Z.div_mod v 62 ltac:(lia)) as Hdm.
    destruct (Z.eqb_spec (v / 62) 0) as [Hz|Hnz].
    + cbn [rev app]. unfold decode62. cbn [fold_left]. rewrite digit_index by lia. lia.
    + cbn [rev]. rewrite decode62_snoc, digit_index by lia.
      subst k1. rewrite IH; [lia|].
      split; [apply Z.div_pos; lia|].
      apply Z.div_lt_upper_bound; [lia|].
      replace (62 * 62 ^ Z.of_nat (S k)) with (62 ^ Z.of_nat (S (S k))); [lia|].
      rewrite (Nat2Z.inj_succ (S k)), Z.pow_succ_r by lia. reflexivity.
Qed.

Lemma base62_decodes v : 0 <= v < 62 ^ 33 -> decode62 (base62 v) = v.
Proof. intros Hv. unfold base62. apply (base62_rev_decodes 32). exact Hv. Qed.

(** ** SHA-256 on the two usual test messages *)

Example SHA256_empty :
  map byte_val (SHA256.Sum []) =
  [227; 176; 196; 66; 152; 252; 28; 20; 154; 251; 244; 200; 153; 111; 185; 36;
   39; 174; 65; 228; 100; 155; 147; 76; 164; 149; 153; 27; 120; 82; 184; 85].
Proof. vm_compute. reflexivity. Qed.

Example SHA256_abc :
  map byte_val (SHA256.Sum (B "abc")) =
  [186; 120; 22; 191; 143; 1; 207; 234; 65; 65; 64; 222; 93; 174; 34; 35;
   176; 3; 97; 163; 150; 23; 122; 156; 180; 16; 255; 97; 242; 0; 21; 173].
Proof. vm_compute. reflexivity. Qed.

(** ** One source, any cutting into reads *)

Section OneRun.
Context `{GoLib} {Src : Type} `{Reader Src}.
Variable rest : Src -> list ascii.
Variable fin : error.
Hypothesis Hwb : delivers rest fin.

(** A parse of a source that keeps bytes and errors apart ends, given fuel
    for the length of the stream; when it ends without error the attachment
    offsets increase strictly, every payload lies inside the bytes counted,
    and the count is the length of the stream. *)
Lemma ParseReader_attachments fuel m (r : Src) srcsize srcname :
  len (rest r) < 2 ^ 63 -> files m = [] ->
  (length (rest r) + 2 <= fuel)%nat ->
  match ParseReader fuel m r srcsize srcname with
  | Done p =>
      p_err p = None ->
      nread (p_cr p) = len (rest r)
      /\ increasing (map dataStart (files (p_msg p)))
      /\ Forall (fun f => 0 <= dataStart f /\ 0 <= dataLen f
                          /\ dataStart f + dataLen f <= nread (p_cr p))
                (files (p_msg p))
  | Panic => True
  | OutOfFuel => False
  end.
Proof.
  intros Ha Hfs Hfuel.
  pose proof (@ParseReader_sim _ Src Src _ _ rest rest fin Hwb Hwb (rest r) srcname
                fuel fuel m r r srcsize eq_refl eq_refl Ha Hfs Hfuel Hfuel) as Hsim.
  destruct (ParseReader fuel m r srcsize srcname) as [p| |]; cbn [parsed_sim] in Hsim;
    [|exact I|contradiction].
  destruct Hsim as (_ & _ & Hend). intros He.
  destruct (Hend He) as (Hn & _ & [Hinc Hall]).
  rewrite Hn. auto.
Qed.

End OneRun.

(** Two parses of one stream agree on the message, identifier included,
    and on the error, however the two sources cut the stream into reads, as
    long as both keep bytes and errors apart. *)
Lemma ParseReader_chunking `{GoLib} {Src1 Src2 : Type} `{Reader Src1} `{Reader Src2}
  (rest1 : Src1 -> list ascii) (rest2 : Src2 -> list ascii) (fin : error)
  fuel1 fuel2 m (r1 : Src1) (r2 : Src2) srcsize srcname :
  delivers rest1 fin -> delivers rest2 fin ->
  rest1 r1 = rest2 r2 -> len (rest1 r1) < 2 ^ 63 -> files m = [] ->
  (length (rest1 r1) + 2 <= fuel1)%nat -> (length (rest1 r1) + 2 <= fuel2)%nat ->
  match ParseReader fuel1 m r1 srcsize srcname,
        ParseReader fuel2 m r2 srcsize srcname with
  | Done p1, Done p2 => p_msg p1 = p_msg p2 /\ p_err p1 = p_err p2
  | Panic, Panic => True
  | _, _ => False
  end.
Proof.
  intros Hwb1 Hwb2 Hr Ha Hfs Hf1 Hf2.
  pose proof (@ParseReader_sim _ Src1 Src2 _ _ rest1 rest2 fin Hwb1 Hwb2 (rest1 r1) srcname
                fuel1 fuel2 m r1 r2 srcsize eq_refl (eq_sym Hr) Ha Hfs Hf1 Hf2) as Hsim.
  destruct (ParseReader fuel1 m r1 srcsize srcname) as [p1| |];
    destruct (ParseReader fuel2 m r2 srcsize srcname) as [p2| |];
    cbn [parsed_sim] in Hsim; try contradiction; [|exact I].
  destruct Hsim as (Hm & He & _). auto.
Qed.

(** ** The parser run on small messages *)

Example parse_message_with_attachments :
  exists p,
    parse_text ["subject Hello"; "from Ann@Example.org Ann"; "to bob@example.org";
                "body 5"; "Hello"; "file 3 a.txt"; "abc"; "file 2"; "de"]%string = Done p
    /\ p_err p = None
    /\ subject (p_msg p) = B "Hello"
    /\ from (p_msg p) = mkAuthor (B "ann@example.org") (B "Ann")
    /\ to (p_msg p) = mkAuthor (B "bob@example.org") []
    /\ body (p_msg p) = B "Hello"
    /\ files (p_msg p) = [mkAttachment (B "a.txt") 84 3; mkAttachment [] 95 2]
    /\ nread (p_cr p) = 98
    /\ IdTimestamp (id (p_msg p)) = 1659982143 - idEpochBase.
Proof. eexists. split; [vm_compute; reflexivity|]. repeat split. Qed.

Example parse_unknown_field :
  exists p,
    parse_text ["color red"]%string = Done p
    /\ p_err p = Some (Errorf "%s:%d: unknown field %q"
                         [ArgBytes (B "a.msg"); ArgInt 1; ArgBytes (B "color")]).
Proof. eexists. split; [vm_compute; reflexivity|]. reflexivity. Qed.

Example parse_extension_field :
  exists p,
    parse_text ["x-color red"; "subject Hi"]%string = Done p
    /\ p_err p = None /\ subject (p_msg p) = B "Hi".
Proof. eexists. split; [vm_compute; reflexivity|]. split; reflexivity. Qed.

Example parse_body_too_large :
  exists p,
    parse_text ["subject Hello"; "body 9999999999"; "abc"]%string = Done p
    /\ p_err p = Some (Errorf "%s:%d: body too large (%d)"
                         [ArgBytes (B "a.msg"); ArgInt 2; ArgInt 9999999999])
    /\ body (p_msg p) = [].
Proof. eexists. split; [vm_compute; reflexivity|]. split; reflexivity. Qed.

Example parse_body_beyond_the_end :
  exists p,
    parse_text ["subject Hello"; "body 40"; "abc"]%string = Done p
    /\ p_err p = Some ErrUnexpectedEOF
    /\ body (p_msg p) = [].
Proof. eexists. split; [vm_compute; reflexivity|]. split; reflexivity. Qed.

(** ** What [strconv.ParseUint] accepts in base 10 with 64 bits *)

Lemma decimal_fold_ge cs : forall a,
  0 <= a -> forallb is_digit cs = true ->
  a <= fold_left (fun acc c => acc * 10 + (byte_val c - 48)) cs a.
Proof.
  induction cs as [|c cs IH]; intros a Ha Hd; cbn [fold_left]; [lia|].
  cbn [forallb] in Hd. apply andb_prop in Hd. destruct Hd as [Hc Hd].
  unfold is_digit in Hc. apply andb_prop in Hc. destruct Hc as [H1 H2].
  apply Z.leb_le in H1, H2.
  specialize (IH (a * 10 + (byte_val c - 48)) ltac:(lia) Hd). lia.
Qed.

Lemma parse_digits_digits cs : forall n,
  0 <= n < 2 ^ 64 -> forallb is_digit cs = true ->
  parse_digits cs n (2 ^ 64 - 1) =
  if fold_left (fun acc c => acc * 10 + (byte_val c - 48)) cs n <? 2 ^ 64
  then (fold_left (fun acc c => acc * 10 + (byte_val c - 48)) cs n, None)
  else (2 ^ 64 - 1, Some ErrRange).
Proof.
  induction cs as [|c cs IH]; intros n Hn Hd; cbn [fold_left parse_digits].
  - destruct (Z.ltb_spec n (2 ^ 64)); [reflexivity | lia].
  - cbn [forallb] in Hd. apply andb_prop in Hd. destruct Hd as [Hc Hd].
    pose proof Hc as Hc'. unfold is_digit in Hc'. rewrite Hc'.
    apply andb_prop in Hc'. destruct Hc' as [H1 H2]. apply Z.leb_le in H1, H2.
    set (d := byte_val c - 48) in *.
    assert (Hge : forall a, 0 <= a ->
              a <= fold_left (fun acc c => acc * 10 + (byte_val c - 48)) cs a)
      by (intros a Ha; apply decimal_fold_ge; assumption).
    change (maxUint64 / 10 + 1) with 1844674407370955162.
    destruct (Z.geb_spec n 1844674407370955162) as [Hbig|Hsmall].
    { pose proof (Hge (n * 10 + d) ltac:(lia)).
      destruct (Z.ltb_spec (fold_left (fun acc c => acc * 10 + (byte_val c - 48)) cs
                              (n * 10 + d)) (2 ^ 64)); [lia | reflexivity]. }
    assert (E10 : uint64 (n * 10) = n * 10) by (apply uint64_small; lia).
    rewrite E10.
    destruct (Z.lt_ge_cases (n * 10 + d) (2 ^ 64)) as [Hfit|Hover].
    + assert (E1 : uint64 (n * 10 + d) = n * 10 + d) by (apply uint64_small; lia).
      rewrite E1.
      destruct (Z.ltb_spec (n * 10 + d) (n * 10)); [lia|].
      destruct (Z.gtb_spec (n * 10 + d) (2 ^ 64 - 1)); [lia|].
      cbn [orb]. apply IH; [lia | assumption].
    + assert (E1 : uint64 (n * 10 + d) = n * 10 + d - 2 ^ 64).
      { unfold uint64. symmetry. apply Z.mod_unique with (q := 1); lia. }
      rewrite E1.
      destruct (Z.ltb_spec (n * 10 + d - 2 ^ 64) (n * 10)); [|lia].
      cbn [orb].
      pose proof (Hge (n * 10 + d) ltac:(lia)).
      destruct (Z.ltb_spec (fold_left (fun acc c => acc * 10 + (byte_val c - 48)) cs
                              (n * 10 + d)) (2 ^ 64)); [lia | reflexivity].
Qed.

Lemma parse_digits_not_digits cs : forall n m,
  forallb is_digit cs = false -> snd (parse_digits cs n m) <> None.
Proof.
  induction cs as [|c cs IH]; intros n m Hd; cbn [forallb] in Hd; [discriminate|].
  cbn [parse_digits]. fold (is_digit c).
  destruct (is_digit c); [|cbn [snd]; discriminate].
  cbn [andb] in Hd.
  destruct (n >=? maxUint64 / 10 + 1); [cbn [snd]; discriminate|].
  destruct ((uint64 (uint64 (n * 10) + (byte_val c - 48)) <? uint64 (n * 10))
            || (uint64 (uint64 (n * 10) + (byte_val c - 48)) >? m));
    [cbn [snd]; discriminate|].
  apply IH. assumption.
Qed.

(** [strconv.ParseUint(s, 10, 64)] returns a value exactly for the texts of
    decimal digits, at least one, whose value is below 2^64; the value is
    the decimal value. *)
Lemma ParseUint_decimal s :
  if negb (len s =? 0) && forallb is_digit s && (decimal s <? 2 ^ 64)
  then ParseUint s 64 = (decimal s, None)
  else snd (ParseUint s 64) <> None.
Proof.
  unfold ParseUint.
  change (uint64 (uint64 (Z.shiftl 1 64) - 1)) with (2 ^ 64 - 1).
  destruct s as [|c cs]; [cbn; discriminate|].
  change (negb (len (c :: cs) =? 0)) with (negb (Z.pos (Pos.of_succ_nat (length cs)) =? 0)).
  cbn [Z.eqb negb andb].
  destruct (forallb is_digit (c :: cs)) eqn:Hd; cbn [andb].
  - rewrite parse_digits_digits by (assumption || lia).
    fold (decimal (c :: cs)).
    destruct (decimal (c :: cs) <? 2 ^ 64); [reflexivity | cbn [snd]; discriminate].
  - apply parse_digits_not_digits. assumption.
Qed.

(* ================================================================== *)
(** * The claims *)

(** C1.  For every 24-byte id, [EncodeId] returns one byte too many, and
    so does [IdString]: the byte left of the sentinel in the buffer (a zero
    byte in the 50-byte buffer of [IdString]), then the sentinel ['0'],
    then the base-62 digits of the big-endian value.  The slice
    [dst[n-1:]] starts one byte before the sentinel just written at
    [dst[n]]. *)
Theorem EncodeId_extra_leading_byte (id dst : list ascii) :
  length id = 24%nat -> (50 <= length dst)%nat ->
  EncodeId id dst =
    Done (nth (length dst - length (base62 (be_value id)) - 2) dst zero_byte
            :: spec_EncodeId id)
  /\ IdString id = Done (zero_byte :: spec_EncodeId id)
  /\ decode62 (base62 (be_value id)) = be_value id.
Proof.
  intros Hid Hdst. split; [apply EncodeId_returns; [assumption | lia]|].
  split; [apply IdString_returns; assumption|].
  apply base62_decodes. rewrite <- id_parts_value by assumption.
  apply id_parts_bound.
Qed.

Lemma EncodeId_extra_leading_byte_witness :
  length (repeat zero_byte 24) = 24%nat
  /\ (50 <= length (repeat "x"%char 50))%nat
  /\ EncodeId (repeat zero_byte 24) (repeat "x"%char 50)
     = Done ["x"%char; "0"%char; "0"%char]
  /\ IdString (repeat zero_byte 24) = Done [zero_byte; "0"%char; "0"%char].
Proof.
  split; [reflexivity|]. split; [apply Nat.le_refl|].
  pose proof (EncodeId_extra_leading_byte (repeat zero_byte 24) (repeat "x"%char 50)
                eq_refl (Nat.le_refl 50)) as (He & Hi & _).
  split; [exact He | exact Hi].
Defined.

(** C2.  When the wrapped source answers a read with bytes and an error
    at once (end of stream included), [HashingCountingReader.Read] hands
    the bytes and the error on unchanged but neither counts the bytes nor
    feeds them to the digest: the update sits under [if err == nil]. *)
Theorem HCR_Read_skips_bytes_with_error {Src : Type} `{Reader Src}
  (r : HashingCountingReader Src) (L : nat) (p : list ascii) (e : error) (s' : Src) :
  Read (inner r) L = (p, Some e, s') ->
  HCR_Read r L = (p, Some e, {| inner := s'; nread := nread r; hash := hash r |}).
Proof. apply HCR_Read_err. Qed.

Lemma HCR_Read_skips_bytes_with_error_witness :
  Read (inner (MakeSHA256HashingCountingReader [(B "abc", Some EOF)])) 16
    = (B "abc", Some EOF, [])
  /\ HCR_Read (MakeSHA256HashingCountingReader [(B "abc", Some EOF)]) 16
     = (B "abc", Some EOF, {| inner := []; nread := 0; hash := [] |}).
Proof.
  split; [reflexivity|].
  exact (@HCR_Read_skips_bytes_with_error script _
           (MakeSHA256HashingCountingReader [(B "abc", Some EOF)]) 16
           (B "abc") EOF [] eq_refl).
Defined.

(** C3.  A parse that ends without error with two attachments at the same
    offset: the source gives the first header alone and the second header
    together with [io.EOF]; the bytes of the second read are not counted,
    so [cr.nread - br.Buffered()] is 7 for both attachments. *)
Theorem ParseReader_dataStart_repeats (L : GoLib) :
  exists p,
    ParseReader 16 (set_time freshMessage (mkTime 1659982143))
      [(lines ["file 0"%string], None); (lines ["file 0"%string], Some EOF)]
      100 (B "a.msg") = Done p
    /\ p_err p = None
    /\ map dataStart (files (p_msg p)) = [7; 7]
    /\ ~ increasing (map dataStart (files (p_msg p))).
Proof.
  eexists. split; [vm_compute; reflexivity|].
  cbn [p_err p_msg files map dataStart].
  split; [reflexivity|]. split; [reflexivity|].
  cbn [increasing]. lia.
Qed.

(** C4.  [UpdateIdFromTime] has no upper bound on the time: for every time
    at or after the epoch base it returns no error and writes the offset
    in seconds reduced modulo 2^32 into the first four bytes, so a time
    past 2156-10-20T18:54:55Z is accepted and wraps around. *)
Theorem UpdateIdFromTime_wraps (m : Message) :
  idEpochBase <= Unix (time m) ->
  snd (UpdateIdFromTime m) = None
  /\ IdTimestamp (id (fst (UpdateIdFromTime m))) = (Unix (time m) - idEpochBase) mod 2 ^ 32.
Proof.
  intros Hge. destruct (UpdateIdFromTime_writes m Hge) as (He & Ht & _). auto.
Qed.

Lemma UpdateIdFromTime_wraps_witness :
  idEpochBase <= Unix (time (set_time freshMessage (mkTime 5894967296)))
  /\ snd (UpdateIdFromTime (set_time freshMessage (mkTime 5894967296))) = None
  /\ IdTimestamp (id (fst (UpdateIdFromTime (set_time freshMessage (mkTime 5894967296))))) = 0.
Proof.
  split; [discriminate|].
  exact (UpdateIdFromTime_wraps (set_time freshMessage (mkTime 5894967296))
           ltac:(discriminate)).
Defined.

(** The body case on a size that [strconv.ParseUint] returns: a size above
    8 MiB fails with the body-too-large error and the parser state, reader
    included, is left as it was; a size up to and including 8 MiB is
    accepted: from a source that keeps bytes and errors apart exactly that
    many bytes are read into the body when the stream has them, and the
    parse fails with an empty body when it has not. *)
Theorem field_body_size_limit `{GoLib} {Src : Type} `{Reader Src}
  (fuel : nat) (srcname : list ascii) (st : pstate) (line : list ascii) (p size : Z) :
  ParseUint (TrimSpace (slice_from line p)) 64 = (size, None) ->
  (MAX_BODY_SIZE < size ->
     field_body fuel srcname st line p =
     Done (Return st (Errorf "%s:%d: body too large (%d)"
             [ArgBytes srcname; ArgInt (lineno st); ArgInt size])))
  /\ (size <= MAX_BODY_SIZE ->
      forall (rest : Src -> list ascii) (fin : error) (all : list ascii),
      delivers rest fin -> Inv rest all (br st) ->
      (length (stream rest (br st)) + 1 <= fuel)%nat ->
      if size <=? len (stream rest (br st)) then
        exists st',
          field_body fuel srcname st line p = Done (Continue st')
          /\ body (msg st') = firstn (Z.to_nat size) (stream rest (br st))
          /\ stream rest (br st') = skipn (Z.to_nat size) (stream rest (br st))
      else
        exists st' e,
          field_body fuel srcname st line p = Done (Return st' e)
          /\ body (msg st') = []).
Proof.
  intros Hparse. split.
  { intros Hbig. apply field_body_too_large; assumption. }
  intros Hsmall rest fin all Hwb Hinv Hfuel.
  assert (Hsize : 0 <= size).
  { revert Hparse. unfold ParseUint.
    destruct (TrimSpace (slice_from line p)) as [|c cs]; [discriminate|].
    generalize (c :: cs). intros l.
    assert (Hgen : forall cs n v, 0 <= n -> parse_digits cs n
              (uint64 (uint64 (Z.shiftl 1 64) - 1)) = (v, None) -> 0 <= v).
    { clear. induction cs as [|c cs IH]; intros n v Hn; cbn [parse_digits].
      - intros [= <-]. assumption.
      - destruct ((48 <=? byte_val c) && (byte_val c <=? 57)); [|discriminate].
        destruct (n >=? maxUint64 / 10 + 1); [discriminate|].
        destruct ((uint64 (uint64 (n * 10) + (byte_val c - 48)) <? uint64 (n * 10))
                  || (uint64 (uint64 (n * 10) + (byte_val c - 48))
                      >? uint64 (uint64 (Z.shiftl 1 64) - 1))); [discriminate|].
        apply IH. unfold uint64. apply Z.mod_pos_bound. lia. }
    apply Hgen. lia. }
  unfold field_body. rewrite Hparse.
  destruct (Z.gtb_spec size MAX_BODY_SIZE); [lia|].
  destruct (ReadFull_wb Hwb (Z.to_nat size) Hinv Hfuel)
    as (out & err & b' & E & Hsp & Hinv' & Hc).
  rewrite E. revert Hsp. unfold read_full_spec.
  destruct (Z.leb_spec size (len (stream rest (br st)))) as [Hle|Hgt]; unfold len in *.
  - destruct (Nat.leb_spec (Z.to_nat size) (length (stream rest (br st)))); [|lia].
    intros [= -> -> Hstr].
    assert (Hl : (Z.of_nat (length (firstn (Z.to_nat size) (stream rest (br st))))
                  =? size) = true).
    { apply Z.eqb_eq. rewrite length_firstn. lia. }
    rewrite Hl. cbn [negb]. eexists. split; [reflexivity|].
    cbn [with_msg with_br msg set_body body br]. auto.
  - destruct (Nat.leb_spec (Z.to_nat size) (length (stream rest (br st)))); [lia|].
    intros [= -> -> Hstr].
    unfold ReadAtLeast_result.
    destruct (Nat.leb_spec (Z.to_nat size) (length (stream rest (br st)))); [lia|].
    destruct fin; try (do 2 eexists; split; reflexivity).
    destruct (0 <? length (stream rest (br st)))%nat; do 2 eexists; split; reflexivity.
Qed.

(** C5.  The size of a body header is the text after the keyword, trimmed
    of white space.  When that text is empty, holds a byte that is no
    decimal digit (a sign is one), or is a numeral of 2^64 or more, the
    parse fails with the invalid-integer-size error.  When it is a numeral
    below 2^64 and above 8 MiB, the parse fails with the body-too-large
    error.  Either failure leaves the parser state, reader included, as it
    was: the body case has issued no read.  A numeral up to and including
    8 MiB is accepted: from a source that keeps bytes and errors apart
    exactly that many bytes are read into the body when the stream has
    them, and the parse fails with an empty body when it has not. *)
Theorem field_body_size_check `{GoLib} {Src : Type} `{Reader Src}
  (fuel : nat) (srcname : list ascii) (st : pstate) (line : list ascii) (p : Z) :
  let text := TrimSpace (slice_from line p) in
  (text = [] \/ forallb is_digit text = false \/ 2 ^ 64 <= decimal text ->
     field_body fuel srcname st line p =
     Done (Return st (Errorf "%s:%d: invalid integer size %q"
             [ArgBytes srcname; ArgInt (lineno st); ArgBytes (slice_from line p)])))
  /\ (text <> [] -> forallb is_digit text = true -> decimal text < 2 ^ 64 ->
      MAX_BODY_SIZE < decimal text ->
      field_body fuel srcname st line p =
      Done (Return st (Errorf "%s:%d: body too large (%d)"
              [ArgBytes srcname; ArgInt (lineno st); ArgInt (decimal text)])))
  /\ (text <> [] -> forallb is_digit text = true -> decimal text <= MAX_BODY_SIZE ->
      forall (rest : Src -> list ascii) (fin : error) (all : list ascii),
      delivers rest fin -> Inv rest all (br st) ->
      (length (stream rest (br st)) + 1 <= fuel)%nat ->
      if decimal text <=? len (stream rest (br st)) then
        exists st',
          field_body fuel srcname st line p = Done (Continue st')
          /\ body (msg st') = firstn (Z.to_nat (decimal text)) (stream rest (br st))
          /\ stream rest (br st') = skipn (Z.to_nat (decimal text)) (stream rest (br st))
      else
        exists st' e,
          field_body fuel srcname st line p = Done (Return st' e)
          /\ body (msg st') = []).
Proof.
  intros text. pose proof (ParseUint_decimal text) as Hp.
  assert (Hne : text <> [] -> negb (len text =? 0) = true).
  { intros Hn. destruct text; [contradiction | reflexivity]. }
  split; [|split].
  - intros Hbad.
    assert (Hc : negb (len text =? 0) && forallb is_digit text
                 && (decimal text <? 2 ^ 64) = false).
    { destruct Hbad as [->|[Hd|Hbig]].
      + reflexivity.
      + rewrite Hd, andb_false_r. reflexivity.
      + destruct (Z.ltb_spec (decimal text) (2 ^ 64)); [lia|].
        apply andb_false_r. }
    rewrite Hc in Hp.
    destruct (ParseUint text 64) as [v [e|]] eqn:E; [|contradiction Hp; reflexivity].
    exact (field_body_not_integer fuel srcname st line p E).
  - intros Hn Hd Hfit Hbig.
    rewrite (Hne Hn), Hd in Hp.
    destruct (Z.ltb_spec (decimal text) (2 ^ 64)); [|lia]. cbn [andb] in Hp.
    apply field_body_too_large; assumption.
  - intros Hn Hd Hsmall.
    rewrite (Hne Hn), Hd in Hp.
    destruct (Z.ltb_spec (decimal text) (2 ^ 64));
      [|unfold MAX_BODY_SIZE in Hsmall; lia].
    cbn [andb] in Hp.
    exact (proj2 (field_body_size_limit fuel srcname st line p Hp) Hsmall).
Qed.

(** C6.  [normalizeAndValidateAddress] accepts an address with two '@':
    it only looks for a first one.  Where NFC and lower-casing leave the
    ASCII text [a@b@c] as it is, the text is returned as the normalised
    address and [Author.Parse] stores it. *)
Theorem normalize_keeps_two_separators `{GoLib} :
  NFC_String (B "a@b@c") = B "a@b@c" ->
  strings_ToLower (B "a@b@c") = B "a@b@c" ->
  normalizeAndValidateAddress (B "a@b@c") = (B "a@b@c", None)
  /\ countByte (B "a@b@c") "@"%char = 2
  /\ Author_Parse (mkAuthor [] []) (B " a@b@c") = (mkAuthor (B "a@b@c") [], None).
Proof. apply normalize_two_separators. Qed.

Lemma normalize_keeps_two_separators_witness :
  @NFC_String asciiLib (B "a@b@c") = B "a@b@c"
  /\ @strings_ToLower asciiLib (B "a@b@c") = B "a@b@c"
  /\ @normalizeAndValidateAddress asciiLib (B "a@b@c") = (B "a@b@c", None)
  /\ countByte (B "a@b@c") "@"%char = 2.
Proof.
  split; [reflexivity|]. split; [reflexivity|].
  pose proof (@normalize_keeps_two_separators asciiLib eq_refl eq_refl) as (Hn & Hc & _).
  split; assumption.
Defined.

(** C7.  The buffer size [ParseReader] computes is not the hint rounded
    down to a power of two and capped at 4096: for the hint 4095 it is
    4096, not 2048. *)
Lemma bufsize_of_is_not_the_rounded_hint : bufsize_of 4095 <> spec_bufsize 4095.
Proof. discriminate. Qed.

(** C7, as amended.  For a size hint from 1 on (below the largest int),
    the buffer size computed is the hint plus one, capped at 4096, rounded
    down to a power of two; [bufio.NewReaderSize] raises a size below 16 to
    16; and two hints that give the same size give the same parse. *)
Theorem bufsize_of_hint `{GoLib} {Src : Type} `{Reader Src} (srcsize : Z) :
  1 <= srcsize < 2 ^ 63 - 1 ->
  bufsize_of srcsize = 2 ^ Z.log2 (Z.min (srcsize + 1) 4096)
  /\ (forall m (r : Src),
        bufcap (br (start_state m r (bufsize_of srcsize)))
        = Z.to_nat (Z.max 16 (bufsize_of srcsize)))
  /\ (forall srcsize' fuel m (r : Src) srcname,
        bufsize_of srcsize' = bufsize_of srcsize ->
        ParseReader fuel m r srcsize' srcname = ParseReader fuel m r srcsize srcname).
Proof.
  intros Hs. split; [apply bufsize_of_formula; assumption|]. split.
  - intros m r. unfold start_state, NewReaderSize. cbn [br bufcap].
    destruct (Z.ltb_spec (bufsize_of srcsize) 16); f_equal; lia.
  - intros srcsize' fuel m r srcname E. unfold ParseReader. rewrite E. reflexivity.
Qed.

Lemma bufsize_of_hint_witness :
  1 <= 4095 < 2 ^ 63 - 1 /\ bufsize_of 4095 = 4096.
Proof.
  split; [lia|].
  exact (proj1 (@bufsize_of_hint asciiLib script _ 4095 ltac:(lia))).
Defined.

(** C8.  A header line whose keyword is none of subject, from, to, time,
    body, file: when the keyword begins with [x-] the line is skipped, the
    parser state unchanged; otherwise the parse fails with the
    unknown-field error. *)
Theorem parse_field_unknown_keyword `{GoLib} {Src : Type} `{Reader Src}
  (fuel : nat) (srcname : list ascii) (st : pstate) (line : list ascii) :
  IndexByte line SP <> 0 -> line <> [] ->
  ~ In (slice_to line (if IndexByte line SP =? -1 then len line else IndexByte line SP))
       keywords ->
  parse_field fuel srcname st line =
  if HasPrefix (slice_to line (if IndexByte line SP =? -1 then len line
                               else IndexByte line SP)) (B "x-")
  then Done (Continue st)
  else Done (Return st (Errorf "%s:%d: unknown field %q"
          [ArgBytes srcname; ArgInt (lineno st);
           ArgBytes (slice_to line (if IndexByte line SP =? -1 then len line
                                    else IndexByte line SP))])).
Proof. intros Hp Hl Hk. apply parse_field_unknown; assumption. Qed.

(** C10.  When the read of a declared body fails, whatever the source and
    whatever the failure, the message goes back with a body of length
    zero. *)
Theorem field_body_failure_resets_body `{GoLib} {Src : Type} `{Reader Src}
  (fuel : nat) (srcname : list ascii) (st st' : pstate) (line : list ascii)
  (p size : Z) (e : error) :
  ParseUint (TrimSpace (slice_from line p)) 64 = (size, None) ->
  size <= MAX_BODY_SIZE ->
  field_body fuel srcname st line p = Done (Return st' e) ->
  body (msg st') = [].
Proof.
  intros Hparse Hle E.
  exact (field_body_outcome fuel srcname st line p Hparse Hle E).
Qed.

Lemma field_body_size_limit_witness :
  ParseUint (@TrimSpace asciiLib (slice_from (B "body 5") 4)) 64 = (5, None)
  /\ 5 <= MAX_BODY_SIZE
  /\ delivers remaining EOF
  /\ exists st',
       @field_body asciiLib file _ 8 (B "a.msg")
         (start_state freshMessage (File (B "Hello")) 64) (B "body 5") 4
       = Done (Continue st')
       /\ body (msg st') = B "Hello"
       /\ stream remaining (br st') = [].
Proof.
  split; [reflexivity|]. split; [discriminate|]. split; [exact file_delivers|].
  exact (proj2 (@field_body_size_limit asciiLib file _ 8 (B "a.msg")
                  (start_state freshMessage (File (B "Hello")) 64) (B "body 5") 4 5 eq_refl)
           ltac:(discriminate) remaining EOF (B "Hello") file_delivers
           (proj1 (@start_state_Inv (B "Hello") file _ remaining freshMessage
                     (File (B "Hello")) 64 eq_refl ltac:(vm_compute; reflexivity)))
           ltac:(vm_compute; lia)).
Defined.

Lemma field_body_size_check_witness :
  @field_body asciiLib file _ 8 (B "a.msg")
       (start_state freshMessage (File (B "Hello")) 64) (B "body 18446744073709551616") 4
     = Done (Return (start_state freshMessage (File (B "Hello")) 64)
               (Errorf "%s:%d: invalid integer size %q"
                  [ArgBytes (B "a.msg"); ArgInt 0; ArgBytes (B " 18446744073709551616")]))
  /\ @field_body asciiLib file _ 8 (B "a.msg")
       (start_state freshMessage (File (B "Hello")) 64) (B "body -1") 4
     = Done (Return (start_state freshMessage (File (B "Hello")) 64)
               (Errorf "%s:%d: invalid integer size %q"
                  [ArgBytes (B "a.msg"); ArgInt 0; ArgBytes (B " -1")]))
  /\ @field_body asciiLib file _ 8 (B "a.msg")
       (start_state freshMessage (File (B "Hello")) 64) (B "body 9999999999") 4
     = Done (Return (start_state freshMessage (File (B "Hello")) 64)
               (Errorf "%s:%d: body too large (%d)"
                  [ArgBytes (B "a.msg"); ArgInt 0; ArgInt 9999999999]))
  /\ @field_body asciiLib file _ 8 (B "a.msg")
       (start_state freshMessage (File (B "Hello")) 64) (B "body 8388609") 4
     = Done (Return (start_state freshMessage (File (B "Hello")) 64)
               (Errorf "%s:%d: body too large (%d)"
                  [ArgBytes (B "a.msg"); ArgInt 0; ArgInt 8388609]))
  /\ (exists st' e,
        @field_body asciiLib file _ 8 (B "a.msg")
          (start_state freshMessage (File (B "Hello")) 64) (B "body 8388608") 4
        = Done (Return st' e)
        /\ body (msg st') = [])
  /\ (exists st',
        @field_body asciiLib file _ 8 (B "a.msg")
          (start_state freshMessage (File (B "Hello")) 64) (B "body 5") 4
        = Done (Continue st')
        /\ body (msg st') = B "Hello"
        /\ stream remaining (br st') = []).
Proof.
  set (st := start_state freshMessage (File (B "Hello")) 64).
  assert (Hinv : Inv remaining (B "Hello") (br st))
    by exact (proj1 (@start_state_Inv (B "Hello") file _ remaining freshMessage
                       (File (B "Hello")) 64 eq_refl ltac:(vm_compute; reflexivity))).
  assert (Hfuel : (length (stream remaining (br st)) + 1 <= 8)%nat)
    by (vm_compute; lia).
  split.
  { pose proof (@field_body_size_check asciiLib file _ 8 (B "a.msg") st
                  (B "body 18446744073709551616") 4) as T.
    cbv zeta in T. destruct T as [T _]. apply T.
    right; right. vm_compute. discriminate. }
  split.
  { pose proof (@field_body_size_check asciiLib file _ 8 (B "a.msg") st
                  (B "body -1") 4) as T.
    cbv zeta in T. destruct T as [T _]. apply T.
    right; left. reflexivity. }
  split.
  { pose proof (@field_body_size_check asciiLib file _ 8 (B "a.msg") st
                  (B "body 9999999999") 4) as T.
    cbv zeta in T. destruct T as [_ [T _]].
    apply T; [discriminate | reflexivity | reflexivity | reflexivity]. }
  split.
  { pose proof (@field_body_size_check asciiLib file _ 8 (B "a.msg") st
                  (B "body 8388609") 4) as T.
    cbv zeta in T. destruct T as [_ [T _]].
    apply T; [discriminate | reflexivity | reflexivity | reflexivity]. }
  split.
  { pose proof (@field_body_size_check asciiLib file _ 8 (B "a.msg") st
                  (B "body 8388608") 4) as T.
    cbv zeta in T. destruct T as [_ [_ T]].
    specialize (T ltac:(discriminate) eq_refl ltac:(vm_compute; discriminate)
                  remaining EOF (B "Hello") file_delivers Hinv Hfuel).
    exact T. }
  pose proof (@field_body_size_check asciiLib file _ 8 (B "a.msg") st
                (B "body 5") 4) as T.
  cbv zeta in T. destruct T as [_ [_ T]].
  specialize (T ltac:(discriminate) eq_refl ltac:(vm_compute; discriminate)
                remaining EOF (B "Hello") file_delivers Hinv Hfuel).
  exact T.
Defined.

(** A declared size above 8 MiB that is no body-too-large failure, and a
    body-too-large failure after payload bytes have left the source.  The
    size 18446744073709551616 is above 8 MiB and fails with the
    invalid-integer-size error.  In the message below the headers take 30
    bytes; when the size 9999999999 is refused, 32 bytes have been read
    from the source, the payload bytes [ab] among them: the buffered
    reader took them in together with the header line. *)
Lemma body_too_large_is_not_the_whole_story :
  (MAX_BODY_SIZE < decimal (B "18446744073709551616")
   /\ @field_body asciiLib file _ 8 (B "a.msg")
        (start_state freshMessage (File (B "abc")) 64)
        (B "body 18446744073709551616") 4
      = Done (Return (start_state freshMessage (File (B "abc")) 64)
                (Errorf "%s:%d: invalid integer size %q"
                   [ArgBytes (B "a.msg"); ArgInt 0;
                    ArgBytes (B " 18446744073709551616")])))
  /\ (len (lines ["subject Hello"; "body 9999999999"]%string) = 30
      /\ exists p,
           @ParseReader asciiLib file _ 200 (set_time freshMessage (mkTime 1659982143))
             (File (lines ["subject Hello"; "body 9999999999"; "abc"]%string)) 34
             (B "a.msg")
           = Done p
           /\ p_err p = Some (Errorf "%s:%d: body too large (%d)"
                                [ArgBytes (B "a.msg"); ArgInt 2; ArgInt 9999999999])
           /\ nread (p_cr p) = 32
           /\ remaining (inner (p_cr p)) = lines ["c"%string]).
Proof.
  split; [split; [reflexivity | vm_compute; reflexivity]|].
  split; [reflexivity|].
  destruct (@ParseReader asciiLib file _ 200 (set_time freshMessage (mkTime 1659982143))
              (File (lines ["subject Hello"; "body 9999999999"; "abc"]%string)) 34
              (B "a.msg")) as [p| |] eqn:E;
    [| vm_compute in E; discriminate E | vm_compute in E; discriminate E].
  exists p. split; [reflexivity|].
  vm_compute in E. injection E as <-.
  repeat split.
Qed.

Lemma parse_field_unknown_keyword_witness :
  IndexByte (B "color red") SP <> 0
  /\ @parse_field asciiLib file _ 8 (B "a.msg")
       (start_state freshMessage (File []) 64) (B "color red")
     = Done (Return (start_state freshMessage (File []) 64)
               (Errorf "%s:%d: unknown field %q"
                  [ArgBytes (B "a.msg"); ArgInt 0; ArgBytes (B "color")])).
Proof.
  split; [discriminate|].
  refine (@parse_field_unknown_keyword asciiLib file _ 8 (B "a.msg")
            (start_state freshMessage (File []) 64) (B "color red") _ _ _).
  - discriminate.
  - discriminate.
  - vm_compute. intros Hin.
    repeat (destruct Hin as [Hin|Hin]; [discriminate Hin|]). exact Hin.
Defined.

Lemma field_body_failure_resets_body_witness :
  exists st' e,
    @field_body asciiLib file _ 8 (B "a.msg")
      (start_state (set_body freshMessage (B "old")) (File (B "Hello")) 64) (B "body 7") 4
    = Done (Return st' e)
    /\ e = ErrUnexpectedEOF
    /\ body (msg st') = [].
Proof.
  do 2 eexists. split; [vm_compute; reflexivity|]. split; [reflexivity|].
  refine (@field_body_failure_resets_body asciiLib file _ 8 (B "a.msg")
            (start_state (set_body freshMessage (B "old")) (File (B "Hello")) 64) _
            (B "body 7") 4 7 ErrUnexpectedEOF _ _ _).
  - reflexivity.
  - discriminate.
  - vm_compute. reflexivity.
Defined.

(** C9.  Two parses of the same bytes into fresh messages with the same
    time, ending without error, with different identifiers: one source
    gives the bytes and then [io.EOF], the other gives them together with
    [io.EOF]; the second digest is the digest of no bytes at all. *)
Theorem ParseReader_digest_follows_the_reads (L : GoLib) :
  exists p1 p2,
    ParseReader 16 (set_time freshMessage (mkTime 1659982143))
      [(lines ["subject a"%string], None)] 100 (B "a.msg") = Done p1
    /\ ParseReader 16 (set_time freshMessage (mkTime 1659982143))
         [(lines ["subject a"%string], Some EOF)] 100 (B "a.msg") = Done p2
    /\ p_err p1 = None /\ p_err p2 = None
    /\ subject (p_msg p1) = subject (p_msg p2)
    /\ skipn 4 (id (p_msg p1)) = firstn 20 (SHA256.Sum (lines ["subject a"%string]))
    /\ skipn 4 (id (p_msg p2)) = firstn 20 (SHA256.Sum [])
    /\ id (p_msg p1) <> id (p_msg p2).
Proof.
  do 2 eexists.
  split; [vm_compute; reflexivity|]. split; [vm_compute; reflexivity|].
  cbn [p_err p_msg subject id].
  split; [reflexivity|]. split; [reflexivity|]. split; [reflexivity|].
  split; [vm_compute; reflexivity|]. split; [vm_compute; reflexivity|].
  discriminate.
Qed.

(* ================================================================== *)
(** * Lemmas for the further properties *)

(** ** The identifier codec *)

Lemma byte_val_inj (a b : ascii) : byte_val a = byte_val b -> a = b.
Proof.
  unfold byte_val. intros E. apply N2Z.inj in E.
  rewrite <- (ascii_N_embedding a), <- (ascii_N_embedding b). congruence.
Qed.

Lemma be_fold_acc (bs : list ascii) : forall acc,
  fold_left (fun a b => a * 256 + byte_val b) bs acc
  = acc * 256 ^ len bs + be_value bs.
Proof.
  unfold be_value.
  induction bs as [|b bs IH]; intros acc.
  - cbn. lia.
  - cbn [fold_left]. rewrite IH. rewrite (IH (0 * 256 + byte_val b)).
    unfold len. cbn [length]. rewrite Nat2Z.inj_succ, Z.pow_succ_r by lia. ring.
Qed.

Lemma be_value_range (bs : list ascii) : 0 <= be_value bs < 256 ^ len bs.
Proof.
  induction bs as [|b bs IH].
  - cbn. lia.
  - unfold be_value. cbn [fold_left]. rewrite be_fold_acc.
    pose proof (byte_val_range b).
    unfold len in *. cbn [length]. rewrite Nat2Z.inj_succ, Z.pow_succ_r by lia.
    nia.
Qed.

Lemma be_value_inj (a : list ascii) : forall b,
  length a = length b -> be_value a = be_value b -> a = b.
Proof.
  induction a as [|x a IH]; intros [|y b] Hl Hv; try discriminate; [reflexivity|].
  injection Hl as Hl.
  unfold be_value in Hv. cbn [fold_left] in Hv. rewrite !be_fold_acc in Hv.
  pose proof (be_value_range a) as Ha. pose proof (be_value_range b) as Hb.
  unfold len in *. rewrite <- Hl in *.
  pose proof (byte_val_range x). pose proof (byte_val_range y).
  assert (byte_val x = byte_val y) by nia.
  assert (be_value a = be_value b) by nia.
  f_equal; [apply byte_val_inj; assumption | apply IH; assumption].
Qed.

Lemma base62_rev_S k v :
  base62_rev (S k) v =
  nth (Z.to_nat (v mod 62)) base62Characters zero_byte
    :: (if v / 62 =? 0 then [] else base62_rev k (v / 62)).
Proof. reflexivity. Qed.

(** The outer loop of [EncodeId] on a buffer of any length: it writes the
    digits when they fit and panics when they do not. *)
Lemma encode_loop_run k : forall bp n dst,
  bp <> [] -> Forall word_ok bp ->
  words_val 0 bp < 62 ^ Z.of_nat (S k) ->
  (n <= length dst)%nat ->
  let digs := base62_rev (S k) (words_val 0 bp) in
  encode_loop n bp dst =
  if (length digs <=? n)%nat
  then Done ((n - length digs)%nat,
             firstn (n - length digs) dst ++ rev digs ++ skipn n dst)
  else Panic.
Proof.
  induction k as [|k IH]; intros bp n dst Hne Hbp Hlt Hn digs;
    (destruct bp as [|c bp]; [congruence|]);
    pose proof (@divide_words_spec (c :: bp) [] 0 Hbp (Forall_nil _) I ltac:(lia)) as Hdiv;
    assert (Hd1 : (1 <= length digs)%nat) by apply base62_rev_nonempty.
  - destruct n as [|n].
    { cbn [encode_loop]. destruct (divide_words (c :: bp) [] 0) as [q r].
      destruct (Nat.leb_spec (length digs) 0); [lia | reflexivity]. }
    cbn [encode_loop].
    destruct (divide_words (c :: bp) [] 0) as [q r].
    destruct Hdiv as (Hval & Hq & Hcan & Hr).
    change (words_val (words_val 0 [] * 62 + 0) (c :: bp)) with (words_val 0 (c :: bp)) in Hval.
    subst digs. set (v := words_val 0 (c :: bp)) in *.
    assert (Hv0 : 0 <= v) by (apply (@words_val_mono 0 (c :: bp)); [lia|assumption]).
    change (62 ^ Z.of_nat 1) with 62 in Hlt.
    assert (q = []).
    { destruct q as [|h t]; [reflexivity|].
      pose proof (@canon_val_pos (h :: t) Hcan Hq ltac:(congruence)). lia. }
    subst q. assert (r = v) by (change (words_val 0 []) with 0 in Hval; lia). subst r.
    rewrite set_index_spec by lia. cbn [encode_loop].
    rewrite (base62_rev_S 0 v).
    rewrite (Z.mod_small v 62) by lia. rewrite (Z.div_small v 62) by lia.
    cbn [Z.eqb length rev app Nat.leb]. rewrite encode_loop_nil.
    replace (S n - 1)%nat with n by lia. reflexivity.
  - destruct n as [|n].
    { cbn [encode_loop]. destruct (divide_words (c :: bp) [] 0) as [q r].
      destruct (Nat.leb_spec (length digs) 0); [lia | reflexivity]. }
    cbn [encode_loop].
    destruct (divide_words (c :: bp) [] 0) as [q r].
    destruct Hdiv as (Hval & Hq & Hcan & Hr).
    change (words_val (words_val 0 [] * 62 + 0) (c :: bp)) with (words_val 0 (c :: bp)) in Hval.
    subst digs. set (v := words_val 0 (c :: bp)) in *.
    assert (Hv0 : 0 <= v) by (apply (@words_val_mono 0 (c :: bp)); [lia|assumption]).
    assert (Hqv0 : 0 <= words_val 0 q) by (apply (@words_val_mono 0 q); [lia|assumption]).
    assert (Hdiv : v / 62 = words_val 0 q /\ v mod 62 = r).
    { symmetry in Hval. rewrite Z.mul_comm in Hval.
      split; [symmetry; eapply Z.div_unique_pos | symmetry; eapply Z.mod_unique_pos]; eauto. }
    destruct Hdiv as [Hdq Hdr].
    rewrite set_index_spec by lia.
    rewrite (base62_rev_S (S k) v). rewrite Hdr.
    destruct (Z.eqb_spec (v / 62) 0) as [Hz|Hnz].
    + assert (q = []).
      { destruct q as [|h t]; [reflexivity|].
        pose proof (@canon_val_pos (h :: t) Hcan Hq ltac:(congruence)). lia. }
      subst q. cbn [length rev app Nat.leb]. rewrite encode_loop_nil.
      replace (S n - 1)%nat with n by lia. reflexivity.
    + assert (Hqne : q <> []).
      { intros ->. change (words_val 0 []) with 0 in Hdq. lia. }
      assert (Hqlt : words_val 0 q < 62 ^ Z.of_nat (S k)).
      { rewrite <- Hdq. apply Z.div_lt_upper_bound; [lia|].
        replace (62 * 62 ^ Z.of_nat (S k)) with (62 ^ Z.of_nat (S (S k))); [assumption|].
        rewrite (Nat2Z.inj_succ (S k)). rewrite Z.pow_succ_r by lia. reflexivity. }
      assert (Hlen : length (firstn n dst ++
                 nth (Z.to_nat r) base62Characters zero_byte :: skipn (S n) dst) = length dst).
      { rewrite length_app. cbn [length]. rewrite length_firstn, length_skipn. lia. }
      rewrite (IH q n _ Hqne Hq Hqlt) by (rewrite Hlen; lia).
      rewrite Hdq.
      set (digs' := base62_rev (S k) (words_val 0 q)). clearbody digs'.
      cbn [length rev Nat.leb].
      destruct (Nat.leb_spec (length digs') n) as [Hfit|Hshort]; [|reflexivity].
      replace (S n - S (length digs'))%nat with (n - length digs')%nat by lia.
      f_equal. f_equal.
      rewrite firstn_app, firstn_firstn.
      rewrite length_firstn.
      replace (Nat.min (n - length digs') n) with (n - length digs')%nat by lia.
      replace (n - length digs' - Nat.min n (length dst))%nat with 0%nat by lia.
      cbn [firstn]. rewrite app_nil_r.
      rewrite <- app_assoc. f_equal.
      rewrite skipn_app, length_firstn.
      replace (n - Nat.min n (length dst))%nat with 0%nat by lia.
      rewrite skipn_all2 by (rewrite length_firstn; lia).
      reflexivity.
Qed.

Lemma base62_length v : (1 <= length (base62 v) <= 33)%nat.
Proof.
  unfold base62. rewrite length_rev.
  pose proof (base62_rev_length 33 v). pose proof (base62_rev_nonempty 32 v). lia.
Qed.

(** [EncodeId] on a buffer of any length. *)
Lemma EncodeId_run id dst :
  length id = 24%nat ->
  EncodeId id dst =
  if (length (base62 (be_value id)) + 2 <=? length dst)%nat
  then Done (nth (length dst - length (base62 (be_value id)) - 2) dst zero_byte
               :: spec_EncodeId id)
  else Panic.
Proof.
  intros Hid. unfold EncodeId. fold (id_parts id).
  pose proof (id_parts_bound id) as Hb.
  assert (Hne : id_parts id <> []) by (unfold id_parts; discriminate).
  assert (Hlt : words_val 0 (id_parts id) < 62 ^ Z.of_nat 33) by apply Hb.
  rewrite (@encode_loop_run 32 (id_parts id) (length dst) dst Hne (id_parts_ok id) Hlt
             (Nat.le_refl _)).
  clear Hne Hlt Hb.
  rewrite id_parts_value by assumption.
  unfold spec_EncodeId, base62. rewrite length_rev.
  set (digs := base62_rev 33 (be_value id)).
  destruct (Nat.leb_spec (length digs) (length dst)) as [Hfit|Hshort].
  2:{ destruct (Nat.leb_spec (length digs + 2) (length dst)); [lia | reflexivity]. }
  rewrite skipn_all, app_nil_r.
  destruct (Nat.leb_spec (length digs + 2) (length dst)) as [Hfit2|Hshort2].
  - destruct (@split_buffer dst (length digs) ltac:(lia)) as (P & x & y & tl & E & Htl & HP).
    rewrite <- HP.
    assert (Hlen : length dst = (length P + 2 + length digs)%nat).
    { rewrite E at 1. rewrite length_app. cbn [length]. lia. }
    replace (length dst - length digs)%nat with (S (S (length P))) by lia.
    assert (Hf : firstn (S (S (length P))) dst = P ++ [x; y]).
    { rewrite E. replace (S (S (length P))) with (length P + 2)%nat by lia.
      rewrite firstn_app_2. reflexivity. }
    rewrite Hf.
    replace ((P ++ [x; y]) ++ rev digs) with ((P ++ [x]) ++ y :: rev digs)
      by (rewrite <- !app_assoc; reflexivity).
    assert (HPx : length (P ++ [x]) = S (length P)) by (rewrite length_app; cbn [length]; lia).
    rewrite <- HPx at 1.
    rewrite set_index_spec by (rewrite !length_app; cbn [length]; lia).
    replace (length (P ++ [x])) with (length (P ++ [x]) + 0)%nat at 1 by lia.
    rewrite firstn_app_2. cbn [firstn]. rewrite app_nil_r.
    replace (S (length (P ++ [x]))) with (length (P ++ [x]) + 1)%nat by lia.
    assert (Hs1 : skipn (length (P ++ [x]) + 1) ((P ++ [x]) ++ y :: rev digs) = rev digs).
    { rewrite skipn_app, skipn_all2 by lia.
      replace (length (P ++ [x]) + 1 - length (P ++ [x]))%nat with 1%nat by lia.
      reflexivity. }
    rewrite Hs1. rewrite <- app_assoc.
    rewrite skipn_app, skipn_all, Nat.sub_diag. cbn [skipn app].
    f_equal. f_equal.
    rewrite E. rewrite app_nth2 by lia. rewrite Nat.sub_diag. reflexivity.
  - (* the digits fit, the sentinel or the byte before it does not *)
    destruct (length dst - length digs)%nat as [|[|n2]] eqn:En; [reflexivity| |lia].
    assert (Hd : dst <> []).
    { intros ->. cbn [length] in *. lia. }
    destruct dst as [|x tl]; [congruence|].
    cbn [firstn app set_index]. reflexivity.
Qed.

(** ** Times and identifiers *)

Lemma UpdateIdFromTime_in_range m :
  idEpochBase <= Unix (time m) < idEpochBase + 2 ^ 32 ->
  Unix (IdTime (id (fst (UpdateIdFromTime m)))) = Unix (time m).
Proof.
  intros Hr.
  destruct (UpdateIdFromTime_writes m ltac:(lia)) as (_ & Ht & _).
  unfold IdTime. cbn [Unix]. rewrite Ht. rewrite Z.mod_small by lia. lia.
Qed.

(** ** util.go *)

Lemma countByte_app s t c : countByte (s ++ t) c = countByte s c + countByte t c.
Proof.
  induction s as [|x s IH]; cbn [app countByte]; [lia|].
  destruct (Ascii.eqb x c); lia.
Qed.

Lemma countByte_le s c : countByte s c <= len s.
Proof.
  unfold len. induction s as [|x s IH]; cbn [countByte length]; [lia|].
  destruct (Ascii.eqb x c); lia.
Qed.

Lemma countByte_zero s c : countByte s c = 0 <-> IndexByte s c = -1.
Proof.
  rewrite IndexByte_none.
  induction s as [|x s IH]; cbn [countByte In]; [tauto|].
  pose proof (countByte_nonneg s c).
  destruct (Ascii.eqb_spec x c) as [->|Hne]; split; intros Hc.
  - lia.
  - exfalso. apply Hc. left. reflexivity.
  - intros [Hx|Hin]; [congruence | apply IH in Hc; contradiction].
  - apply IH. intros Hin. apply Hc. right. assumption.
Qed.

Lemma LastIndexByte_none s c : ~ In c s -> LastIndexByte s c = -1.
Proof.
  induction s as [|x s IH]; intros Hn; cbn [LastIndexByte]; [reflexivity|].
  rewrite IH by (intros Hin; apply Hn; right; assumption).
  cbn [Z.eqb negb]. destruct (Ascii.eqb_spec x c) as [->|]; [|reflexivity].
  exfalso. apply Hn. left. reflexivity.
Qed.

Lemma LastIndexByte_last s t c : ~ In c t -> LastIndexByte (s ++ c :: t) c = len s.
Proof.
  intros Hn. unfold len.
  induction s as [|x s IH]; cbn [app LastIndexByte length].
  - rewrite LastIndexByte_none by assumption. cbn [Z.eqb negb].
    rewrite Ascii.eqb_refl. reflexivity.
  - rewrite IH. destruct (Z.eqb_spec (Z.of_nat (length s)) (-1)); [lia|].
    cbn [negb]. lia.
Qed.

Lemma skipn_app_cons {A} (s : list A) x t : skipn (length s + 1) (s ++ x :: t) = t.
Proof.
  rewrite skipn_app, skipn_all2 by lia.
  replace (length s + 1 - length s)%nat with 1%nat by lia. reflexivity.
Qed.

Lemma nth_app_cons {A} (s : list A) x t d : nth (length s) (s ++ x :: t) d = x.
Proof. rewrite app_nth2 by lia. rewrite Nat.sub_diag. reflexivity. Qed.

Lemma HasPrefix_app s t : HasPrefix (s ++ t) s = true.
Proof.
  unfold HasPrefix. apply bytes_eqb_eq.
  replace (length s) with (length s + 0)%nat by lia.
  rewrite firstn_app_2. cbn [firstn]. apply app_nil_r.
Qed.

Lemma HasPrefix_split s p : HasPrefix s p = true -> s = p ++ skipn (length p) s.
Proof.
  unfold HasPrefix. intros E. apply bytes_eqb_eq in E.
  rewrite <- E at 1. symmetry. apply firstn_skipn.
Qed.

(** ** File names *)

Lemma last_app_nonempty {A} (s t : list A) d : t <> [] -> last (s ++ t) d = last t d.
Proof.
  intros Ht. induction s as [|x s IH]; [reflexivity|].
  cbn [app]. change (last (x :: s ++ t) d) with
    (match s ++ t with [] => x | _ => last (s ++ t) d end).
  destruct (s ++ t) eqn:E; [|exact IH].
  apply app_eq_nil in E. destruct E. contradiction.
Qed.

Lemma last_In {A} (t : list A) d : t <> [] -> In (last t d) t.
Proof.
  induction t as [|x t IH]; [congruence|]. intros _.
  destruct t as [|y t]; [left; reflexivity|].
  right. apply IH. discriminate.
Qed.

Lemma strip_separators_none n path :
  path <> [] -> last path zero_byte <> PathSeparator -> strip_separators n path = path.
Proof.
  intros Hne Hl. destruct n as [|n]; [reflexivity|]. cbn [strip_separators].
  destruct (Ascii.eqb_spec (last path zero_byte) PathSeparator); [contradiction|].
  rewrite andb_false_r. reflexivity.
Qed.

(** [filepath.Base] of a path that ends in a name. *)
Lemma Base_name dir name :
  name <> [] -> ~ In PathSeparator name ->
  Base (dir ++ PathSeparator :: name) = name /\ Base name = name.
Proof.
  intros Hne Hn.
  assert (Hl : last name zero_byte <> PathSeparator).
  { intros E. apply Hn. rewrite <- E. apply last_In. assumption. }
  split.
  - unfold Base.
    destruct (dir ++ PathSeparator :: name) as [|c l] eqn:E.
    { apply app_eq_nil in E. destruct E. discriminate. }
    rewrite <- E. clear E c l.
    rewrite strip_separators_none.
    + rewrite LastIndexByte_last by assumption.
      destruct (Z.leb_spec 0 (len dir)) as [_|Hneg]; [|unfold len in Hneg; lia].
      unfold slice_from, len.
      replace (Z.to_nat (Z.of_nat (length dir) + 1)) with (length dir + 1)%nat by lia.
      rewrite skipn_app_cons. destruct name; [congruence | reflexivity].
    + intros E. apply app_eq_nil in E. destruct E. discriminate.
    + rewrite (@last_app_nonempty _ dir (PathSeparator :: name)) by discriminate.
      change (PathSeparator :: name) with ([PathSeparator] ++ name).
      rewrite last_app_nonempty by assumption. assumption.
  - unfold Base. destruct name as [|c l] eqn:E; [congruence|]. rewrite <- E in *.
    rewrite strip_separators_none by assumption.
    rewrite LastIndexByte_none by assumption. cbn [Z.leb Z.compare Z.opp].
    rewrite E. reflexivity.
Qed.

Lemma IndexByte_first s t c : ~ In c s -> IndexByte (s ++ c :: t) c = len s.
Proof.
  intros Hn. rewrite IndexByte_app_none by (apply IndexByte_none; assumption).
  cbn [IndexByte]. rewrite Ascii.eqb_refl. cbn [Z.eqb]. lia.
Qed.

Lemma firstn_app_exact {A} (s t : list A) : firstn (length s) (s ++ t) = s.
Proof.
  replace (length s) with (length s + 0)%nat by lia.
  rewrite firstn_app_2. cbn [firstn]. apply app_nil_r.
Qed.

(** ** White space around printable text *)

Lemma scan_space_graphic c t : graphic c = true -> scan_space (c :: t) = Stopped (c :: t).
Proof.
  unfold graphic. intros Hg. apply andb_prop in Hg. destruct Hg as [H1 H2].
  apply Z.leb_le in H1, H2. cbn [scan_space]. unfold asciiSpace.
  destruct (Z.leb_spec 128 (byte_val c)); [lia|].
  destruct (Z.eqb_spec (byte_val c) 9); [lia|].
  destruct (Z.eqb_spec (byte_val c) 10); [lia|].
  destruct (Z.eqb_spec (byte_val c) 11); [lia|].
  destruct (Z.eqb_spec (byte_val c) 12); [lia|].
  destruct (Z.eqb_spec (byte_val c) 13); [lia|].
  destruct (Z.eqb_spec (byte_val c) 32); [lia|].
  reflexivity.
Qed.

Lemma TrimSpace_graphic `{GoLib} tok :
  Forall (fun c => graphic c = true) tok ->
  TrimSpace tok = tok /\ TrimSpace (SP :: tok) = tok.
Proof.
  intros Hg.
  assert (Hinner : match scan_space tok with
                   | Fallback r => TrimFunc_IsSpace r
                   | Stopped r =>
                       match scan_space (rev r) with
                       | Fallback rr => TrimFunc_IsSpace (rev rr)
                       | Stopped rr => rev rr
                       end
                   end = tok).
  { destruct tok as [|c t]; [reflexivity|].
    rewrite scan_space_graphic by (inversion Hg; assumption).
    apply Forall_rev in Hg.
    destruct (rev (c :: t)) as [|x l] eqn:E.
    { apply (f_equal (@List.length _)) in E. rewrite length_rev in E. discriminate. }
    rewrite scan_space_graphic by (inversion Hg; assumption).
    rewrite <- E. apply rev_involutive. }
  split; [exact Hinner|].
  unfold TrimSpace. change (scan_space (SP :: tok)) with (scan_space tok). exact Hinner.
Qed.

Lemma graphic_no_space tok :
  Forall (fun c => graphic c = true) tok -> IndexByte tok SP = -1.
Proof.
  intros Hg. apply IndexByte_none. intros Hin.
  rewrite Forall_forall in Hg. specialize (Hg _ Hin). discriminate.
Qed.

(** ** The failing file keeps bytes and errors apart *)


(* ================================================================== *)
(** ** The parser on any source: what it keeps *)

Lemma int_add_int a b : int (int a + b) = int (a + b).
Proof.
  unfold int. f_equal.
  replace ((a + 2 ^ 63) mod 2 ^ 64 - 2 ^ 63 + b + 2 ^ 63)
    with ((a + 2 ^ 63) mod 2 ^ 64 + b) by lia.
  rewrite Zplus_mod_idemp_l. f_equal. lia.
Qed.

Lemma Done_inj {A} (a b : A) : Done a = Done b -> a = b.
Proof. intros E. injection E as E. exact E. Qed.

Section AnySource.
Context `{GoLib} {Src : Type} `{Reader Src}.

(** A property of the hashing reader that every [Read] through it keeps. *)
Variable P : HashingCountingReader Src -> Prop.
Hypothesis P_Read : forall r L, P r -> P (snd (HCR_Read r L)).

Ltac read_step r L Hp E :=
  let Hq := fresh "Hq" in
  pose proof (P_Read L Hp) as Hq;
  destruct (HCR_Read r L) as [[? ?] ?] eqn:E; cbn [snd] in Hq.

Lemma fill_loop_keeps i : forall b, P (rd b) -> P (rd (fill_loop i b)).
Proof.
  induction i as [|i IH]; intros b Hp; cbn [fill_loop]; [exact Hp|].
  pose proof (P_Read (bufcap b - length (pend b)) Hp) as Hq.
  destruct (HCR_Read (rd b) (bufcap b - length (pend b))) as [[p_n err] r'].
  cbn [snd] in Hq.
  destruct err as [e|]; [exact Hq|].
  destruct (0 <? len p_n); [exact Hq|]. apply IH. exact Hq.
Qed.

Lemma fill_keeps b b' : fill b = Done b' -> P (rd b) -> P (rd b').
Proof.
  unfold fill. destruct (bufcap b <=? length (pend b))%nat; [discriminate|].
  intros E Hp. apply Done_inj in E. rewrite <- E. apply fill_loop_keeps. exact Hp.
Qed.

Lemma ReadSlice_loop_keeps fuel : forall b delim s line err b',
  ReadSlice_loop fuel b delim s = Done (line, err, b') -> P (rd b) -> P (rd b').
Proof.
  induction fuel as [|fuel IH]; intros b delim s line err b'; cbn [ReadSlice_loop];
    [discriminate|].
  destruct (0 <=? IndexByte (skipn s (pend b)) delim).
  { intros [= _ _ <-] Hp. exact Hp. }
  destruct (berr b).
  { intros [= _ _ <-] Hp. exact Hp. }
  destruct (Z.of_nat (bufcap b) <=? Buffered b).
  { intros [= _ _ <-] Hp. exact Hp. }
  destruct (fill b) as [b1| |] eqn:Ef; try discriminate.
  intros E Hp. eapply IH; [exact E|]. eapply fill_keeps; eassumption.
Qed.

Lemma ReadLine_keeps fuel b line isPrefix err b' :
  ReadLine fuel b = Done (line, isPrefix, err, b') -> P (rd b) -> P (rd b').
Proof.
  unfold ReadLine, ReadSlice.
  destruct (ReadSlice_loop fuel b NL 0) as [[[l e] b1]| |] eqn:E; try discriminate.
  intros E' Hp. pose proof (ReadSlice_loop_keeps _ _ _ _ E Hp) as Hq.
  destruct (is_ErrBufferFull e).
  - destruct ((0 <? len l) && Ascii.eqb (last_byte l) CR);
      injection E' as _ _ _ <-; exact Hq.
  - destruct (len l =? 0); injection E' as _ _ _ <-; exact Hq.
Qed.

Lemma Discard_loop_keeps fuel : forall b n remain d err b',
  Discard_loop fuel b n remain = Done (d, err, b') -> P (rd b) -> P (rd b').
Proof.
  induction fuel as [|fuel IH]; intros b n remain d err b'; cbn [Discard_loop];
    [discriminate|].
  intros E Hp.
  assert (Hb1 : forall b1, (if Buffered b =? 0 then fill b else Done b) = Done b1 -> P (rd b1)).
  { intros b1. destruct (Buffered b =? 0).
    - intros Ef. eapply fill_keeps; eassumption.
    - intros [= <-]. exact Hp. }
  destruct (if Buffered b =? 0 then fill b else Done b) as [b1| |]; try discriminate.
  specialize (Hb1 b1 eq_refl).
  revert E.
  set (skip := if Buffered b1 >? remain then remain else Buffered b1).
  destruct (int (remain - skip) =? 0).
  { intros [= _ _ <-]. exact Hb1. }
  cbn [berr set_pend].
  destruct (berr b1).
  { intros [= _ _ <-]. exact Hb1. }
  intros E. eapply IH; [exact E|]. exact Hb1.
Qed.

Lemma Discard_keeps fuel b n d err b' :
  Discard fuel b n = Done (d, err, b') -> P (rd b) -> P (rd b').
Proof.
  unfold Discard. destruct (n <? 0); [intros [= _ _ <-] Hp; exact Hp|].
  destruct (n =? 0); [intros [= _ _ <-] Hp; exact Hp|].
  apply Discard_loop_keeps.
Qed.

Lemma bufio_Read_keeps b L d err b' :
  bufio_Read b L = (d, err, b') -> P (rd b) -> P (rd b').
Proof.
  unfold bufio_Read. intros E Hp.
  destruct L as [|L].
  { destruct (0 <? Buffered b); injection E as _ _ <-; exact Hp. }
  destruct (pend b) as [|c pd].
  2:{ injection E as _ _ <-. exact Hp. }
  destruct (berr b).
  { injection E as _ _ <-. exact Hp. }
  destruct (bufcap b <=? S L)%nat.
  - pose proof (P_Read (S L) Hp) as Hq.
    destruct (HCR_Read (rd b) (S L)) as [[p_n e] r']. cbn [snd] in Hq.
    injection E as _ _ <-. exact Hq.
  - pose proof (P_Read (bufcap b) Hp) as Hq.
    destruct (HCR_Read (rd b) (bufcap b)) as [[p_n e] r']. cbn [snd] in Hq.
    destruct p_n; injection E as _ _ <-; exact Hq.
Qed.

Lemma ReadAtLeast_loop_keeps min fuel : forall b got out err b',
  ReadAtLeast_loop fuel b min got = Done (out, err, b') -> P (rd b) -> P (rd b').
Proof.
  induction fuel as [|fuel IH]; intros b got out err b'; cbn [ReadAtLeast_loop];
    (destruct (length got <? min)%nat; [|intros [= _ _ <-] Hp; exact Hp]);
    [discriminate|].
  destruct (bufio_Read b (min - length got)) as [[p_n e] b1] eqn:Er.
  intros E Hp. pose proof (bufio_Read_keeps _ _ Er Hp) as Hq.
  destruct e.
  - injection E as _ _ <-. exact Hq.
  - eapply IH; eassumption.
Qed.

Local Abbreviation keeps := (keeps P).

Lemma keeps_refl st : P (rd (br st)) -> keeps st st.
Proof.
  intros Hp. split; [exact Hp|]. split; [reflexivity|].
  exists []. symmetry. apply app_nil_r.
Qed.

Lemma keeps_msg st m :
  P (rd (br st)) -> id m = id (msg st) -> files m = files (msg st) ->
  keeps st (with_msg st m).
Proof.
  intros Hp Hi Hf. split; [exact Hp|]. split; [exact Hi|].
  exists []. cbn [with_msg msg]. rewrite Hf. symmetry. apply app_nil_r.
Qed.

Lemma parse_field_keeps fuel srcname st line fl :
  parse_field fuel srcname st line = Done fl -> P (rd (br st)) ->
  keeps st (flow_state fl).
Proof.
  intros E Hp. revert E. unfold parse_field.
  destruct (IndexByte line SP =? 0).
  { intros [= <-]. apply keeps_refl. exact Hp. }
  destruct ((IndexByte line SP =? -1) && (len line =? 0)).
  { intros [= <-]. apply keeps_refl. exact Hp. }
  set (p := if IndexByte line SP =? -1 then len line else IndexByte line SP).
  destruct (map_lookup fieldtab (slice_to line p)) as [field|].
  2:{ destruct (HasPrefix (slice_to line p) (B "x-"));
        intros [= <-]; apply keeps_refl; exact Hp. }
  destruct (field =? FIELD_SUBJECT).
  { unfold field_subject. intros [= <-]. apply keeps_msg; [exact Hp| |]; reflexivity. }
  destruct (field =? FIELD_FROM).
  { unfold field_from. destruct (Author_Parse (from (msg st)) (slice_from line p)) as [a [e|]];
      intros [= <-]; apply keeps_msg; try exact Hp; reflexivity. }
  destruct (field =? FIELD_TO).
  { unfold field_to. destruct (Author_Parse (to (msg st)) (slice_from line p)) as [a [e|]];
      intros [= <-]; apply keeps_msg; try exact Hp; reflexivity. }
  destruct (field =? FIELD_TIME).
  { unfold field_time.
    destruct (time_Parse time_layout (TrimSpace (slice_from line p))) as [t|e1].
    { intros [= <-]. apply keeps_msg; [exact Hp| |]; reflexivity. }
    destruct (time_Parse time_layout_utc (TrimSpace (slice_from line p))) as [t|e2];
      intros [= <-]; [apply keeps_msg; [exact Hp| |]; reflexivity | apply keeps_refl; exact Hp]. }
  destruct (field =? FIELD_BODY).
  { unfold field_body.
    destruct (ParseUint (TrimSpace (slice_from line p)) 64) as [size [e|]].
    { intros [= <-]. apply keeps_refl. exact Hp. }
    destruct (size >? MAX_BODY_SIZE).
    { intros [= <-]. apply keeps_refl. exact Hp. }
    unfold ReadFull.
    destruct (ReadAtLeast_loop fuel (br st) (Z.to_nat size) []) as [[[got e] b']| |] eqn:Er;
      try discriminate.
    pose proof (ReadAtLeast_loop_keeps _ _ _ _ Er Hp) as Hq.
    assert (Hk : forall v, keeps st (with_msg (with_br st b') (set_body (msg (with_br st b')) v))).
    { intros v. split; [exact Hq|]. split; [reflexivity|].
      exists []. cbn [with_msg with_br msg set_body files]. symmetry. apply app_nil_r. }
    destruct e as [e|]; [intros [= <-]; apply Hk|].
    destruct (negb (len got =? size)); intros [= <-]; apply Hk. }
  destruct (field =? FIELD_FILE).
  2:{ intros [= <-]. apply keeps_refl. exact Hp. }
  unfold field_file.
  set (text := TrimSpace (slice_from line p)).
  destruct (if negb (IndexByte text SP =? -1)
            then (TrimSpace (slice_from text (IndexByte text SP)),
                  slice_to text (IndexByte text SP))
            else ([], text)) as [fname sizetext].
  destruct (ParseUint sizetext 64) as [size64 [e|]].
  { destruct (slice_from_checked sizetext p) as [tl| |]; try discriminate.
    intros [= <-]. split; [exact Hp|]. split; [reflexivity|].
    exists []. cbn [flow_state msg]. symmetry. apply app_nil_r. }
  cbn [br].
  destruct (Discard fuel (br st) (int size64)) as [[[d e] b']| |] eqn:Ed; try discriminate.
  pose proof (Discard_keeps _ _ _ Ed Hp) as Hq.
  destruct (d <? int size64).
  { intros [= <-]. split; [exact Hq|]. split; [reflexivity|].
    exists []. cbn [flow_state with_br msg]. symmetry. apply app_nil_r. }
  destruct e as [e|]; intros [= <-].
  - split; [exact Hq|]. split; [reflexivity|].
    exists []. cbn [flow_state with_br msg]. symmetry. apply app_nil_r.
  - split; [exact Hq|]. split; [reflexivity|].
    eexists. cbn [flow_state with_msg with_br msg set_files files]. reflexivity.
Qed.

Lemma keeps_trans st1 st2 st3 : keeps st1 st2 -> keeps st2 st3 -> keeps st1 st3.
Proof.
  intros (_ & Hi1 & fs1 & Hf1) (Hp & Hi2 & fs2 & Hf2).
  split; [exact Hp|]. split; [congruence|].
  exists (fs1 ++ fs2). rewrite Hf2, Hf1. symmetry. apply app_assoc.
Qed.

Lemma parse_loop_keeps inner_fuel fuel srcname : forall st st' err,
  parse_loop inner_fuel fuel srcname st = Done (st', err) -> P (rd (br st)) ->
  keeps st st'.
Proof.
  induction fuel as [|fuel IH]; intros st st' err; cbn [parse_loop]; [discriminate|].
  cbn [br].
  destruct (ReadLine inner_fuel (br st)) as [[[[line isP] e] b']| |] eqn:Er; try discriminate.
  intros E Hp. pose proof (ReadLine_keeps _ _ Er Hp) as Hq.
  set (s1 := with_br {| msg := msg st; lineno := int (lineno st + 1);
                        fileno := fileno st; br := br st |} b') in *.
  assert (Hk1 : keeps st s1).
  { split; [exact Hq|]. split; [reflexivity|]. exists []. symmetry. apply app_nil_r. }
  destruct e as [e|].
  { destruct (is_EOF e); injection E as <- _; exact Hk1. }
  destruct isP.
  { injection E as <- _. exact Hk1. }
  destruct (parse_field inner_fuel srcname s1 line) as [[a|a e1]| |] eqn:Ef; try discriminate.
  - pose proof (parse_field_keeps _ _ _ _ Ef Hq) as Hk2. cbn [flow_state] in Hk2.
    eapply keeps_trans; [eapply keeps_trans; [exact Hk1 | exact Hk2]|].
    eapply IH; [exact E|]. apply Hk2.
  - pose proof (parse_field_keeps _ _ _ _ Ef Hq) as Hk2. cbn [flow_state] in Hk2.
    injection E as <- _. exact (keeps_trans Hk1 Hk2).
Qed.

Lemma ParseReader_keeps fuel m (r : Src) srcsize srcname p :
  ParseReader fuel m r srcsize srcname = Done p ->
  P (MakeSHA256HashingCountingReader r) ->
  P (p_cr p) /\ exists fs, files (p_msg p) = files m ++ fs.
Proof.
  unfold ParseReader. intros E Hp.
  destruct (parse_loop fuel fuel srcname (start_state m r (bufsize_of srcsize)))
    as [[st' e]| |] eqn:El; try discriminate.
  destruct (parse_loop_keeps _ _ _ _ El Hp) as (Hq & Hi & fs & Hf).
  destruct e as [e|]; injection E as <-.
  - cbn [p_cr p_msg]. split; [exact Hq|]. exists fs. exact Hf.
  - unfold finish.
    destruct (UpdateIdFromTime
                (set_id (msg st') (firstn 4 (id (msg st')) ++
                                   firstn 20 (SHA256.Sum (hash (rd (br st')))))))
      as [m' err'] eqn:Eu.
    cbn [p_cr p_msg]. split; [exact Hq|]. exists fs.
    pose proof (UpdateIdFromTime_keeps
                  (set_id (msg st') (firstn 4 (id (msg st')) ++
                                     firstn 20 (SHA256.Sum (hash (rd (br st')))))))
      as (Hk & _).
    rewrite Eu in Hk. cbn [fst set_id files] in Hk. rewrite Hk. exact Hf.
Qed.

End AnySource.

(* ================================================================== *)
(** ** The parser on a source that keeps bytes and errors apart *)

Section OneSource.
Context `{GoLib} {Src : Type} `{Reader Src}.
Variable rest : Src -> list ascii.
Variable fin : error.
Hypothesis Hwb : delivers rest fin.
Variable all : list ascii.
Variable srcname : list ascii.

Local Abbreviation Inv := (Inv rest all).

(** The three ways an attachment header with a size that parses ends. *)
Lemma field_file_cases fuel (st : pstate) line p size64 :
  let text := TrimSpace (slice_from line p) in
  let sp := IndexByte text SP in
  let sizetext := if negb (sp =? -1) then slice_to text sp else text in
  let fname := if negb (sp =? -1) then TrimSpace (slice_from text sp) else [] in
  Inv (br st) -> (length (stream rest (br st)) + 1 <= fuel)%nat ->
  ParseUint sizetext 64 = (size64, None) ->
  if int size64 <? 0 then
    exists st', field_file fuel srcname st line p = Done (Return st' ErrNegativeCount)
                /\ msg st' = msg st
  else if int size64 <=? len (stream rest (br st)) then
    exists st',
      field_file fuel srcname st line p = Done (Continue st')
      /\ msg st' = set_files (msg st)
                     (files (msg st) ++
                      [mkAttachment fname (len all - len (stream rest (br st))) (int size64)])
      /\ lineno st' = lineno st
      /\ stream rest (br st') = skipn (Z.to_nat (int size64)) (stream rest (br st))
      /\ Inv (br st')
  else
    exists st',
      field_file fuel srcname st line p =
      Done (Return st'
              (Errorf "%s:%d: file %d %q: invalid size %d (beyond end of message file)"
                 [ArgBytes srcname; ArgInt (lineno st); ArgInt (int (fileno st + 1));
                  ArgBytes fname; ArgInt (int size64)]))
      /\ msg st' = msg st.
Proof.
  intros text sp sizetext fname Hinv Hfuel Hparse.
  unfold field_file. fold text. fold sp.
  assert (E : (if negb (sp =? -1) then (TrimSpace (slice_from text sp), slice_to text sp)
               else ([], text)) = (fname, sizetext)).
  { unfold fname, sizetext. destruct (negb (sp =? -1)); reflexivity. }
  rewrite E, Hparse. cbn [br msg lineno fileno].
  fold (position (br st)).
  pose proof Hinv as [Hinv0 _].
  rewrite (Inv0_position Hinv0).
  pose proof (int_range size64) as Hsz.
  destruct (Discard_wb Hwb (n := int size64) Hinv ltac:(lia) Hfuel)
    as (d & err & b' & Ed & Hsp & Hinv' & Hc).
  rewrite Ed. revert Hsp. unfold discard_spec.
  destruct (Z.ltb_spec (int size64) 0) as [Hneg|Hnn].
  { intros [= -> -> Hstr]. destruct (Z.ltb_spec 0 (int size64)); [lia|].
    eexists. split; reflexivity. }
  destruct (Z.leb_spec (int size64) (len (stream rest (br st)))) as [Hle|Hgt].
  - intros [= -> -> Hstr]. rewrite Z.ltb_irrefl.
    eexists. split; [reflexivity|].
    cbn [with_msg with_br msg lineno br].
    split; [reflexivity|]. split; [reflexivity|]. split; [exact Hstr | exact Hinv'].
  - intros [= -> -> Hstr].
    destruct (Z.ltb_spec (len (stream rest (br st))) (int size64)); [|lia].
    eexists. split; reflexivity.
Qed.

(** One step keeps the invariant of the reader and does not add to the
    bytes to come; with fuel for them it ends. *)
Lemma parse_field_wb fuel (st : pstate) line :
  Inv (br st) -> (length (stream rest (br st)) + 1 <= fuel)%nat ->
  match parse_field fuel srcname st line with
  | Done (Continue st') =>
      Inv (br st') /\ (length (stream rest (br st')) <= length (stream rest (br st)))%nat
  | Done (Return _ _) => True
  | Panic => True
  | OutOfFuel => False
  end.
Proof.
  intros Hinv Hfuel. unfold parse_field.
  destruct (IndexByte line SP =? 0); [exact I|].
  destruct ((IndexByte line SP =? -1) && (len line =? 0)); [split; [assumption|lia]|].
  set (p := if IndexByte line SP =? -1 then len line else IndexByte line SP).
  destruct (map_lookup fieldtab (slice_to line p)) as [field|].
  2:{ destruct (HasPrefix (slice_to line p) (B "x-")); [split; [assumption|lia] | exact I]. }
  destruct (field =? FIELD_SUBJECT).
  { unfold field_subject. cbn [with_msg br]. split; [assumption|lia]. }
  destruct (field =? FIELD_FROM).
  { unfold field_from. destruct (Author_Parse (from (msg st)) (slice_from line p)) as [a [e|]];
      [exact I | cbn [with_msg br]; split; [assumption|lia]]. }
  destruct (field =? FIELD_TO).
  { unfold field_to. destruct (Author_Parse (to (msg st)) (slice_from line p)) as [a [e|]];
      [exact I | cbn [with_msg br]; split; [assumption|lia]]. }
  destruct (field =? FIELD_TIME).
  { unfold field_time.
    destruct (time_Parse time_layout (TrimSpace (slice_from line p))) as [t|e1];
      [cbn [with_msg br]; split; [assumption|lia]|].
    destruct (time_Parse time_layout_utc (TrimSpace (slice_from line p))) as [t|e2];
      [cbn [with_msg br]; split; [assumption|lia] | exact I]. }
  destruct (field =? FIELD_BODY).
  { unfold field_body.
    destruct (ParseUint (TrimSpace (slice_from line p)) 64) as [size [e|]]; [exact I|].
    destruct (size >? MAX_BODY_SIZE); [exact I|].
    destruct (ReadFull_wb Hwb (Z.to_nat size) Hinv Hfuel)
      as (out & err & b' & E & Hsp & Hinv' & Hc).
    rewrite E. destruct err as [e|]; [exact I|].
    destruct (negb (len out =? size)); [exact I|].
    cbn [with_msg with_br br]. split; [assumption|].
    revert Hsp. unfold read_full_spec.
    destruct (Z.to_nat size <=? length (stream rest (br st)))%nat.
    - intros [= _ ->]. rewrite length_skipn. lia.
    - intros [= _ _ ->]. cbn [length]. lia. }
  destruct (field =? FIELD_FILE); [|split; [assumption|lia]].
  set (text := TrimSpace (slice_from line p)).
  set (sizetext := if negb (IndexByte text SP =? -1)
                   then slice_to text (IndexByte text SP) else text).
  destruct (ParseUint sizetext 64) as [size64 [e|]] eqn:Ep.
  { unfold field_file. fold text.
    assert (E : (if negb (IndexByte text SP =? -1)
                 then (TrimSpace (slice_from text (IndexByte text SP)),
                       slice_to text (IndexByte text SP))
                 else ([], text))
                = ((if negb (IndexByte text SP =? -1)
                    then TrimSpace (slice_from text (IndexByte text SP)) else []), sizetext)).
    { unfold sizetext. destruct (negb (IndexByte text SP =? -1)); reflexivity. }
    rewrite E, Ep. unfold slice_from_checked.
    destruct ((0 <=? p) && (p <=? len sizetext)); exact I. }
  pose proof (field_file_cases st line p Hinv Hfuel Ep) as Hc.
  destruct (int size64 <? 0); [destruct Hc as (st' & -> & _); exact I|].
  destruct (int size64 <=? len (stream rest (br st))).
  - destruct Hc as (st' & -> & _ & _ & Hstr & Hinv'). split; [assumption|].
    rewrite Hstr, length_skipn. lia.
  - destruct Hc as (st' & -> & _). exact I.
Qed.

(** The loop ends, given fuel for the bytes to come; when it ends without
    error the source has ended with [io.EOF] and the digest has seen the
    whole stream. *)
Lemma parse_loop_wb k : forall (st : pstate) ifuel fuel,
  (length (stream rest (br st)) <= k)%nat -> Inv (br st) ->
  (k + 2 <= ifuel)%nat -> (k + 1 <= fuel)%nat ->
  match parse_loop ifuel fuel srcname st with
  | Done (st', None) =>
      fin = EOF /\ hash (rd (br st')) = all /\ nread (rd (br st')) = len all
  | Done (_, Some _) => True
  | Panic => True
  | OutOfFuel => False
  end.
Proof.
  induction k as [|k IH]; intros st ifuel fuel Hk Hinv Hif Hf;
    (destruct fuel as [|fuel]; [lia|]);
    cbn [parse_loop br];
    assert (Hrest : (length (rest (inner (rd (br st)))) <= length (stream rest (br st)))%nat)
      by (unfold stream; rewrite length_app; lia);
    destruct (ReadLine_wb Hwb (fuel := ifuel) Hinv ltac:(lia))
      as (line & isP & err & b1 & E1 & Hsp1 & Hinv1 & Hc1);
    rewrite E1;
    pose proof Hinv as [[Hcap0 _ _ _ _ _] _];
    symmetry in Hsp1.
  all: destruct err as [e|].
  all: try (apply (@read_line_spec_error _ _ _ _ _ _ _ Hcap0) in Hsp1;
            destruct Hsp1 as (-> & HR & HR');
            destruct fin; cbn [is_EOF]; try exact I;
            destruct (Inv_at_end Hinv1 HR') as [Hh1 Hn1];
            cbn [with_br br]; repeat split; assumption).
  all: destruct isP; [exact I|].
  all: pose proof (@read_line_spec_line _ _ _ _ _ Hcap0 Hsp1) as Hshrink.
  - lia.
  - set (s1 := with_br {| msg := msg st; lineno := int (lineno st + 1);
                         fileno := fileno st; br := br st |} b1).
    pose proof (@parse_field_wb ifuel s1 line Hinv1
                  ltac:(unfold s1; cbn [with_br br]; lia)) as Hfw.
    destruct (parse_field ifuel srcname s1 line) as [[a|a e1]| |]; try exact I;
      [|contradiction].
    destruct Hfw as [Hinva Hlen].
    apply IH; try assumption; try lia.
    unfold s1 in Hlen. cbn [with_br br] in Hlen. lia.
Qed.

End OneSource.

(** ** The digest is 32 bytes long *)

Lemma round_length st kw : length (SHA256.round st kw) = length st.
Proof.
  unfold SHA256.round.
  destruct st as [|a [|b [|c [|d [|e [|f [|g [|h [|i st]]]]]]]]]; reflexivity.
Qed.

Lemma fold_round_length l : forall st,
  length (fold_left SHA256.round l st) = length st.
Proof.
  induction l as [|kw l IH]; intros st; cbn [fold_left]; [reflexivity|].
  rewrite IH. apply round_length.
Qed.

Lemma block_length st blk : length (SHA256.block st blk) = length st.
Proof.
  unfold SHA256.block. rewrite length_map, length_combine, fold_round_length.
  apply Nat.min_id.
Qed.

Lemma blocks_length n : forall st bs, length (SHA256.blocks n st bs) = length st.
Proof.
  induction n as [|n IH]; intros st bs; cbn [SHA256.blocks]; [reflexivity|].
  rewrite IH. apply block_length.
Qed.

Lemma flat_map_length_const {A C} (f : A -> list C) k l :
  (forall a, length (f a) = k) -> length (flat_map f l) = (k * length l)%nat.
Proof.
  intros Hf. induction l as [|a l IH]; cbn [flat_map length]; [lia|].
  rewrite length_app, Hf, IH. lia.
Qed.

Lemma Sum_length msg : length (SHA256.Sum msg) = 32%nat.
Proof.
  unfold SHA256.Sum. rewrite length_map.
  rewrite (@flat_map_length_const _ _ (SHA256.be_bytes 4) 4).
  - rewrite blocks_length. reflexivity.
  - intros a. unfold SHA256.be_bytes. rewrite length_map, length_seq. reflexivity.
Qed.

(** ** The identifier [ParseReader] leaves *)

Lemma finish_identifier {Src : Type} (st : @pstate Src) :
  length (id (msg st)) = 24%nat ->
  p_err (finish st) = None ->
  idEpochBase <= Unix (time (p_msg (finish st)))
  /\ IdTimestamp (id (p_msg (finish st)))
     = (Unix (time (p_msg (finish st))) - idEpochBase) mod 2 ^ 32
  /\ skipn 4 (id (p_msg (finish st))) = firstn 20 (SHA256.Sum (hash (rd (br st))))
  /\ length (id (p_msg (finish st))) = 24%nat.
Proof.
  intros Hid. unfold finish.
  set (m1 := set_id (msg st)
               (firstn 4 (id (msg st)) ++ firstn 20 (SHA256.Sum (hash (rd (br st)))))).
  assert (Hs : skipn 4 (id m1) = firstn 20 (SHA256.Sum (hash (rd (br st))))).
  { unfold m1. cbn [set_id id]. rewrite skipn_app, length_firstn, Hid.
    rewrite skipn_all2 by (rewrite length_firstn; lia). reflexivity. }
  destruct (Z.ltb_spec (Unix (time m1)) idEpochBase) as [Hlt|Hge].
  { rewrite (UpdateIdFromTime_past m1 Hlt). cbn [p_err]. discriminate. }
  destruct (UpdateIdFromTime_writes m1 Hge) as (He & Ht & Hk).
  assert (Htime : time (fst (UpdateIdFromTime m1)) = time m1).
  { unfold UpdateIdFromTime. destruct (Unix (time m1) <? idEpochBase); reflexivity. }
  assert (Hlen : length (id (fst (UpdateIdFromTime m1))) = 24%nat).
  { unfold UpdateIdFromTime. destruct (Unix (time m1) <? idEpochBase).
    - cbn [fst]. unfold m1. cbn [set_id id].
      rewrite length_app, !length_firstn, Sum_length, Hid. reflexivity.
    - cbn [fst set_id id app length]. rewrite Hs, length_firstn, Sum_length. reflexivity. }
  destruct (UpdateIdFromTime m1) as [m' err'].
  cbn [fst snd] in *. cbn [p_err p_msg]. intros _.
  rewrite Htime. split; [exact Hge|]. split; [exact Ht|]. split; [congruence | exact Hlen].
Qed.

Section OneSourceParse.
Context `{GoLib} {Src : Type} `{Reader Src}.
Variable rest : Src -> list ascii.
Variable fin : error.
Hypothesis Hwb : delivers rest fin.

(** A parse of a source that keeps bytes and errors apart ends, given fuel
    for the stream; when it ends without error the source has ended with
    [io.EOF], and the identifier is the time followed by the first twenty
    bytes of the digest of the whole stream. *)
Lemma ParseReader_wb fuel m (r : Src) srcsize srcname :
  len (rest r) < 2 ^ 63 -> (length (rest r) + 2 <= fuel)%nat ->
  match ParseReader fuel m r srcsize srcname with
  | Done p =>
      p_err p = None ->
      fin = EOF /\ hash (p_cr p) = rest r /\ nread (p_cr p) = len (rest r)
      /\ idEpochBase <= Unix (time (p_msg p))
      /\ (length (id m) = 24%nat ->
          IdTimestamp (id (p_msg p)) = (Unix (time (p_msg p)) - idEpochBase) mod 2 ^ 32
          /\ skipn 4 (id (p_msg p)) = firstn 20 (SHA256.Sum (rest r))
          /\ length (id (p_msg p)) = 24%nat)
  | Panic => True
  | OutOfFuel => False
  end.
Proof.
  intros Ha Hfuel. unfold ParseReader.
  destruct (start_state_Inv rest m r (bufsize_of srcsize) eq_refl Ha) as [Hinv Hs].
  pose proof (@parse_loop_wb _ _ _ rest fin Hwb (rest r) srcname (length (rest r))
                (start_state m r (bufsize_of srcsize)) fuel fuel
                ltac:(rewrite Hs; lia) Hinv ltac:(lia) ltac:(lia)) as Hloop.
  destruct (parse_loop fuel fuel srcname (start_state m r (bufsize_of srcsize)))
    as [[st' e]| |] eqn:El; [|exact I|contradiction].
  destruct e as [e|]; [cbn [p_err]; discriminate|].
  destruct Hloop as (Hfin & Hh & Hn).
  destruct (@parse_loop_keeps _ _ _ (fun _ => True) (fun _ _ _ => I) _ _ _ _ _ _ El I)
    as (_ & Hi & _).
  cbn [start_state msg] in Hi.
  intros He.
  assert (Hcr : p_cr (finish st') = rd (br st')).
  { unfold finish. destruct (UpdateIdFromTime _). reflexivity. }
  rewrite Hcr. split; [exact Hfin|]. split; [exact Hh|]. split; [exact Hn|].
  split.
  - revert He. unfold finish.
    set (m1 := set_id (msg st') _).
    destruct (Z.ltb_spec (Unix (time m1)) idEpochBase) as [Hlt|Hge].
    { rewrite (UpdateIdFromTime_past m1 Hlt). cbn [p_err]. discriminate. }
    intros _.
    assert (Htime : time (fst (UpdateIdFromTime m1)) = time m1).
    { unfold UpdateIdFromTime. destruct (Unix (time m1) <? idEpochBase); reflexivity. }
    destruct (UpdateIdFromTime m1) as [m' err']. cbn [fst] in Htime. cbn [p_msg].
    rewrite Htime. exact Hge.
  - intros Hid.
    destruct (@finish_identifier _ st' ltac:(congruence) He) as (H1 & H2 & H3 & H4).
    rewrite Hh in H3. auto.
Qed.

(** The first line of a stream that does not fit the buffer. *)
Lemma ParseReader_long_first_line fuel m (r : Src) srcsize srcname :
  len (rest r) < 2 ^ 63 ->
  IndexByte (firstn (buffer_size srcsize) (rest r)) NL = -1 ->
  (buffer_size srcsize <= length (rest r))%nat ->
  (length (rest r) + 2 <= fuel)%nat ->
  exists p,
    ParseReader fuel m r srcsize srcname = Done p
    /\ p_msg p = m
    /\ p_err p = Some (Errorf "%s:%d: field too long" [ArgBytes srcname; ArgInt 1]).
Proof.
  intros Ha Hidx Hlong Hfuel. unfold ParseReader.
  destruct (start_state_Inv rest m r (bufsize_of srcsize) eq_refl Ha) as [Hinv Hs].
  destruct fuel as [|fuel]; [lia|].
  cbn [parse_loop br start_state].
  assert (Hrest : (length (rest (inner (rd (br (start_state m r (bufsize_of srcsize))))))
                   <= length (rest r))%nat) by (cbn; lia).
  destruct (ReadLine_wb Hwb (fuel := S fuel) Hinv ltac:(lia))
    as (line & isP & err & b1 & E1 & Hsp1 & Hinv1 & Hc1).
  cbn [start_state br] in E1. rewrite E1.
  rewrite Hs in Hsp1.
  change (bufcap (br (start_state m r (bufsize_of srcsize)))) with (buffer_size srcsize)
    in Hsp1.
  revert Hsp1. unfold read_line_spec, read_slice_spec. rewrite Hidx.
  cbn [Z.leb Z.compare].
  destruct (Nat.leb_spec (buffer_size srcsize) (length (rest r))); [|lia].
  cbn [is_ErrBufferFull].
  destruct ((0 <? len (firstn (buffer_size srcsize) (rest r)))
            && Ascii.eqb (last_byte (firstn (buffer_size srcsize) (rest r))) CR);
    intros [= -> -> -> _]; eexists; (split; [reflexivity|]); cbn [p_msg p_err with_br msg lineno];
    split; reflexivity.
Qed.

(** A stream without bytes. *)
Lemma ParseReader_no_bytes fuel m (r : Src) srcsize srcname :
  fin = EOF -> rest r = [] -> (2 <= fuel)%nat ->
  exists p,
    ParseReader fuel m r srcsize srcname = Done p
    /\ (p_msg p, p_err p)
       = UpdateIdFromTime (set_id m (firstn 4 (id m) ++ firstn 20 (SHA256.Sum [])))
    /\ nread (p_cr p) = 0.
Proof.
  intros Hfin Hr Hfuel. unfold ParseReader.
  destruct (start_state_Inv rest m r (bufsize_of srcsize) eq_refl
              ltac:(rewrite Hr; cbn; lia)) as [Hinv Hs].
  destruct fuel as [|fuel]; [lia|].
  cbn [parse_loop br start_state].
  destruct (ReadLine_wb Hwb (fuel := S fuel) Hinv ltac:(cbn; rewrite Hr; cbn; lia))
    as (line & isP & err & b1 & E1 & Hsp1 & Hinv1 & Hc1).
  cbn [start_state br] in E1. rewrite E1.
  rewrite Hs, Hr in Hsp1.
  pose proof Hinv as [[Hcap0 _ _ _ _ _] _].
  revert Hsp1. unfold read_line_spec, read_slice_spec.
  rewrite firstn_nil. cbn [IndexByte Z.leb Z.opp Z.compare length].
  destruct (Nat.leb_spec (bufcap (br (start_state m r (bufsize_of srcsize)))) 0); [lia|].
  rewrite Hfin. cbn [is_ErrBufferFull len length Z.of_nat Z.eqb].
  intros [= -> -> -> Hstr]. cbn [is_EOF].
  rewrite Hr in Hinv1.
  destruct (Inv_at_end Hinv1 Hstr) as [Hh Hn].
  eexists. split; [reflexivity|].
  unfold finish. cbn [with_br br msg start_state]. rewrite Hh.
  destruct (UpdateIdFromTime (set_id m (firstn 4 (id m) ++ firstn 20 (SHA256.Sum []))))
    as [m' e']. cbn [p_msg p_err p_cr]. split; [reflexivity | exact Hn].
Qed.

End OneSourceParse.

(* ================================================================== *)
(** * Further properties of the code *)

(** The statements below are run on inputs; their arguments are all
    written out. *)
Unset Implicit Arguments.

(** ** Identifiers *)

(** X1.  Two different 24-byte identifiers never have the same string
    form: [IdString] can be decoded. *)
Theorem IdString_distinct (id1 id2 : list ascii) :
  length id1 = 24%nat -> length id2 = 24%nat -> id1 <> id2 ->
  IdString id1 <> IdString id2.
Proof.
  intros H1 H2 Hne E. apply Hne.
  rewrite !IdString_returns in E by assumption.
  apply Done_inj in E. unfold spec_EncodeId in E.
  apply (f_equal (skipn 2)) in E. cbn [skipn] in E.
  apply be_value_inj; [congruence|].
  assert (Hb : forall id, length id = 24%nat -> 0 <= be_value id < 62 ^ 33).
  { intros id0 Hl. rewrite <- id_parts_value by assumption. apply id_parts_bound. }
  rewrite <- (base62_decodes (Hb id1 H1)), <- (base62_decodes (Hb id2 H2)).
  congruence.
Qed.

Lemma IdString_distinct_witness :
  IdString (repeat zero_byte 24) <> IdString (repeat zero_byte 23 ++ [ascii_of_N 1]).
Proof.
  apply (@IdString_distinct (repeat zero_byte 24) (repeat zero_byte 23 ++ [ascii_of_N 1]));
    [reflexivity | reflexivity | discriminate].
Defined.

(** X2.  [EncodeId] needs a buffer two bytes longer than the digits: the
    sentinel and the byte before it.  It panics on a shorter one and
    returns on any other; there are at most 33 digits, so 35 bytes are
    always enough. *)
Theorem EncodeId_buffer_length (id dst : list ascii) :
  length id = 24%nat ->
  (1 <= length (base62 (be_value id)) <= 33)%nat
  /\ ((length dst < length (base62 (be_value id)) + 2)%nat -> EncodeId id dst = Panic)
  /\ ((length (base62 (be_value id)) + 2 <= length dst)%nat ->
      exists x, EncodeId id dst = Done (x :: spec_EncodeId id)).
Proof.
  intros Hid. split; [apply base62_length|].
  rewrite (@EncodeId_run id dst Hid).
  destruct (Nat.leb_spec (length (base62 (be_value id)) + 2) (length dst)); split;
    intros Hl; try lia; [eexists|]; reflexivity.
Qed.

Lemma EncodeId_buffer_length_witness :
  EncodeId (repeat zero_byte 24) (B "ab") = Panic
  /\ EncodeId (repeat zero_byte 24) (B "abc") = Done (B "a00").
Proof.
  pose proof (@EncodeId_buffer_length (repeat zero_byte 24) (B "ab") eq_refl)
    as (_ & Hshort & _).
  split; [apply Hshort; vm_compute; lia | reflexivity].
Defined.

(** X3.  The string form of an identifier is, after its first byte, text
    over the sixty-two characters of [base62Characters]: the sentinel and
    the digits, between 2 and 34 of them. *)
Theorem IdString_alphabet (id : list ascii) :
  length id = 24%nat ->
  exists s,
    IdString id = Done (zero_byte :: s)
    /\ (2 <= length s <= 34)%nat
    /\ Forall (fun c => In c base62Characters) s.
Proof.
  intros Hid. exists (spec_EncodeId id).
  split; [apply IdString_returns; assumption|].
  unfold spec_EncodeId. pose proof (base62_length (be_value id)) as Hl.
  split; [cbn [length]; lia|].
  constructor; [vm_compute; tauto|].
  unfold base62. apply Forall_rev.
  generalize (be_value id). generalize 33%nat.
  intros k. induction k as [|k IH]; intros v; cbn [base62_rev]; constructor.
  - apply nth_In. pose proof (Z.mod_pos_bound v 62 ltac:(lia)) as Hm.
    change (length base62Characters) with 62%nat. lia.
  - destruct (v / 62 =? 0); [constructor | apply IH].
Qed.

Lemma IdString_alphabet_witness :
  exists s,
    IdString (repeat zero_byte 24) = Done (zero_byte :: s)
    /\ (2 <= length s <= 34)%nat
    /\ Forall (fun c => In c base62Characters) s.
Proof. exact (@IdString_alphabet (repeat zero_byte 24) eq_refl). Defined.

(** X4.  A time inside the range of the 32-bit field survives the trip
    through the identifier as far as the identifier holds it, which is the
    Unix second: [UpdateIdFromTime] returns no error, [IdTime] of the new
    identifier has the Unix second of the time, the time that
    [SetTimeFromId] then assigns has it too, [SetTimeFromId] leaves the
    identifier alone, and the twenty digest bytes stay as they were.
    [IdTime] is [time.Unix(sec, 0)]: the part of a second and the location
    of the time that went in do not come back, and nothing is said of
    them here. *)
Theorem UpdateIdFromTime_round_trip (m : Message) :
  idEpochBase <= Unix (time m) < idEpochBase + 2 ^ 32 ->
  snd (UpdateIdFromTime m) = None
  /\ Unix (IdTime (id (fst (UpdateIdFromTime m)))) = Unix (time m)
  /\ Unix (time (SetTimeFromId (fst (UpdateIdFromTime m)))) = Unix (time m)
  /\ id (SetTimeFromId (fst (UpdateIdFromTime m))) = id (fst (UpdateIdFromTime m))
  /\ skipn 4 (id (fst (UpdateIdFromTime m))) = skipn 4 (id m).
Proof.
  intros Hr.
  destruct (UpdateIdFromTime_writes m ltac:(lia)) as (He & _ & Hk).
  pose proof (UpdateIdFromTime_in_range m Hr) as Ht.
  split; [exact He|]. split; [exact Ht|].
  split; [exact Ht|]. split; [reflexivity | exact Hk].
Qed.

Lemma UpdateIdFromTime_round_trip_witness :
  Unix (IdTime (id (fst (UpdateIdFromTime (set_time freshMessage (mkTime 1659982143))))))
  = 1659982143
  /\ Unix (time (SetTimeFromId
                   (fst (UpdateIdFromTime (set_time freshMessage (mkTime 1659982143))))))
     = 1659982143.
Proof.
  pose proof (@UpdateIdFromTime_round_trip
                (set_time freshMessage (mkTime 1659982143))
                ltac:(vm_compute; split; [discriminate | reflexivity])) as T.
  destruct T as (_ & T1 & T2 & _).
  split; [exact T1 | exact T2].
Defined.

(** X5.  [SetTimeFromFilename] looks at the last element of the path only,
    and of that at the text before its first dot: that text is parsed as
    the time, whatever the directory and whatever follows the dot.  When
    the text is no time the message is left as it was. *)
Theorem SetTimeFromFilename_uses_stem `{GoLib} (m : Message) (dir stem ext : list ascii) :
  ~ In "/"%char stem -> ~ In "."%char stem -> ~ In "/"%char ext ->
  SetTimeFromFilename m (dir ++ "/"%char :: stem ++ "."%char :: ext)
  = match time_Parse filename_layout stem with
    | inl t => (set_time m t, None)
    | inr _ => (m, Some (Errorf "invalid message filename %q" [ArgBytes stem]))
    end.
Proof.
  intros Hs1 Hs2 He. unfold SetTimeFromFilename.
  assert (Hname : ~ In PathSeparator (stem ++ "."%char :: ext)).
  { intros Hin. apply in_app_or in Hin. destruct Hin as [Hin|[Hin|Hin]];
      [contradiction | discriminate | contradiction]. }
  assert (Hne : stem ++ "."%char :: ext <> []).
  { intros E. apply app_eq_nil in E. destruct E. discriminate. }
  destruct (@Base_name dir _ Hne Hname) as [HB _].
  change PathSeparator with "/"%char in HB. rewrite HB.
  rewrite IndexByte_first by assumption.
  destruct (Z.eqb_spec (len stem) (-1)) as [E|_]; [unfold len in E; lia|].
  unfold slice_to, len. rewrite Nat2Z.id, firstn_app_exact. reflexivity.
Qed.

Lemma SetTimeFromFilename_uses_stem_witness :
  @SetTimeFromFilename filenameLib freshMessage (B "inbox/20220808-110903.msg")
  = (set_time freshMessage (mkTime 1659956943), None)
  /\ @SetTimeFromFilename filenameLib freshMessage (B "inbox/notes.txt")
     = (freshMessage, Some (Errorf "invalid message filename %q" [ArgBytes (B "notes")])).
Proof.
  split.
  - refine (@SetTimeFromFilename_uses_stem filenameLib freshMessage (B "inbox")
              (B "20220808-110903") (B "msg") _ _ _);
      intros Hin; vm_compute in Hin;
      repeat (destruct Hin as [Hin|Hin]; [discriminate Hin|]); exact Hin.
  - refine (@SetTimeFromFilename_uses_stem filenameLib freshMessage (B "inbox")
              (B "notes") (B "txt") _ _ _);
      intros Hin; vm_compute in Hin;
      repeat (destruct Hin as [Hin|Hin]; [discriminate Hin|]); exact Hin.
Defined.

(** ** The parser on files *)

(** X6.  A parse of a source that keeps bytes and errors apart, as a file
    does, ends; when it ends without error the identifier of the message
    is the seconds of its time since the epoch base, in four bytes,
    followed by the first twenty bytes of the SHA-256 digest of the whole
    stream: the header lines, the body and the attachment payloads. *)
Theorem ParseReader_identifier `{GoLib} {Src : Type} `{Reader Src}
  (rest : Src -> list ascii) (fin : error) fuel m (r : Src) srcsize srcname :
  delivers rest fin -> len (rest r) < 2 ^ 63 -> length (id m) = 24%nat ->
  (length (rest r) + 2 <= fuel)%nat ->
  match ParseReader fuel m r srcsize srcname with
  | Done p =>
      p_err p = None ->
      idEpochBase <= Unix (time (p_msg p))
      /\ IdTimestamp (id (p_msg p)) = (Unix (time (p_msg p)) - idEpochBase) mod 2 ^ 32
      /\ skipn 4 (id (p_msg p)) = firstn 20 (SHA256.Sum (rest r))
      /\ length (id (p_msg p)) = 24%nat
  | Panic => True
  | OutOfFuel => False
  end.
Proof.
  intros Hwb Ha Hid Hfuel.
  pose proof (@ParseReader_wb _ _ _ rest fin Hwb fuel m r srcsize srcname Ha Hfuel) as Hp.
  destruct (ParseReader fuel m r srcsize srcname) as [p| |]; [|exact I|contradiction].
  intros He. destruct (Hp He) as (_ & _ & _ & Ht & Hfacts).
  split; [exact Ht|]. apply Hfacts. exact Hid.
Qed.

Lemma ParseReader_identifier_witness :
  exists p,
    @ParseReader asciiLib file _ 200 (set_time freshMessage (mkTime 1659982143))
      (File (lines ["subject a"%string])) (len (lines ["subject a"%string])) (B "a.msg")
    = Done p
    /\ (p_err p = None ->
        skipn 4 (id (p_msg p)) = firstn 20 (SHA256.Sum (lines ["subject a"%string]))).
Proof.
  pose proof (@ParseReader_identifier asciiLib file _ remaining EOF 200
                (set_time freshMessage (mkTime 1659982143))
                (File (lines ["subject a"%string]))
                (len (lines ["subject a"%string])) (B "a.msg")
                file_delivers ltac:(vm_compute; reflexivity) eq_refl ltac:(vm_compute; lia))
    as Hthm.
  destruct (@ParseReader asciiLib file _ 200 (set_time freshMessage (mkTime 1659982143))
              (File (lines ["subject a"%string])) (len (lines ["subject a"%string]))
              (B "a.msg")) as [p| |] eqn:E.
  - exists p. split; [reflexivity|]. intros He. apply (Hthm He).
  - vm_compute in E. discriminate E.
  - contradiction.
Defined.

(** X7.  How a source cuts the stream into reads does not matter, as long
    as it keeps bytes and errors apart: two parses of the same bytes with
    the same size hint into the same message give the same message,
    identifier included, and the same error, or panic both. *)
Theorem ParseReader_any_chunking `{GoLib} {Src1 Src2 : Type} `{Reader Src1} `{Reader Src2}
  (rest1 : Src1 -> list ascii) (rest2 : Src2 -> list ascii) (fin : error)
  fuel1 fuel2 m (r1 : Src1) (r2 : Src2) srcsize srcname :
  delivers rest1 fin -> delivers rest2 fin ->
  rest1 r1 = rest2 r2 -> len (rest1 r1) < 2 ^ 63 -> files m = [] ->
  (length (rest1 r1) + 2 <= fuel1)%nat -> (length (rest1 r1) + 2 <= fuel2)%nat ->
  match ParseReader fuel1 m r1 srcsize srcname,
        ParseReader fuel2 m r2 srcsize srcname with
  | Done p1, Done p2 => p_msg p1 = p_msg p2 /\ p_err p1 = p_err p2
  | Panic, Panic => True
  | _, _ => False
  end.
Proof. apply ParseReader_chunking. Qed.

Lemma ParseReader_any_chunking_witness :
  exists p1 p2,
    @ParseReader asciiLib file _ 200 (set_time freshMessage (mkTime 1659982143))
      (File (lines ["subject a"; "file 2"; "xy"]%string)) 20 (B "a.msg") = Done p1
    /\ @ParseReader asciiLib onebyte _ 200 (set_time freshMessage (mkTime 1659982143))
         (OneByte (lines ["subject a"; "file 2"; "xy"]%string)) 20 (B "a.msg") = Done p2
    /\ p_msg p1 = p_msg p2 /\ p_err p1 = p_err p2.
Proof.
  pose proof (@ParseReader_any_chunking asciiLib file onebyte _ _ remaining ob_remaining EOF
                200 200 (set_time freshMessage (mkTime 1659982143))
                (File (lines ["subject a"; "file 2"; "xy"]%string))
                (OneByte (lines ["subject a"; "file 2"; "xy"]%string)) 20 (B "a.msg")
                file_delivers onebyte_delivers eq_refl ltac:(vm_compute; reflexivity) eq_refl
                ltac:(vm_compute; lia) ltac:(vm_compute; lia)) as Hthm.
  destruct (@ParseReader asciiLib file _ 200 (set_time freshMessage (mkTime 1659982143))
              (File (lines ["subject a"; "file 2"; "xy"]%string)) 20 (B "a.msg"))
    as [p1| |] eqn:E1;
    destruct (@ParseReader asciiLib onebyte _ 200 (set_time freshMessage (mkTime 1659982143))
                (OneByte (lines ["subject a"; "file 2"; "xy"]%string)) 20 (B "a.msg"))
    as [p2| |] eqn:E2; try contradiction.
  - exists p1, p2. split; [reflexivity|]. split; [reflexivity|]. exact Hthm.
  - vm_compute in E1. discriminate E1.
Defined.

(** X8.  A parse of a source that keeps bytes and errors apart into a
    message without attachments ends; when it ends without error the
    counter stands at the length of the stream, the attachment offsets
    increase strictly in the order of the headers, and every payload lies
    inside the stream. *)
Theorem ParseReader_attachments_in_order `{GoLib} {Src : Type} `{Reader Src}
  (rest : Src -> list ascii) (fin : error) fuel m (r : Src) srcsize srcname :
  delivers rest fin -> len (rest r) < 2 ^ 63 -> files m = [] ->
  (length (rest r) + 2 <= fuel)%nat ->
  match ParseReader fuel m r srcsize srcname with
  | Done p =>
      p_err p = None ->
      nread (p_cr p) = len (rest r)
      /\ increasing (map dataStart (files (p_msg p)))
      /\ Forall (fun f => 0 <= dataStart f /\ 0 <= dataLen f
                          /\ dataStart f + dataLen f <= len (rest r))
                (files (p_msg p))
  | Panic => True
  | OutOfFuel => False
  end.
Proof.
  intros Hwb Ha Hfs Hfuel.
  pose proof (@ParseReader_attachments _ _ _ rest fin Hwb fuel m r srcsize srcname
                Ha Hfs Hfuel) as Hp.
  destruct (ParseReader fuel m r srcsize srcname) as [p| |]; [|exact I|contradiction].
  intros He. destruct (Hp He) as (Hn & Hinc & Hall). rewrite Hn in Hall. auto.
Qed.

Lemma ParseReader_attachments_in_order_witness :
  exists p,
    @ParseReader asciiLib file _ 200 (set_time freshMessage (mkTime 1659982143))
      (File (lines ["file 3 a.txt"; "abc"; "file 2"; "de"]%string))
      (len (lines ["file 3 a.txt"; "abc"; "file 2"; "de"]%string)) (B "a.msg")
    = Done p
    /\ (p_err p = None ->
        nread (p_cr p) = len (lines ["file 3 a.txt"; "abc"; "file 2"; "de"]%string)
        /\ increasing (map dataStart (files (p_msg p)))).
Proof.
  pose proof (@ParseReader_attachments_in_order asciiLib file _ remaining EOF 200
                (set_time freshMessage (mkTime 1659982143))
                (File (lines ["file 3 a.txt"; "abc"; "file 2"; "de"]%string))
                (len (lines ["file 3 a.txt"; "abc"; "file 2"; "de"]%string)) (B "a.msg")
                file_delivers ltac:(vm_compute; reflexivity) eq_refl ltac:(vm_compute; lia))
    as Hthm.
  destruct (@ParseReader asciiLib file _ 200 (set_time freshMessage (mkTime 1659982143))
              (File (lines ["file 3 a.txt"; "abc"; "file 2"; "de"]%string))
              (len (lines ["file 3 a.txt"; "abc"; "file 2"; "de"]%string)) (B "a.msg"))
    as [p| |] eqn:E.
  - exists p. split; [reflexivity|]. intros He.
    destruct (Hthm He) as (Hn & Hinc & _). split; assumption.
  - vm_compute in E. discriminate E.
  - contradiction.
Defined.



(** X10.  The read buffer, sized from the size hint, bounds the length of a
    header line: when the first [buffer_size srcsize] bytes of the stream
    hold no line feed, the parse fails on line 1 with the field-too-long
    error and the message is left as it was. *)
Theorem ParseReader_first_line_too_long `{GoLib} {Src : Type} `{Reader Src}
  (rest : Src -> list ascii) (fin : error) fuel m (r : Src) srcsize srcname :
  delivers rest fin -> len (rest r) < 2 ^ 63 ->
  IndexByte (firstn (buffer_size srcsize) (rest r)) NL = -1 ->
  (buffer_size srcsize <= length (rest r))%nat ->
  (length (rest r) + 2 <= fuel)%nat ->
  exists p,
    ParseReader fuel m r srcsize srcname = Done p
    /\ p_msg p = m
    /\ p_err p = Some (Errorf "%s:%d: field too long" [ArgBytes srcname; ArgInt 1]).
Proof. intros Hwb. apply (@ParseReader_long_first_line _ _ _ rest fin Hwb). Qed.

(** X11.  A stream without bytes parses without a line being read: the
    fields of the message stay as they were, the digest part of the
    identifier becomes that of the empty stream, and the outcome is the
    outcome of [UpdateIdFromTime] on the time the message came with. *)
Theorem ParseReader_empty_stream `{GoLib} {Src : Type} `{Reader Src}
  (rest : Src -> list ascii) fuel m (r : Src) srcsize srcname :
  delivers rest EOF -> rest r = [] -> (2 <= fuel)%nat ->
  exists p,
    ParseReader fuel m r srcsize srcname = Done p
    /\ (p_msg p, p_err p)
       = UpdateIdFromTime (set_id m (firstn 4 (id m) ++ firstn 20 (SHA256.Sum [])))
    /\ nread (p_cr p) = 0.
Proof. intros Hwb. apply (@ParseReader_no_bytes _ _ _ rest EOF Hwb). reflexivity. Qed.

Lemma ParseReader_first_line_too_long_witness :
  exists p,
    @ParseReader asciiLib file _ 200 (set_time freshMessage (mkTime 1659982143))
      (File (lines ["subject xxxxxxxxxxxxxxxxxxxxxxxxxxxxxxxxxxxxxxxxxxxxxxxxxxxxxxxxxxxxx"%string]))
      69 (B "a.msg") = Done p
    /\ p_msg p = set_time freshMessage (mkTime 1659982143)
    /\ p_err p = Some (Errorf "%s:%d: field too long" [ArgBytes (B "a.msg"); ArgInt 1]).
Proof.
  exact (@ParseReader_first_line_too_long asciiLib file _ remaining EOF 200
           (set_time freshMessage (mkTime 1659982143))
           (File (lines ["subject xxxxxxxxxxxxxxxxxxxxxxxxxxxxxxxxxxxxxxxxxxxxxxxxxxxxxxxxxxxxx"%string]))
           69 (B "a.msg")
           file_delivers ltac:(vm_compute; reflexivity) ltac:(vm_compute; reflexivity)
           ltac:(vm_compute; lia) ltac:(vm_compute; lia)).
Defined.

Lemma ParseReader_empty_stream_witness :
  exists p,
    @ParseReader asciiLib file _ 2 (set_time freshMessage (mkTime 1659982143))
      (File []) 0 (B "a.msg") = Done p
    /\ (p_msg p, p_err p)
       = UpdateIdFromTime (set_id (set_time freshMessage (mkTime 1659982143))
                             (firstn 4 (id (set_time freshMessage (mkTime 1659982143)))
                              ++ firstn 20 (SHA256.Sum [])))
    /\ nread (p_cr p) = 0.
Proof.
  exact (@ParseReader_empty_stream asciiLib file _ remaining 2
           (set_time freshMessage (mkTime 1659982143)) (File []) 0 (B "a.msg")
           file_delivers eq_refl (Nat.le_refl 2)).
Defined.

(** ** Attachment headers *)

(** X12.  An attachment header whose size parses, read from a source that
    keeps bytes and errors apart.  A size that fits the bytes to come is
    accepted: the descriptor appended records the name, the offset in the
    stream of the first byte after the header line, and the size; the
    payload is skipped, not read into the message.  A size beyond the
    bytes to come fails with the beyond-end error, a size from 2^63 on
    with the negative-count error of [bufio]; the message stays as it
    was. *)
Theorem field_file_outcome `{GoLib} {Src : Type} `{Reader Src}
  (rest : Src -> list ascii) (fin : error) (all srcname : list ascii)
  (fuel : nat) (st : pstate) (line : list ascii) (p size64 : Z) :
  delivers rest fin -> Inv rest all (br st) ->
  (length (stream rest (br st)) + 1 <= fuel)%nat ->
  ParseUint (if negb (IndexByte (TrimSpace (slice_from line p)) SP =? -1)
             then slice_to (TrimSpace (slice_from line p))
                    (IndexByte (TrimSpace (slice_from line p)) SP)
             else TrimSpace (slice_from line p)) 64 = (size64, None) ->
  if int size64 <? 0 then
    exists st', field_file fuel srcname st line p = Done (Return st' ErrNegativeCount)
                /\ msg st' = msg st
  else if int size64 <=? len (stream rest (br st)) then
    exists st',
      field_file fuel srcname st line p = Done (Continue st')
      /\ msg st' = set_files (msg st)
                     (files (msg st) ++
                      [mkAttachment
                         (if negb (IndexByte (TrimSpace (slice_from line p)) SP =? -1)
                          then TrimSpace (slice_from (TrimSpace (slice_from line p))
                                            (IndexByte (TrimSpace (slice_from line p)) SP))
                          else [])
                         (len all - len (stream rest (br st))) (int size64)])
      /\ lineno st' = lineno st
      /\ stream rest (br st') = skipn (Z.to_nat (int size64)) (stream rest (br st))
      /\ Inv rest all (br st')
  else
    exists st',
      field_file fuel srcname st line p =
      Done (Return st'
              (Errorf "%s:%d: file %d %q: invalid size %d (beyond end of message file)"
                 [ArgBytes srcname; ArgInt (lineno st); ArgInt (int (fileno st + 1));
                  ArgBytes
                    (if negb (IndexByte (TrimSpace (slice_from line p)) SP =? -1)
                     then TrimSpace (slice_from (TrimSpace (slice_from line p))
                                       (IndexByte (TrimSpace (slice_from line p)) SP))
                     else []);
                  ArgInt (int size64)]))
      /\ msg st' = msg st.
Proof.
  intros Hwb Hinv Hfuel Hparse.
  exact (@field_file_cases _ _ _ rest fin Hwb all srcname fuel st line p size64
           Hinv Hfuel Hparse).
Qed.

Lemma field_file_outcome_witness :
  exists st',
    @field_file asciiLib file _ 8 (B "a.msg")
      (start_state freshMessage (File (B "abcde")) 64) (B "file 3 a.txt") 4
    = Done (Continue st')
    /\ msg st' = set_files freshMessage [mkAttachment (B "a.txt") 0 3]
    /\ lineno st' = 0
    /\ stream remaining (br st') = B "de"
    /\ Inv remaining (B "abcde") (br st').
Proof.
  exact (@field_file_outcome asciiLib file _ remaining EOF (B "abcde") (B "a.msg") 8
           (start_state freshMessage (File (B "abcde")) 64) (B "file 3 a.txt") 4 3
           file_delivers
           (proj1 (@start_state_Inv (B "abcde") file _ remaining freshMessage
                     (File (B "abcde")) 64 eq_refl ltac:(vm_compute; reflexivity)))
           ltac:(vm_compute; lia) eq_refl).
Defined.

(** X13.  An attachment header whose size is no number.  The error is
    built from [line[p:]] with the [p] of the keyword, four, applied to
    the size text: a size text shorter than four bytes makes the parser
    panic (so do [file x] and [file] with nothing after the keyword), and
    a longer one is quoted from its fifth byte on. *)
Theorem parse_field_bad_file_size `{GoLib} {Src : Type} `{Reader Src}
  (fuel : nat) (srcname : list ascii) (st : pstate) (tok : list ascii) :
  Forall (fun c => graphic c = true) tok ->
  snd (ParseUint tok 64) <> None ->
  parse_field fuel srcname st (B "file " ++ tok) =
  if (4 <=? length tok)%nat then
    Done (Return {| msg := msg st; lineno := lineno st;
                    fileno := int (fileno st + 1); br := br st |}
            (Errorf "%s:%d: invalid integer size %q"
               [ArgBytes srcname; ArgInt (lineno st); ArgBytes (skipn 4 tok)]))
  else Panic.
Proof.
  intros Hg Hbad.
  change (parse_field fuel srcname st (B "file " ++ tok))
    with (field_file fuel srcname st (B "file " ++ tok) 4).
  unfold field_file.
  change (slice_from (B "file " ++ tok) 4) with (SP :: tok).
  destruct (TrimSpace_graphic Hg) as [_ ->].
  rewrite (graphic_no_space Hg). cbn [Z.eqb Pos.eqb negb].
  destruct (ParseUint tok 64) as [v [e|]]; [|cbn [snd] in Hbad; congruence].
  unfold slice_from_checked.
  destruct (Nat.leb_spec 4 (length tok)) as [Hlong|Hshort].
  - destruct (Z.leb_spec 4 (len tok)) as [_|Hlt]; [|unfold len in Hlt; lia].
    reflexivity.
  - destruct (Z.leb_spec 4 (len tok)) as [Hle|_]; [unfold len in Hle; lia|].
    reflexivity.
Qed.

Lemma parse_field_bad_file_size_witness :
  @parse_field asciiLib file _ 8 (B "a.msg") (start_state freshMessage (File []) 64)
    (B "file x") = Panic
  /\ @parse_field asciiLib file _ 8 (B "a.msg") (start_state freshMessage (File []) 64)
       (B "file 12345x")
     = Done (Return {| msg := freshMessage; lineno := 0; fileno := 1;
                       br := br (start_state freshMessage (File []) 64) |}
               (Errorf "%s:%d: invalid integer size %q"
                  [ArgBytes (B "a.msg"); ArgInt 0; ArgBytes (B "5x")])).
Proof.
  split.
  - refine (@parse_field_bad_file_size asciiLib file _ 8 (B "a.msg")
              (start_state freshMessage (File []) 64) (B "x") _ _);
      [repeat constructor | discriminate].
  - refine (@parse_field_bad_file_size asciiLib file _ 8 (B "a.msg")
              (start_state freshMessage (File []) 64) (B "12345x") _ _);
      [repeat constructor | discriminate].
Defined.

(** ** The parser on any source *)

(** X14.  [ParseReader] only adds to the attachments of the message it is
    given: whatever the source does and however the parse ends, the
    attachments the message came with are still there, in front. *)
Theorem ParseReader_only_appends_files `{GoLib} {Src : Type} `{Reader Src}
  (fuel : nat) (m : Message) (r : Src) (srcsize : Z) (srcname : list ascii) :
  match ParseReader fuel m r srcsize srcname with
  | Done p => exists fs, files (p_msg p) = files m ++ fs
  | Panic => True
  | OutOfFuel => True
  end.
Proof.
  destruct (ParseReader fuel m r srcsize srcname) as [p| |] eqn:E; try exact I.
  exact (proj2 (@ParseReader_keeps _ _ _ (fun _ => True) (fun _ _ _ => I)
                  fuel m r srcsize srcname p E I)).
Qed.

(** X15.  Whatever the source does, the counter of the hashing reader and
    its digest agree after a parse: [nread] is the number of bytes that
    were written to the digest (as an [int]). *)
Theorem ParseReader_counter_matches_digest `{GoLib} {Src : Type} `{Reader Src}
  (fuel : nat) (m : Message) (r : Src) (srcsize : Z) (srcname : list ascii) :
  match ParseReader fuel m r srcsize srcname with
  | Done p => nread (p_cr p) = int (len (hash (p_cr p)))
  | Panic => True
  | OutOfFuel => True
  end.
Proof.
  destruct (ParseReader fuel m r srcsize srcname) as [p| |] eqn:E; try exact I.
  refine (proj1 (@ParseReader_keeps _ _ _
                   (fun cr => nread cr = int (len (hash cr))) _
                   fuel m r srcsize srcname p E eq_refl)).
  intros cr L Hcr. unfold HCR_Read.
  destruct (Read (inner cr) L) as [[p_n e] s']. destruct e as [e|]; cbn [snd nread hash].
  - exact Hcr.
  - rewrite Hcr, int_add_int. f_equal. unfold len. rewrite length_app. lia.
Qed.

(** ** Addresses *)

(** X16.  After [Author.Parse] the address is never a text without an
    '@': when the call returns no error the address holds at least one
    '@', and when it returns an error the author is either as before
    (the line was blank) or has an empty address. *)
Theorem Author_Parse_address `{GoLib} (a : Author) (line : list ascii) :
  match Author_Parse a line with
  | (a', None) => 1 <= countByte (address a') "@"%char
  | (a', Some _) => a' = a \/ address a' = []
  end.
Proof.
  unfold Author_Parse.
  destruct (len (TrimSpace line) =? 0); [left; reflexivity|].
  destruct (negb (IndexByte (TrimSpace line) SP =? -1));
    rewrite normalize_result;
    match goal with
    | |- context [IndexByte ?x "@"%char =? -1] =>
        destruct (Z.eqb_spec (IndexByte x "@"%char) (-1)) as [E|E]
    end;
    cbn [address];
    try (right; reflexivity);
    apply IndexByte_count; assumption.
Qed.

(** ** util.go and cmd-list.go *)

(** X17.  [ilog2] is the floor of the binary logarithm from 2 on, and 1,
    not 0, for 0 and 1; it is always between 1 and 63. *)
Theorem ilog2_floor (n : Z) :
  0 <= n < 2 ^ 64 ->
  1 <= ilog2 n <= 63
  /\ (n <= 1 -> ilog2 n = 1)
  /\ (2 <= n -> 2 ^ ilog2 n <= n < 2 ^ (ilog2 n + 1)).
Proof.
  intros Hn.
  destruct (Z.le_gt_cases n 1) as [Hs|Hb].
  - assert (E : ilog2 n = 1).
    { unfold ilog2. destruct (Z.leb_spec n 1); [reflexivity | lia]. }
    rewrite E. split; [lia|]. split; [reflexivity | lia].
  - rewrite ilog2_log2 by lia.
    pose proof (Z.log2_spec n ltac:(lia)) as Hspec.
    assert (Hlo : 1 <= Z.log2 n).
    { change 1 with (Z.log2 2). apply Z.log2_le_mono. lia. }
    assert (Hhi : Z.log2 n < 64) by (apply Z.log2_lt_pow2; lia).
    split; [lia|]. split; [lia|]. intros _.
    replace (Z.log2 n + 1) with (Z.succ (Z.log2 n)) by lia. exact Hspec.
Qed.

Lemma ilog2_floor_witness : ilog2 4097 = 12 /\ ilog2 1 = 1 /\ ilog2 0 = 1.
Proof.
  pose proof (@ilog2_floor 0 ltac:(lia)) as (_ & H0 & _).
  pose proof (@ilog2_floor 1 ltac:(lia)) as (_ & H1 & _).
  split; [reflexivity|]. split; [apply H1 | apply H0]; lia.
Defined.

(** X18.  [relPath dir path] is the part of [path] after [dir] and a
    slash, "." when [path] is [dir], and [path] itself in every other
    case. *)
Theorem relPath_cases (dir : list ascii) :
  (forall r, relPath dir (dir ++ "/"%char :: r) = r)
  /\ relPath dir dir = B "."
  /\ (forall path,
        path <> dir -> (forall r, path <> dir ++ "/"%char :: r) -> relPath dir path = path).
Proof.
  split; [|split].
  - intros r. unfold relPath.
    assert (Hl : (len (dir ++ "/"%char :: r) >? len dir) = true).
    { unfold len. rewrite length_app. cbn [length]. apply Z.gtb_lt. lia. }
    rewrite Hl. change "/"%char with PathSeparator.
    rewrite nth_app_cons, Ascii.eqb_refl, HasPrefix_app. cbn [andb].
    unfold slice_from, len.
    replace (Z.to_nat (Z.of_nat (length dir) + 1)) with (length dir + 1)%nat by lia.
    apply skipn_app_cons.
  - unfold relPath. rewrite Z.gtb_ltb, Z.ltb_irrefl. cbn [andb].
    destruct (bytes_eqb dir dir) eqn:E; [reflexivity|].
    assert (Ht : bytes_eqb dir dir = true) by (apply bytes_eqb_eq; reflexivity).
    congruence.
  - intros path Hne Hsub. unfold relPath.
    destruct ((len path >? len dir)
              && Ascii.eqb (nth (length dir) path zero_byte) PathSeparator
              && HasPrefix path dir) eqn:Ec.
    + exfalso. apply andb_prop in Ec. destruct Ec as [Ec Hp].
      apply andb_prop in Ec. destruct Ec as [Hl Hc].
      apply Z.gtb_lt in Hl. unfold len in Hl.
      apply HasPrefix_split in Hp.
      destruct (skipn (length dir) path) as [|c r] eqn:Es.
      { apply (f_equal (@List.length _)) in Es. rewrite length_skipn in Es.
        cbn [length] in Es. lia. }
      rewrite Hp in Hc. rewrite nth_app_cons in Hc.
      apply Ascii.eqb_eq in Hc. subst c.
      apply (Hsub r). exact Hp.
    + destruct (bytes_eqb path dir) eqn:E; [|reflexivity].
      apply bytes_eqb_eq in E. contradiction.
Qed.

(** X19.  [isDotFilename] looks at the last element of the path: it holds
    exactly when the text after the last slash begins with a dot, and not
    for a path that ends in a slash. *)
Theorem isDotFilename_base (dir name : list ascii) :
  ~ In "/"%char name ->
  isDotFilename (dir ++ "/"%char :: name) = isDotFilename name
  /\ isDotFilename name = match name with
                          | c :: _ => Ascii.eqb c "."%char
                          | [] => false
                          end.
Proof.
  intros Hn.
  assert (H2 : isDotFilename name = match name with
                                    | c :: _ => Ascii.eqb c "."%char
                                    | [] => false
                                    end).
  { unfold isDotFilename. rewrite LastIndexByte_none by assumption.
    destruct name as [|c t]; [reflexivity|].
    destruct (Z.geb_spec (-1 + 1) (len (c :: t))) as [Hge|_]; [|reflexivity].
    unfold len in Hge. cbn [length] in Hge. lia. }
  split; [|exact H2]. rewrite H2.
  unfold isDotFilename. rewrite LastIndexByte_last by assumption.
  unfold len. rewrite length_app.
  destruct name as [|c t]; cbn [length].
  - destruct (Z.geb_spec (Z.of_nat (length dir) + 1) (Z.of_nat (length dir + 1)));
      [reflexivity | lia].
  - destruct (Z.geb_spec (Z.of_nat (length dir) + 1)
                (Z.of_nat (length dir + S (S (length t))))) as [Hge|_]; [lia|].
    replace (Z.to_nat (Z.of_nat (length dir) + 1)) with (length dir + 1)%nat by lia.
    replace (dir ++ "/"%char :: c :: t) with ((dir ++ ["/"%char]) ++ c :: t)
      by (rewrite <- app_assoc; reflexivity).
    replace (length dir + 1)%nat with (length (dir ++ ["/"%char]))
      by (rewrite length_app; reflexivity).
    rewrite nth_app_cons. reflexivity.
Qed.

Lemma isDotFilename_base_witness :
  isDotFilename (B "inbox/.hidden") = true /\ isDotFilename (B "in.box/a.msg") = false.
Proof.
  assert (Hn : forall s, IndexByte s "/"%char = -1 -> ~ In "/"%char s)
    by (intros s; apply IndexByte_none).
  pose proof (@isDotFilename_base (B "inbox") (B ".hidden") (Hn (B ".hidden") eq_refl)) as [H1 H1'].
  pose proof (@isDotFilename_base (B "in.box") (B "a.msg") (Hn (B "a.msg") eq_refl)) as [H2 H2'].
  split.
  - change (B "inbox/.hidden") with (B "inbox" ++ "/"%char :: B ".hidden").
    rewrite H1, H1'. reflexivity.
  - change (B "in.box/a.msg") with (B "in.box" ++ "/"%char :: B "a.msg").
    rewrite H2, H2'. reflexivity.
Defined.

(** X20.  [countByte] adds up over a concatenation, is never more than the
    length, and is zero exactly when [bytes.IndexByte] finds nothing. *)
Theorem countByte_counts (s t : list ascii) (c : ascii) :
  countByte (s ++ t) c = countByte s c + countByte t c
  /\ 0 <= countByte s c <= len s
  /\ (countByte s c = 0 <-> IndexByte s c = -1).
Proof.
  split; [apply countByte_app|]. split; [|apply countByte_zero].
  split; [apply countByte_nonneg | apply countByte_le].
Qed.

(** X21.  [limitStrLen] returns a text that fits as it is; a longer one is
    cut to [maxlen - 1] bytes and gets the three bytes of the ellipsis, so
    the result is [maxlen + 2] bytes long; with a limit below one a longer
    text makes it panic. *)
Theorem limitStrLen_result (s : list ascii) (maxlen : Z) :
  (len s <= maxlen -> limitStrLen s maxlen = Done s)
  /\ (1 <= maxlen < len s ->
      limitStrLen s maxlen = Done (firstn (Z.to_nat (maxlen - 1)) s ++ ellipsis)
      /\ len (firstn (Z.to_nat (maxlen - 1)) s ++ ellipsis) = maxlen + 2)
  /\ (maxlen < 1 -> maxlen < len s -> limitStrLen s maxlen = Panic).
Proof.
  unfold limitStrLen, slice_to_checked, slice_to.
  split; [|split].
  - intros Hl. destruct (Z.gtb_spec (len s) maxlen); [lia | reflexivity].
  - intros Hl. destruct (Z.gtb_spec (len s) maxlen); [|lia].
    destruct (Z.leb_spec 0 (maxlen - 1)); [|lia].
    destruct (Z.leb_spec (maxlen - 1) (len s)); [|lia].
    cbn [andb]. split; [reflexivity|].
    unfold len in *. rewrite length_app, length_firstn. cbn [ellipsis length]. lia.
  - intros Hm Hl. destruct (Z.gtb_spec (len s) maxlen); [|lia].
    destruct (Z.leb_spec 0 (maxlen - 1)); [lia|]. reflexivity.
Qed.
